(** * Timeline ingestion engine: scraper and scheduler

    A shallow embedding of [src/app/scraper.py] (class
    [TwitterScraperPlaywright]) and [src/scheduler.py] (class
    [ScraperScheduler]).

    - Python [str] values are [string]s; the [str] methods the program
      calls ([in], [split], [startswith], [lower]) are defined in [Py].
    - Python [int] arguments ([max_tweets], [max_runs]) are [Z].
    - The two collaborators are explicit inputs.  The browser page is the
      list of article elements each [query_selector_all] call returns; the
      durable store is a table of rows with a uniqueness constraint on
      [tweet_id], a log of the calls it received and a schedule of the
      failures it raises.
    - The [time.sleep] calls of the scraper are not modelled (they have no
      effect on any value the program computes); the draws of [random] that
      choose the scroll are read from an explicit entropy source.
    - Python [float]s are IEEE 754 binary64 numbers, the [spec_float]s of
      the Standard Library.  The scheduler computes its interval with them,
      and the interval decides whether [datetime.fromtimestamp] and
      [time.sleep] raise. *)

From Stdlib Require Import Strings.Ascii Strings.String.
From Stdlib Require PrimFloat SpecFloat FloatOps.
From stdpp Require Import base numbers list strings gmap.

Open Scope string_scope.

(** ** Python primitives *)

Module Py.

(** Exceptions the modelled code can meet.  [StoreError] carries the text
    [str(e)] of an error raised by the store client. *)
Inductive exn : Type :=
| ValueError
| IndexError
| BrowserError
| StoreError (msg : string).

(** A computation that returns or raises. *)
Definition result (A : Type) : Type := exn + A.

Definition ret {A} (a : A) : result A := inr a.
Definition raise {A} (e : exn) : result A := inl e.
Definition bind {A B} (m : result A) (k : A → result B) : result B :=
  match m with
  | inl e => inl e
  | inr a => k a
  end.

(** [sub in s] *)
Fixpoint contains (sub s : string) : bool :=
  String.prefix sub s ||
  match s with
  | EmptyString => false
  | String _ s' => contains sub s'
  end.

(** [s.startswith(p)] *)
Definition startswith (p s : string) : bool := String.prefix p s.

(** [s.split(sep)] for a non-empty [sep]: the pieces between the leftmost
    non-overlapping occurrences of [sep].  [skip] counts the characters of
    an occurrence of [sep] still to be passed over. *)
Fixpoint split_from (sep : string) (skip : nat) (s : string) : list string :=
  match s with
  | EmptyString => [""]
  | String c s' =>
      match skip with
      | S k => split_from sep k s'
      | O =>
          if String.prefix sep s
          then "" :: split_from sep (String.length sep - 1) s'
          else match split_from sep 0 s' with
               | piece :: pieces => String c piece :: pieces
               | [] => [String c ""]
               end
      end
  end.

Definition split (sep s : string) : list string := split_from sep 0 s.

(** [l[0]] and [l[-1]] on the result of a [split], which is never empty. *)
Definition first_piece (l : list string) : string := default "" (head l).
Definition last_piece (l : list string) : string := default "" (last l).

(** [l.index(x)]: the first position of [x], [ValueError] when absent. *)
Definition index (x : string) (l : list string) : result nat :=
  match list_find (λ y, y = x) l with
  | Some (i, _) => ret i
  | None => raise ValueError
  end.

(** [l[i]] for [i >= 0]: [IndexError] past the end. *)
Definition getitem (l : list string) (i : nat) : result string :=
  match l !! i with
  | Some x => ret x
  | None => raise IndexError
  end.

(** [c.lower()] and [s.lower()] on the ASCII letters; any other byte is
    kept, so a non-ASCII character never turns into a letter of the words
    the program searches for. *)
Definition lower_ascii (c : Ascii.ascii) : Ascii.ascii :=
  let n := Ascii.nat_of_ascii c in
  if (65 <=? n)%nat && (n <=? 90)%nat then Ascii.ascii_of_nat (n + 32) else c.

Fixpoint lower (s : string) : string :=
  match s with
  | EmptyString => EmptyString
  | String c s' => String (lower_ascii c) (lower s')
  end.

End Py.

Notation "'let!' x ':=' m 'in' k" := (Py.bind m (λ x, k))
  (at level 10, x name, m at level 100, k at level 200, only parsing).

(** ** The scraper: [src/app/scraper.py] *)

Module Scraper.

(** *** Extraction of the identifier and of the author *)

(** [extract_tweet_id_from_url]: the body of the [try] raises nothing. *)
Definition extract_tweet_id_from_url (url : string) : option string :=
  if Py.contains "/status/" url then
    Some (Py.first_piece (Py.split "/"
           (Py.first_piece (Py.split "?"
             (Py.last_piece (Py.split "/status/" url))))))
  else None.

(** The body of the [try] of [extract_author_from_url]. *)
Definition author_of_url (url : string) : Py.result (option string) :=
  if Py.contains "/status/" url then
    let parts := Py.split "/" url in
    let! i := (if bool_decide ("x.com" ∈ parts)
               then Py.index "x.com" parts
               else Py.index "twitter.com" parts) in
    let! a := Py.getitem parts (i + 1) in
    Py.ret (Some a)
  else Py.ret None.

(** [extract_author_from_url]: any exception is logged and gives [None]. *)
Definition extract_author_from_url (url : string) : option string :=
  match author_of_url url with
  | inr a => a
  | inl _ => None
  end.

(** *** The durable store client *)

(** The row [save_tweet] builds and sends to the table. *)
Record Row : Type := mkRow {
  row_tweet_id : string;
  row_content : string;
  row_author : option string;
  row_tweet_url : string
}.

(** A request the program sends to the table [timeline_tweets]. *)
Inductive Call : Type :=
| Select (tweet_id : string)
| Insert (data : Row).

(** Modelled from the spec: the durable store client (the [supabase]
    package, not part of the repository).  The table holds [rows] and
    enforces uniqueness of [tweet_id]; [calls] records every request
    received; [faults k c] is the text of the error the client raises when
    request number [k] is [c] (transport or query failure), [None] when the
    request goes through. *)
Record Store : Type := mkStore {
  rows : list Row;
  calls : list Call;
  faults : nat → Call → option string
}.

(** Modelled from the spec: the text of the error the store raises when an
    insert violates the uniqueness constraint on [tweet_id]. *)
Definition unique_violation : string :=
  "duplicate key value violates unique constraint".

Definition ids (db : Store) : list string := row_tweet_id <$> rows db.

Definition received (c : Call) (db : Store) (rs : list Row) : Store :=
  {| rows := rs; calls := calls db ++ [c]; faults := faults db |}.

(** Modelled from the spec: [table.select('id').eq('tweet_id', id).execute()],
    the rows whose [tweet_id] is [id]. *)
Definition select_eq (tweet_id : string) (db : Store)
  : Py.result (list Row) * Store :=
  let c := Select tweet_id in
  match faults db (length (calls db)) c with
  | Some msg => (Py.raise (Py.StoreError msg), received c db (rows db))
  | None =>
      (Py.ret (filter (λ r, row_tweet_id r = tweet_id) (rows db)),
       received c db (rows db))
  end.

(** Modelled from the spec: [table.insert(data).execute()], which adds the
    row or fails on the uniqueness constraint. *)
Definition insert (data : Row) (db : Store) : Py.result unit * Store :=
  let c := Insert data in
  match faults db (length (calls db)) c with
  | Some msg => (Py.raise (Py.StoreError msg), received c db (rows db))
  | None =>
      if bool_decide (row_tweet_id data ∈ ids db)
      then (Py.raise (Py.StoreError unique_violation), received c db (rows db))
      else (Py.ret tt, received c db (rows db ++ [data]))
  end.

(** The rows of the table whose [tweet_id] is [id], counted. *)
Definition count_id (id : string) (db : Store) : nat :=
  length (filter (λ r, row_tweet_id r = id) (rows db)).

(** The rows the program asked the store to insert, in order. *)
Definition inserts_of (cs : list Call) : list Row :=
  omap (λ c, match c with Insert data => Some data | Select _ => None end) cs.

(** *** The gateway: [is_duplicate] and [save_tweet] *)

Inductive Level : Type := DEBUG | INFO | WARNING | ERROR.

(** The log lines of the gateway, by the format string that prints them. *)
Inductive Message : Type :=
| ErrorCheckingDuplicate (tweet_id msg : string)
| SkippingDuplicate (tweet_id : string)
| SavedNewTweet (tweet_id : string)
| AlreadyExists (tweet_id : string)
| ErrorSaving (tweet_id msg : string).

(** The part of the scraper object the gateway reads and writes: the store
    client and the lines sent to the logger. *)
Record State : Type := mkState {
  supabase : Store;
  logged : list (Level * Message)
}.

Definition log (lvl : Level) (m : Message) (db : Store) (s : State) : State :=
  {| supabase := db; logged := logged s ++ [(lvl, m)] |}.

Definition str (e : Py.exn) : string :=
  match e with
  | Py.StoreError msg => msg
  | Py.ValueError => "ValueError"
  | Py.IndexError => "IndexError"
  | Py.BrowserError => "BrowserError"
  end.

Definition is_duplicate (tweet_id : string) (s : State) : bool * State :=
  match select_eq tweet_id (supabase s) with
  | (inr data, db) =>
      (bool_decide (0 < length data), {| supabase := db; logged := logged s |})
  | (inl e, db) =>
      (false, log ERROR (ErrorCheckingDuplicate tweet_id (str e)) db s)
  end.

(** ['duplicate' in str(e).lower() or 'unique' in str(e).lower()] *)
Definition names_constraint (text : string) : bool :=
  Py.contains "duplicate" (Py.lower text) || Py.contains "unique" (Py.lower text).

Definition save_tweet (tweet_id content : string) (author : option string)
    (tweet_url : string) (s : State) : bool * State :=
  let (dup, s1) := is_duplicate tweet_id s in
  if dup then
    (false, log INFO (SkippingDuplicate tweet_id) (supabase s1) s1)
  else
    let data := {| row_tweet_id := tweet_id; row_content := content;
                   row_author := author; row_tweet_url := tweet_url |} in
    match insert data (supabase s1) with
    | (inr _, db) => (true, log INFO (SavedNewTweet tweet_id) db s1)
    | (inl e, db) =>
        if names_constraint (str e)
        then (false, log WARNING (AlreadyExists tweet_id) db s1)
        else (false, log ERROR (ErrorSaving tweet_id (str e)) db s1)
    end.

(** *** The collection loop of [collect_tweets] *)

(** One rendered [article] element: [tweet_link] is the [href] of its first
    anchor matching [a[href*=/status/]] ([None] when there is no such
    anchor, or when looking it up raises, which the loop body treats alike),
    [inner_text] what the call of that name returns or raises. *)
Record Element : Type := mkElement {
  tweet_link : option string;
  inner_text : Py.result string
}.

(** The dictionary appended to [tweets_data]. *)
Record Tweet : Type := mkTweet {
  tweet_id : string;
  content : string;
  author : option string;
  url : string
}.

Inductive ScrollPattern : Type := small | medium | large.

(** The draws of [random] of one scroll: the pattern chosen, the entropy of
    the [randint] that follows, whether [random.random() < 0.15], and the
    entropy of the [randint] of the scroll back. *)
Record Draw : Type := mkDraw {
  scroll_pattern : ScrollPattern;
  scroll_entropy : nat;
  scrolls_back : bool;
  back_entropy : nat
}.

(** [random.randint(lo, hi)] on [lo <= hi]. *)
Definition randint (lo hi : Z) (entropy : nat) : Z :=
  (lo + Z.of_nat entropy `mod` (hi - lo + 1))%Z.

(** The scripts sent to [page.evaluate]. *)
Inductive PageAction : Type :=
| ScrollToSmooth (dy : Z)
| ScrollBy (dy : Z).

(** The local variables of the loop, and the scripts evaluated so far. *)
Record Loop : Type := mkLoop {
  tweets_data : list Tweet;
  processed_tweet_ids : gset string;
  scroll_attempts : nat;
  actions : list PageAction
}.

Definition max_scroll_attempts : nat := 20.

Definition default_max_tweets : Z := 10.

(** [not tweet_id] for the value [extract_tweet_id_from_url] returned. *)
Definition falsy (v : option string) : bool :=
  match v with
  | None | Some "" => true
  | Some _ => false
  end.

(** [tweet_url] once the relative [href] is completed. *)
Definition absolute_url (href : string) : string :=
  if Py.startswith "http" href then href else "https://x.com" +:+ href.

(** The body of [for tweet_element in tweet_elements], after the test of
    the [break]: every [continue] and the [except] leave through the state
    reached so far. *)
Definition process_element (st : Loop) (el : Element) : Loop :=
  match tweet_link el with
  | None => st
  | Some href =>
      let tweet_url := absolute_url href in
      let found := extract_tweet_id_from_url tweet_url in
      if falsy found then st
      else
        let tweet_id := default "" found in
        if bool_decide (tweet_id ∈ processed_tweet_ids st) then st
        else
          let st1 := {| tweets_data := tweets_data st;
                        processed_tweet_ids := {[tweet_id]} ∪ processed_tweet_ids st;
                        scroll_attempts := scroll_attempts st;
                        actions := actions st |} in
          let author := extract_author_from_url tweet_url in
          match inner_text el with
          | inl _ => st1
          | inr tweet_content =>
              {| tweets_data := tweets_data st ++
                   [ {| tweet_id := tweet_id; content := tweet_content;
                        author := author; url := tweet_url |} ];
                 processed_tweet_ids := processed_tweet_ids st1;
                 scroll_attempts := scroll_attempts st;
                 actions := actions st |}
          end
  end.

(** [len(tweets_data) < max_tweets] *)
Definition wants_more (max_tweets : Z) (st : Loop) : bool :=
  bool_decide (Z.of_nat (length (tweets_data st)) < max_tweets)%Z.

Fixpoint for_elements (max_tweets : Z) (st : Loop) (els : list Element) : Loop :=
  match els with
  | [] => st
  | el :: rest =>
      if wants_more max_tweets st
      then for_elements max_tweets (process_element st el) rest
      else st
  end.

Definition scroll_amount (d : Draw) : Z :=
  match scroll_pattern d with
  | small => randint 200 400 (scroll_entropy d)
  | medium => randint 400 700 (scroll_entropy d)
  | large => randint 700 1000 (scroll_entropy d)
  end.

(** The block under [if len(tweets_data) < max_tweets] that scrolls. *)
Definition scroll (d : Draw) (st : Loop) : Loop :=
  {| tweets_data := tweets_data st;
     processed_tweet_ids := processed_tweet_ids st;
     scroll_attempts := scroll_attempts st + 1;
     actions := actions st ++ ScrollToSmooth (scroll_amount d) ::
       (if scrolls_back d
        then [ScrollBy (- randint 50 150 (back_entropy d))]
        else []) |}.

(** The browser page as the loop sees it: [rendered k] is what
    [query_selector_all] returns once [k] scrolls were made, [draws k] the
    random draws of scroll number [k]. *)
Record Page : Type := mkPage {
  rendered : nat → list Element;
  draws : nat → Draw
}.

(** The condition of the [while] loop. *)
Definition keeps_collecting (max_tweets : Z) (st : Loop) : bool :=
  wants_more max_tweets st
  && bool_decide (scroll_attempts st < max_scroll_attempts).

(** The [while] loop; [fuel] bounds the number of passes, [None] when it
    does not suffice. *)
Fixpoint while_collecting (fuel : nat) (max_tweets : Z) (page : Page)
    (st : Loop) : option Loop :=
  if keeps_collecting max_tweets st
  then
    match fuel with
    | O => None
    | S fuel' =>
        let st1 :=
          for_elements max_tweets st (rendered page (scroll_attempts st)) in
        let st2 :=
          if wants_more max_tweets st1
          then scroll (draws page (scroll_attempts st1)) st1
          else st1 in
        while_collecting fuel' max_tweets page st2
    end
  else Some st.

Definition start_of_loop : Loop :=
  {| tweets_data := []; processed_tweet_ids := ∅;
     scroll_attempts := 0; actions := [] |}.

(** [collect_tweets], from the initialisation of [tweets_data] on. *)
Definition collect_tweets (max_tweets : Z) (page : Page) : option Loop :=
  while_collecting max_scroll_attempts max_tweets page start_of_loop.

(** The scroll cycles performed: the smooth scrolls sent to the page. *)
Definition is_smooth_scroll (a : PageAction) : bool :=
  match a with
  | ScrollToSmooth _ => true
  | ScrollBy _ => false
  end.

Definition scroll_cycles (st : Loop) : nat :=
  length (List.filter is_smooth_scroll (actions st)).

(** *** The run: [scrape_and_save] *)

Record RunResult : Type := mkRunResult {
  total_collected : nat;
  saved : nat;
  skipped_duplicates : nat;
  tweets : list Tweet
}.

(** The row [save_tweet] builds from a collected tweet. *)
Definition row_of (t : Tweet) : Row :=
  {| row_tweet_id := tweet_id t; row_content := content t;
     row_author := author t; row_tweet_url := url t |}.

(** [for i, tweet in enumerate(tweets, 1)] with its two counters. *)
Fixpoint save_all (tweets : list Tweet) (saved_count skipped_count : nat)
    (s : State) : nat * nat * State :=
  match tweets with
  | [] => (saved_count, skipped_count, s)
  | tweet :: rest =>
      let (success, s1) :=
        save_tweet (tweet_id tweet) (content tweet) (author tweet) (url tweet) s in
      if success
      then save_all rest (saved_count + 1) skipped_count s1
      else save_all rest saved_count (skipped_count + 1) s1
  end.

(** The browser session of one run: [launch_fails] is [true] when
    [setup_browser] raises, [timeline] the page it opens otherwise. *)
Record Browser : Type := mkBrowser {
  launch_fails : bool;
  timeline : Page
}.

(** [scrape_and_save]: an exception of the scrape phase is raised again
    once the [finally] block has closed the session.  [None] when the fuel
    of the collection loop did not suffice. *)
Definition scrape_and_save (max_tweets : Z) (b : Browser) (s : State)
  : option (Py.result RunResult * State) :=
  if launch_fails b then Some (Py.raise Py.BrowserError, s)
  else
    match collect_tweets max_tweets (timeline b) with
    | None => None
    | Some st =>
        let tweets := tweets_data st in
        let '(saved_count, skipped_count, s') := save_all tweets 0 0 s in
        Some (Py.ret {| total_collected := length tweets;
                        saved := saved_count;
                        skipped_duplicates := skipped_count;
                        tweets := tweets |}, s')
    end.

End Scraper.

(** ** Python floats *)

Module Float.

Import PrimFloat SpecFloat FloatOps.

(** A Python [float] is an IEEE 754 binary64 number: a [spec_float] read
    with a precision of 53 bits and infinities at exponent 1024.  The
    operations round to nearest, ties to even. *)
Definition float : Type := spec_float.

Definition zero : float := S754_zero false.

Definition mul : float → float → float := SFmul prec emax.

Definition add : float → float → float := SFadd prec emax.

Definition sub : float → float → float := SFsub prec emax.

(** [x <= y] and [x < y]; both are false when an operand is NaN. *)
Definition leb : float → float → bool := SFleb.

Definition ltb : float → float → bool := SFltb.

(** [spec_float] has more inhabitants than there are binary64 numbers: a
    finite one must have its mantissa and exponent in canonical form. *)
Definition valid (x : float) : bool := valid_binary prec emax x.

(** The float nearest to an integer, an infinity beyond the largest. *)
Definition of_Z (z : Z) : float := binary_normalize prec emax z 0 false.

(** [float(z)] for an [int]; [None] stands for its [OverflowError]. *)
Definition of_int (z : Z) : option float :=
  match of_Z z with
  | S754_infinity _ => None
  | x => Some x
  end.

(** [z * x] for an [int] and a [float]: the [int] is converted first. *)
Definition int_mul (z : Z) (x : float) : option float :=
  b ← of_int z; Some (mul b x).

(** [a / b] on two [int]s, [b] positive, raises [OverflowError] when the
    quotient rounds beyond the largest float, [2^1024 - 2^971]. *)
Definition true_divide_overflows (a b : Z) : bool :=
  bool_decide (b * (2 ^ 1024 - 2 ^ 970) ≤ Z.abs a)%Z.

(** The literals of the program. *)
#[warnings="-inexact-float"]
Definition lit_0_8 : float := Eval vm_compute in Prim2SF 0.8%float.

#[warnings="-inexact-float"]
Definition lit_1_2 : float := Eval vm_compute in Prim2SF 1.2%float.

Definition one : float := Eval vm_compute in Prim2SF 1%float.

Definition half : float := Eval vm_compute in Prim2SF 0.5%float.

(** The largest float below one. *)
Definition below_one : float :=
  Eval vm_compute in Prim2SF 0x1.fffffffffffffp-1%float.

(** What [random.random()] returns: a float at least 0 and below 1. *)
Definition unit_interval (u : float) : bool :=
  valid u && leb zero u && ltb u one.

(** [random.uniform(a, b)] is [a + (b - a) * self.random()]; [u] is the
    number [random()] returns. *)
Definition uniform (a b u : float) : float := add a (mul (sub b a) u).

(** [time.sleep(secs)] converts [secs] to nanoseconds in a signed 64-bit
    integer.  It raises [ValueError] for a NaN or a negative length and
    [OverflowError] for a length that does not fit. *)
Definition nanoseconds : float := Eval vm_compute in Prim2SF 1e9%float.

Definition two_63 : float := Eval vm_compute in Prim2SF 0x1p63%float.

Definition sleep_accepts (secs : float) : bool :=
  leb zero secs && ltb (mul secs nanoseconds) two_63.

End Float.

(** ** The scheduler: [src/scheduler.py] *)

Module Scheduler.

Import Float.

(** The fields of [ScraperScheduler]. *)
Record ScraperScheduler : Type := mkScheduler {
  base_interval : Z;
  max_tweets : Z;
  run_count : nat
}.

(** [__init__] *)
Definition init (base_interval_minutes max_tweets : Z) : ScraperScheduler :=
  {| base_interval := base_interval_minutes * 60;
     max_tweets := max_tweets;
     run_count := 0 |}.

(** The ends [min_interval] and [max_interval] that [get_random_interval]
    computes; [None] stands for the [OverflowError] of a base interval too
    large for a [float]. *)
Definition min_interval (s : ScraperScheduler) : option float :=
  int_mul (base_interval s) lit_0_8.

Definition max_interval (s : ScraperScheduler) : option float :=
  int_mul (base_interval s) lit_1_2.

(** [get_random_interval]; [u] is the number [random.random()] returns
    inside [random.uniform]. *)
Definition get_random_interval (s : ScraperScheduler) (u : float) : option float :=
  lo ← min_interval s;
  hi ← max_interval s;
  Some (uniform lo hi u).

(** What a run does once [run_once] has counted it: the scraper is created
    and the run orchestrator called.  The orchestrator returns a result;
    or the constructor, the orchestrator or [get_stats] raises an
    [Exception]; or the run is cut by Ctrl+C. *)
Inductive RunEvent : Type :=
| Returns (r : Scraper.RunResult)
| Raises (e : Py.exn)
| KeyboardInterrupt.

(** The time the scheduler lives in.  [random k] is the number
    [random.random()] returns after run [k] and [now k] the timestamp of
    [datetime.now().replace(microsecond=0)] then, a whole number of
    seconds.  [earliest] and [latest] are the calendar of the platform:
    [datetime.fromtimestamp] accepts the timestamps from [earliest], the
    first second of year 1 in local time, up to [latest], the first second
    of year 10000, the latter excluded. *)
Record Clock : Type := mkClock {
  random : nat → float;
  now : nat → Z;
  earliest : Z;
  latest : Z
}.

(** The surroundings of the scheduler: [orchestrator k] is what run number
    [k] does, [sleep_interrupted k] whether Ctrl+C arrives during the sleep
    that follows it, [clock] the time. *)
Record World : Type := mkWorld {
  orchestrator : nat → RunEvent;
  sleep_interrupted : nat → bool;
  clock : Clock
}.

(** [run_once]: [None] when a [KeyboardInterrupt] passes through its
    [except Exception]. *)
Definition run_once (w : World) (s : ScraperScheduler)
  : option bool * ScraperScheduler * RunEvent :=
  let s1 := {| base_interval := base_interval s;
               max_tweets := max_tweets s;
               run_count := run_count s + 1 |} in
  let ev := orchestrator w (run_count s1) in
  match ev with
  | Returns _ => (Some true, s1, ev)
  | Raises _ => (Some false, s1, ev)
  | KeyboardInterrupt => (None, s1, ev)
  end.

(** The truth value of [max_runs]: [None] and [0] are false. *)
Definition truthy (max_runs : option Z) : bool :=
  match max_runs with
  | None => false
  | Some n => negb (n =? 0)%Z
  end.

(** [max_runs and self.run_count >= max_runs] *)
Definition max_runs_reached (max_runs : option Z) (s : ScraperScheduler) : bool :=
  truthy max_runs &&
  match max_runs with
  | Some n => bool_decide (n ≤ Z.of_nat (run_count s))%Z
  | None => false
  end.

(** [datetime.fromtimestamp(t)] returns a date. *)
Definition fromtimestamp_accepts (c : Clock) (t : float) : bool :=
  leb (of_Z (earliest c)) t && ltb t (of_Z (latest c)).

(** The places of [start] outside [run_once] that can raise: the line that
    logs the base interval in minutes, [get_random_interval],
    [datetime.fromtimestamp] and [time.sleep]. *)
Inductive Site : Type := Banner | Interval | NextRun | Sleep.

(** How the rest of a pass ends. *)
Inductive Pause : Type :=
| Slept
| Cut
| Raise (site : Site).

(** The rest of a pass after run [k]: the interval is drawn, the time of
    the next run computed from it, and the scheduler sleeps. *)
Definition pause (w : World) (s : ScraperScheduler) (k : nat) : Pause :=
  match get_random_interval s (random (clock w) k) with
  | None => Raise Interval
  | Some interval =>
      if negb (fromtimestamp_accepts (clock w)
                 (add (of_Z (now (clock w) k)) interval))
      then Raise NextRun
      else if negb (sleep_accepts interval) then Raise Sleep
      else if sleep_interrupted w k then Cut
      else Slept
  end.

(** How [start] stands: it left the loop through [break], it was stopped by
    Ctrl+C, it is still looping when the fuel of the model ends, or an
    exception left it: [start] catches [KeyboardInterrupt] only. *)
Inductive Status : Type :=
| Stopped
| Interrupted
| Running
| Raised (site : Site).

Record Trace : Type := mkTrace {
  scheduler : ScraperScheduler;
  invocations : list RunEvent;
  status : Status
}.

(** The [while True] loop of [start]; [fuel] bounds the passes observed. *)
Fixpoint start_loop (fuel : nat) (max_runs : option Z) (w : World)
    (s : ScraperScheduler) (seen : list RunEvent) : Trace :=
  if max_runs_reached max_runs s then
    {| scheduler := s; invocations := seen; status := Stopped |}
  else
    match fuel with
    | O => {| scheduler := s; invocations := seen; status := Running |}
    | S fuel' =>
        let '(success, s1, ev) := run_once w s in
        match success with
        | None =>
            {| scheduler := s1; invocations := seen ++ [ev]; status := Interrupted |}
        | Some _ =>
            match pause w s1 (run_count s1) with
            | Slept => start_loop fuel' max_runs w s1 (seen ++ [ev])
            | Cut =>
                {| scheduler := s1; invocations := seen ++ [ev];
                   status := Interrupted |}
            | Raise site =>
                {| scheduler := s1; invocations := seen ++ [ev];
                   status := Raised site |}
            end
        end
    end.

(** [start]: the lines logged before the loop divide the base interval by
    60, then the loop runs. *)
Definition start (fuel : nat) (max_runs : option Z) (w : World)
    (s : ScraperScheduler) : Trace :=
  if true_divide_overflows (base_interval s) 60 then
    {| scheduler := s; invocations := []; status := Raised Banner |}
  else start_loop fuel max_runs w s [].

(** A world without Ctrl+C, from what each run returns or raises. *)
Definition uninterrupted (results : nat → Py.result Scraper.RunResult)
    (c : Clock) : World :=
  {| orchestrator := λ k,
       match results k with
       | inr r => Returns r
       | inl e => Raises e
       end;
     sleep_interrupted := λ _, false;
     clock := c |}.

End Scheduler.

(** ** The wording of the specification, and sample inputs *)

Module Spec.

(** The author as the specification words it: the path segment immediately
    preceding [/status/]. *)
Definition segment_before_status (url : string) : string :=
  Py.last_piece (Py.split "/" (Py.first_piece (Py.split "/status/" url))).

End Spec.

Module Sample.

Import Scraper.

Definition alice_url : string := "https://x.com/alice/status/12345?foo=bar".

Definition web_url : string := "https://x.com/i/web/status/12345".

Definition legacy_url : string := "https://twitter.com/bob/status/77".

Definition mobile_url : string := "https://mobile.twitter.com/carol/status/9".

Definition profile_url : string := "https://x.com/alice/likes".

(** The numbers [random.random()] returns, in turn: a half, zero, and the
    largest float below one. *)
Definition random_numbers (k : nat) : Float.float :=
  match k mod 3 with
  | 0 => Float.half
  | 1 => Float.zero
  | _ => Float.below_one
  end.

(** A clock in the time zone UTC, started on 2025-11-04 at 00:00:00, in
    which run [k] ends ten minutes after the run before it.  The calendar
    goes from 0001-01-01 00:00:00 to 10000-01-01 00:00:00. *)
Definition utc_clock : Scheduler.Clock :=
  {| Scheduler.random := random_numbers;
     Scheduler.now := λ k, (1762214400 + 600 * Z.of_nat k)%Z;
     Scheduler.earliest := (-62135596800)%Z;
     Scheduler.latest := 253402300800%Z |}.

(** A scheduler world without Ctrl+C in which every run raises. *)
Definition failing_runs : Scheduler.World :=
  Scheduler.uninterrupted (λ _, inl Py.BrowserError) utc_clock.

(** A scheduler created with the defaults of the command line. *)
Definition default_scheduler : Scheduler.ScraperScheduler :=
  Scheduler.init 10 10.

(** A store that answers every request. *)
Definition healthy : nat → Call → option string := λ _ _, None.

(** A store whose [select] always fails. *)
Definition select_down : nat → Call → option string :=
  λ _ c, match c with
         | Select _ => Some "connection refused"
         | Insert _ => None
         end.

(** A store whose [insert] always times out. *)
Definition insert_down : nat → Call → option string :=
  λ _ c, match c with
         | Select _ => None
         | Insert _ => Some "read timeout"
         end.

Definition alice : Tweet :=
  {| tweet_id := "12345"; content := "hello"; author := Some "alice";
     url := alice_url |}.

Definition bob : Tweet :=
  {| tweet_id := "77"; content := "again"; author := Some "bob";
     url := legacy_url |}.

Definition scraper_on (rs : list Row) (f : nat → Call → option string) : State :=
  {| supabase := {| rows := rs; calls := []; faults := f |}; logged := [] |}.

(** The scraper on a table that holds [alice] and cannot be queried, and
    on an empty table that cannot be written. *)
Definition unchecked : State := scraper_on [row_of alice] select_down.

Definition unwritable : State := scraper_on [] insert_down.

(** A browser whose launch succeeds and that opens on page [p]. *)
Definition browser_on (p : Page) : Browser :=
  {| launch_fails := false; timeline := p |}.

(** The scraper on an empty table, and on a table that holds [alice]. *)
Definition fresh : State := scraper_on [] healthy.

Definition stored : State := scraper_on [row_of alice] healthy.

(** [save_tweet] on the fields of a collected tweet, as [scrape_and_save]
    calls it. *)
Definition save (t : Tweet) (s : State) : bool * State :=
  save_tweet (tweet_id t) (content t) (author t) (url t) s.

(** A page that never shows an article. *)
Definition empty_page : Page :=
  {| rendered := λ _, [];
     draws := λ _, {| scroll_pattern := medium; scroll_entropy := 0;
                      scrolls_back := false; back_entropy := 0 |} |}.

Definition article (href text : string) : Element :=
  {| tweet_link := Some href; inner_text := inr text |}.

(** A page whose articles come back after each scroll, one new at a time. *)
Definition recycling_page : Page :=
  {| rendered := λ k,
       match k with
       | 0 => [article "/alice/status/1" "one"; article "/bob/status/2" "two";
               article "/alice/status/1" "one"]
       | 1 => [article "/bob/status/2" "two"; article "/carol/status/3" "three"]
       | _ => [article "/carol/status/3" "three"]
       end;
     draws := λ k, {| scroll_pattern := small; scroll_entropy := k;
                      scrolls_back := Nat.even k; back_entropy := k |} |}.

End Sample.

(** ** Invariant of the collection loop *)

(** What holds of the variables of the [while] loop of [collect_tweets]
    whenever its condition is tested. *)
Record loop_inv (max_tweets : Z) (st : Scraper.Loop) : Prop := mk_loop_inv {
  inv_distinct :
    NoDup (Scraper.tweet_id <$> Scraper.tweets_data st);
  inv_processed :
    ∀ t, t ∈ Scraper.tweets_data st →
         Scraper.tweet_id t ∈ Scraper.processed_tweet_ids st;
  inv_count :
    (Z.of_nat (length (Scraper.tweets_data st)) ≤ Z.max 0 max_tweets)%Z;
  inv_cycles :
    Scraper.scroll_cycles st = Scraper.scroll_attempts st;
  inv_attempts :
    (Scraper.scroll_attempts st ≤ Scraper.max_scroll_attempts)%nat
}.

(** The pre-check of [save_tweet] misses [id]: the [select] failed, or no
    row has it. *)
Definition precheck_misses (id : string) (s : Scraper.State) : Prop :=
  fst (Scraper.is_duplicate id s) = false.

(** ** Properties of the Python primitives *)

Section PyFacts.

Import Py.

Lemma split_from_not_nil sep skip s : split_from sep skip s ≠ [].
Proof.
  revert skip. induction s as [|c s IH]; intros skip; cbn [split_from]; [done|].
  destruct skip as [|k]; [|apply IH].
  destruct (String.prefix sep (String c s)); [done|].
  destruct (split_from sep 0 s); done.
Qed.

Lemma prefix_app sub b : String.prefix sub (sub +:+ b) = true.
Proof.
  induction sub as [|a sub IH]; simpl; [by destruct b|].
  destruct (Ascii.ascii_dec a a); [apply IH|done].
Qed.

Lemma contains_unfold sub s :
  contains sub s =
  String.prefix sub s ||
  match s with
  | EmptyString => false
  | String _ s' => contains sub s'
  end.
Proof. by destruct s. Qed.

Lemma contains_app a sub b : contains sub (a +:+ sub +:+ b) = true.
Proof.
  induction a as [|c a IH].
  - change ("" +:+ sub +:+ b) with (sub +:+ b).
    by rewrite contains_unfold, prefix_app.
  - change (String c a +:+ sub +:+ b) with (String c (a +:+ sub +:+ b)).
    rewrite contains_unfold, IH. apply orb_true_r.
Qed.

(** A piece without the separator character is cut off whole. *)
Lemma split_char_app (c : Ascii.ascii) a b :
  contains (String c "") a = false →
  split (String c "") (a +:+ String c b) = a :: split (String c "") b.
Proof.
  unfold split. induction a as [|x a IH]; simpl; intros Hno.
  - destruct (Ascii.ascii_dec c c); [|done]. by destruct b.
  - destruct (Ascii.ascii_dec c x) as [->|Hne].
    + by destruct a.
    + simpl in Hno. rewrite IH; done.
Qed.

Lemma index_first (x : string) (pre rest : list string) :
  x ∉ pre → index x (pre ++ x :: rest)%list = ret (length pre).
Proof.
  unfold index. induction pre as [|y pre IH]; intros Hx; simpl.
  - by rewrite decide_True.
  - rewrite decide_False by set_solver.
    simpl. destruct (list_find _ (pre ++ x :: rest)) as [[i z]|] eqn:E;
      simpl in *.
    + rewrite not_elem_of_cons in Hx. destruct Hx as [_ Hx].
      specialize (IH Hx). injection IH as ->. done.
    + rewrite not_elem_of_cons in Hx. destruct Hx as [_ Hx].
      specialize (IH Hx). done.
Qed.

Lemma index_absent x l : x ∉ l → index x l = raise ValueError.
Proof.
  unfold index. intros Hx.
  destruct (list_find _ l) as [[i z]|] eqn:E; [|done].
  apply list_find_Some in E as (Hl & -> & _).
  exfalso. apply Hx. by eapply list_elem_of_lookup_2.
Qed.

Example split_on_slash :
  split "/" "https://x.com/alice/status/12345?foo=bar"
  = ["https:"; ""; "x.com"; "alice"; "status"; "12345?foo=bar"].
Proof. reflexivity. Qed.

Example split_on_marker :
  split "/status/" "a/status/b/status//status/" = ["a"; "b"; ""; ""]
  ∧ split "aa" "aaa" = [""; "a"]
  ∧ split "?" "12345" = ["12345"].
Proof. repeat split. Qed.

Example lower_on_letters :
  lower "Duplicate KEY value [23505]" = "duplicate key value [23505]".
Proof. reflexivity. Qed.

End PyFacts.

(** ** Extraction of the identifier and of the author *)

Section ExtractionFacts.

Import Py Scraper.

Lemma author_after_host (url host : string) (pre : list string) a rest :
  contains "/status/" url = true →
  split "/" url = (pre ++ host :: a :: rest)%list →
  host ∉ pre →
  host = "x.com" ∨ (host = "twitter.com" ∧ "x.com" ∉ split "/" url) →
  extract_author_from_url url = Some a.
Proof.
  intros Hst Hparts Hpre Hhost.
  unfold extract_author_from_url, author_of_url. rewrite Hst. cbv zeta.
  assert (Hidx : (if bool_decide ("x.com" ∈ split "/" url)
                  then index "x.com" (split "/" url)
                  else index "twitter.com" (split "/" url))
                 = ret (length pre)).
  { destruct Hhost as [->|[-> Hno]].
    - rewrite bool_decide_eq_true_2 by (rewrite Hparts; set_solver).
      rewrite Hparts. by apply index_first.
    - rewrite bool_decide_eq_false_2 by done.
      rewrite Hparts. by apply index_first. }
  rewrite Hidx. simpl. unfold getitem.
  rewrite Hparts, lookup_app_r by lia.
  replace (length pre + 1 - length pre) with 1 by lia. done.
Qed.

Lemma author_without_host url :
  "x.com" ∉ split "/" url → "twitter.com" ∉ split "/" url →
  extract_author_from_url url = None.
Proof.
  intros Hx Ht. unfold extract_author_from_url, author_of_url.
  destruct (contains "/status/" url); [|done]. cbv zeta.
  rewrite bool_decide_eq_false_2 by done.
  by rewrite index_absent.
Qed.

(** Where an absolute URL is cut at its first four slashes. *)
Lemma split_canonical host handle tail :
  contains "/" host = false → contains "/" handle = false →
  split "/" ("https://" +:+ host +:+ "/" +:+ handle +:+ "/" +:+ tail)
  = "https:" :: "" :: host :: handle :: split "/" tail.
Proof.
  intros Hh Hu.
  change ("https://" +:+ host +:+ "/" +:+ handle +:+ "/" +:+ tail)
    with ("https:" +:+ String "/"%char ("" +:+ String "/"%char
            (host +:+ String "/"%char (handle +:+ String "/"%char tail)))).
  by rewrite !split_char_app.
Qed.

Lemma author_canonical handle tail :
  contains "/" handle = false →
  extract_author_from_url ("https://x.com/" +:+ handle +:+ "/status/" +:+ tail)
  = Some handle.
Proof.
  intros Hu.
  apply (author_after_host _ "x.com" ["https:"; ""] handle
           (split "/" ("status/" +:+ tail))); [| | |by left].
  - change ("https://x.com/" +:+ handle +:+ "/status/" +:+ tail)
      with (("https://x.com/" +:+ handle) +:+ "/status/" +:+ tail).
    apply contains_app.
  - change ("https://x.com/" +:+ handle +:+ "/status/" +:+ tail)
      with ("https://" +:+ "x.com" +:+ "/" +:+ handle +:+ "/" +:+ "status/" +:+ tail).
    by apply split_canonical.
  - intros Hin. by repeat (apply elem_of_cons in Hin as [?|Hin]; [done|]);
      apply elem_of_nil in Hin.
Qed.

Lemma absolute_url_no_status href :
  contains "/status/" href = false →
  contains "/status/" (absolute_url href) = false.
Proof.
  intros Hno. unfold absolute_url.
  destruct (startswith "http" href); [done|].
  simpl. exact Hno.
Qed.

(** C7: the identifier of [https://x.com/alice/status/12345?foo=bar] is
    [12345] and its author [alice], as the two extraction functions compute
    them and as the loop records them; an address without [/status/] gives
    no identifier and no author, and the element that carries it leaves the
    state of the loop as it was. *)
Theorem extraction_examples :
  extract_tweet_id_from_url "https://x.com/alice/status/12345?foo=bar" = Some "12345"
  ∧ extract_author_from_url "https://x.com/alice/status/12345?foo=bar" = Some "alice"
  ∧ (∀ text,
       tweets_data (process_element start_of_loop
         {| tweet_link := Some "https://x.com/alice/status/12345?foo=bar";
            inner_text := inr text |})
       = [ {| tweet_id := "12345"; content := text; author := Some "alice";
              url := "https://x.com/alice/status/12345?foo=bar" |} ])
  ∧ (∀ url, contains "/status/" url = false →
       extract_tweet_id_from_url url = None
       ∧ extract_author_from_url url = None
       ∧ ∀ st el, tweet_link el = Some url → process_element st el = st).
Proof.
  split; [reflexivity|]. split; [reflexivity|]. split; [reflexivity|].
  intros url Hno. split; [|split].
  - unfold extract_tweet_id_from_url. by rewrite Hno.
  - unfold extract_author_from_url, author_of_url. by rewrite Hno.
  - intros st el Hlink. unfold process_element. rewrite Hlink.
    unfold extract_tweet_id_from_url.
    by rewrite (absolute_url_no_status _ Hno).
Qed.

Lemma extraction_examples_witness :
  contains "/status/" Sample.profile_url = false
  ∧ extract_tweet_id_from_url Sample.profile_url = None
  ∧ extract_author_from_url Sample.profile_url = None
  ∧ process_element start_of_loop
      {| tweet_link := Some Sample.profile_url; inner_text := inr "likes" |}
    = start_of_loop.
Proof.
  pose proof (proj2 (proj2 (proj2 extraction_examples))
                Sample.profile_url eq_refl) as (Hid & Hauthor & Hstep).
  split; [reflexivity|]. split; [exact Hid|]. split; [exact Hauthor|].
  apply Hstep. reflexivity.
Defined.

(** C5, as the code has it: the author of an address that contains
    [/status/] is the piece that follows the first piece [x.com] of the
    address cut at its slashes, or, when no piece is [x.com], the piece
    that follows the first piece [twitter.com]; on
    [https://x.com/<handle>/status/...] that is the handle.  When no piece
    is one of the two host names the author is [None], and the loop still
    records the tweet with its identifier and its text. *)
Theorem author_follows_host :
  (∀ (url : string) (pre : list string) a rest,
     contains "/status/" url = true →
     split "/" url = (pre ++ "x.com" :: a :: rest)%list → "x.com" ∉ pre →
     extract_author_from_url url = Some a)
  ∧ (∀ (url : string) (pre : list string) a rest,
     contains "/status/" url = true →
     "x.com" ∉ split "/" url →
     split "/" url = (pre ++ "twitter.com" :: a :: rest)%list →
     "twitter.com" ∉ pre →
     extract_author_from_url url = Some a)
  ∧ (∀ handle tail,
     contains "/" handle = false →
     extract_author_from_url
       ("https://x.com/" +:+ handle +:+ "/status/" +:+ tail) = Some handle)
  ∧ (∀ url,
     "x.com" ∉ split "/" url → "twitter.com" ∉ split "/" url →
     extract_author_from_url url = None)
  ∧ (∀ st el href text id,
     tweet_link el = Some href → inner_text el = inr text →
     extract_tweet_id_from_url (absolute_url href) = Some id →
     id ≠ "" → id ∉ processed_tweet_ids st →
     "x.com" ∉ split "/" (absolute_url href) →
     "twitter.com" ∉ split "/" (absolute_url href) →
     tweets_data (process_element st el)
     = (tweets_data st ++
         [ {| tweet_id := id; content := text; author := None;
              url := absolute_url href |} ])%list).
Proof.
  split; [|split; [|split; [|split]]].
  - intros url pre a rest Hst Hparts Hpre.
    eapply author_after_host; eauto.
  - intros url pre a rest Hst Hx Hparts Hpre.
    eapply author_after_host; eauto.
  - apply author_canonical.
  - apply author_without_host.
  - intros st el href text id Hlink Htext Hid Hne Hnew Hx Ht.
    unfold process_element. rewrite Hlink, Hid, Htext.
    destruct id as [|c id]; [done|]. cbn [falsy default].
    rewrite bool_decide_eq_false_2 by done.
    by rewrite author_without_host.
Qed.

Lemma author_follows_host_witness :
  extract_author_from_url Sample.legacy_url = Some "bob"
  ∧ extract_author_from_url Sample.mobile_url = None
  ∧ tweets_data (process_element start_of_loop
      {| tweet_link := Some Sample.mobile_url; inner_text := inr "hello" |})
    = [ {| tweet_id := "9"; content := "hello"; author := None;
           url := Sample.mobile_url |} ].
Proof.
  destruct author_follows_host as (_ & Hlegacy & _ & Hnone & Hstep).
  split; [|split].
  - apply (Hlegacy Sample.legacy_url ["https:"; ""] "bob" ["status"; "77"]).
    + reflexivity.
    + apply (bool_decide_unpack _). vm_compute. exact I.
    + reflexivity.
    + apply (bool_decide_unpack _). vm_compute. exact I.
  - apply Hnone; apply (bool_decide_unpack _); vm_compute; exact I.
  - apply (Hstep start_of_loop _ Sample.mobile_url "hello" "9").
    + reflexivity.
    + reflexivity.
    + reflexivity.
    + discriminate.
    + apply not_elem_of_empty.
    + apply (bool_decide_unpack _). vm_compute. exact I.
    + apply (bool_decide_unpack _). vm_compute. exact I.
Defined.

(** C5 as the specification words it fails: on
    [https://x.com/i/web/status/12345] the piece before [/status/] is
    [web], and the author the code returns is [i]. *)
Lemma author_is_not_segment_before_status :
  contains "/status/" Sample.web_url = true
  ∧ Spec.segment_before_status Sample.web_url = "web"
  ∧ extract_author_from_url Sample.web_url = Some "i"
  ∧ extract_author_from_url Sample.web_url
    ≠ Some (Spec.segment_before_status Sample.web_url).
Proof. repeat split; try reflexivity. discriminate. Qed.

End ExtractionFacts.

(** ** The collection loop *)

Section CollectionFacts.

Import Scraper.

Variable max_tweets : Z.
Variable page : Page.

Lemma wants_more_lt st :
  wants_more max_tweets st = true →
  (Z.of_nat (length (tweets_data st)) < max_tweets)%Z.
Proof. unfold wants_more. apply bool_decide_eq_true_1. Qed.

Lemma process_element_attempts st el :
  scroll_attempts (process_element st el) = scroll_attempts st
  ∧ actions (process_element st el) = actions st.
Proof.
  unfold process_element.
  destruct (tweet_link el); [|done].
  destruct (falsy _); [done|].
  destruct (bool_decide _); [done|].
  by destruct (inner_text el).
Qed.

Lemma process_element_inv st el :
  loop_inv max_tweets st → wants_more max_tweets st = true →
  loop_inv max_tweets (process_element st el).
Proof.
  intros [Hdis Hproc Hcount Hcyc Hatt] Hmore%wants_more_lt.
  unfold process_element.
  destruct (tweet_link el) as [href|]; [|done].
  destruct (falsy _); [done|].
  set (id := default "" _).
  destruct (bool_decide (id ∈ processed_tweet_ids st)) eqn:Hseen; [done|].
  apply bool_decide_eq_false_1 in Hseen.
  destruct (inner_text el) as [e|text].
  - split; simpl; try done. intros t Ht. apply elem_of_union_r. by apply Hproc.
  - split; simpl; try done.
    + rewrite fmap_app. apply NoDup_app. split; [done|]. split.
      * intros x Hx Hx'. simpl in Hx'. apply list_elem_of_singleton in Hx'.
        apply list_elem_of_fmap in Hx as (t & Heq & Ht). apply Hseen.
        rewrite <- Hx', Heq. by apply Hproc.
      * apply NoDup_singleton.
    + intros t [Ht| ->%list_elem_of_singleton]%elem_of_app.
      * apply elem_of_union_r. by apply Hproc.
      * apply elem_of_union_l. by apply elem_of_singleton.
    + rewrite length_app. simpl. lia.
Qed.

Lemma for_elements_attempts st els :
  scroll_attempts (for_elements max_tweets st els) = scroll_attempts st
  ∧ actions (for_elements max_tweets st els) = actions st.
Proof.
  revert st. induction els as [|el els IH]; intros st; simpl; [done|].
  destruct (wants_more max_tweets st); [|done].
  destruct (IH (process_element st el)) as [-> ->].
  apply process_element_attempts.
Qed.

Lemma for_elements_inv st els :
  loop_inv max_tweets st → loop_inv max_tweets (for_elements max_tweets st els).
Proof.
  revert st. induction els as [|el els IH]; intros st Hinv; simpl; [done|].
  destruct (wants_more max_tweets st) eqn:Hmore; [|done].
  by apply IH, process_element_inv.
Qed.

Lemma scroll_inv d st :
  loop_inv max_tweets st → scroll_attempts st < max_scroll_attempts →
  loop_inv max_tweets (scroll d st).
Proof.
  intros [Hdis Hproc Hcount Hcyc Hatt] Hlt. split; simpl; try done.
  - unfold scroll_cycles in *. simpl.
    rewrite List.filter_app, length_app, Hcyc. simpl.
    by destruct (scrolls_back d).
  - lia.
Qed.

Lemma while_collecting_exit fuel st :
  keeps_collecting max_tweets st = false →
  while_collecting fuel max_tweets page st = Some st.
Proof. intros Hexit. destruct fuel; simpl; by rewrite Hexit. Qed.

(** With fuel for the scroll attempts that are left the loop ends, in a
    state where its condition is false and the invariant holds. *)
Lemma while_collecting_ends fuel st :
  loop_inv max_tweets st →
  (max_scroll_attempts - scroll_attempts st ≤ fuel)%nat →
  ∃ st', while_collecting fuel max_tweets page st = Some st'
         ∧ loop_inv max_tweets st'
         ∧ keeps_collecting max_tweets st' = false.
Proof.
  revert st. induction fuel as [|fuel IH]; intros st Hinv Hfuel.
  - exists st. assert (Hexit : keeps_collecting max_tweets st = false).
    { unfold keeps_collecting. rewrite (bool_decide_eq_false_2 _) by lia.
      apply andb_false_r. }
    by rewrite while_collecting_exit.
  - destruct (keeps_collecting max_tweets st) eqn:Hkeep.
    2:{ exists st. by rewrite while_collecting_exit. }
    cbn [while_collecting]. rewrite Hkeep. unfold keeps_collecting in Hkeep.
    apply andb_true_iff in Hkeep as [_ Hlt%bool_decide_eq_true_1].
    set (st1 := for_elements max_tweets st (rendered page (scroll_attempts st))).
    assert (Hinv1 : loop_inv max_tweets st1) by by apply for_elements_inv.
    assert (Hatt1 : scroll_attempts st1 = scroll_attempts st)
      by apply for_elements_attempts.
    destruct (wants_more max_tweets st1) eqn:Hmore.
    + apply IH.
      * apply scroll_inv; [done|lia].
      * simpl. lia.
    + exists st1. split; [|split; [done|]].
      * apply while_collecting_exit. unfold keeps_collecting. by rewrite Hmore.
      * unfold keeps_collecting. by rewrite Hmore.
Qed.

Lemma start_of_loop_inv : loop_inv max_tweets start_of_loop.
Proof.
  split; simpl; try done.
  - apply NoDup_nil_2.
  - intros t Ht. by apply elem_of_nil in Ht.
  - lia.
  - unfold max_scroll_attempts. lia.
Qed.

Lemma collect_tweets_ends :
  ∃ st, collect_tweets max_tweets page = Some st
        ∧ loop_inv max_tweets st
        ∧ keeps_collecting max_tweets st = false.
Proof.
  apply while_collecting_ends; [apply start_of_loop_inv|apply Nat.le_sub_l].
Qed.

End CollectionFacts.

Section CollectionClaims.

Import Scraper.

(** C2, as the code has it: for every [max_tweets] and every page the loop
    ends, without raising, in a state where one of its two bounds is hit;
    it returns at most [max_tweets] records when [max_tweets] is not
    negative (none otherwise) and makes at most [max_scroll_attempts]
    scroll cycles.  [max_tweets] is an argument with default 10;
    [max_scroll_attempts] is the constant 20 of the function body. *)
Theorem collect_tweets_bounded (max_tweets : Z) (page : Page) :
  ∃ st, collect_tweets max_tweets page = Some st
        ∧ (Z.of_nat (length (tweets_data st)) ≤ Z.max 0 max_tweets)%Z
        ∧ scroll_cycles st = scroll_attempts st
        ∧ (scroll_cycles st ≤ max_scroll_attempts)%nat
        ∧ keeps_collecting max_tweets st = false
        ∧ max_scroll_attempts = 20%nat
        ∧ default_max_tweets = 10%Z.
Proof.
  destruct (collect_tweets_ends max_tweets page) as (st & Hrun & Hinv & Hexit).
  exists st. destruct Hinv as [_ _ Hcount Hcyc Hatt].
  repeat split; try done. by rewrite Hcyc.
Qed.

(** C2 as the specification words it fails twice.  With [max_tweets = -1]
    the loop returns no record, which is more than [max_tweets]; and the
    ceiling on scroll cycles is no input: on a page without articles the
    loop makes 20 scroll cycles, whatever ceiling a caller has in mind. *)
Lemma collect_tweets_not_configured :
  (∃ st, collect_tweets (-1) Sample.empty_page = Some st
         ∧ ¬ (Z.of_nat (length (tweets_data st)) ≤ -1)%Z)
  ∧ (∃ st, collect_tweets default_max_tweets Sample.empty_page = Some st
           ∧ tweets_data st = []
           ∧ scroll_cycles st = 20%nat).
Proof.
  split.
  - exists start_of_loop. split; [reflexivity|]. simpl. lia.
  - eexists. split; [vm_compute; reflexivity|]. split; reflexivity.
Qed.

(** C3: the identifiers of the records [collect_tweets] returns are
    pairwise distinct, whatever the page shows on each scroll cycle. *)
Theorem collect_tweets_distinct_ids (max_tweets : Z) (page : Page) :
  ∃ st, collect_tweets max_tweets page = Some st
        ∧ NoDup (tweet_id <$> tweets_data st).
Proof.
  destruct (collect_tweets_ends max_tweets page) as (st & Hrun & Hinv & _).
  exists st. split; [done|]. apply Hinv.
Qed.

(** The loop on a page that shows the same articles again after a scroll. *)
Example collect_recycling_page :
  (tweets_data <$> collect_tweets 10 Sample.recycling_page)
  = Some [ {| tweet_id := "1"; content := "one"; author := Some "alice";
              url := "https://x.com/alice/status/1" |};
           {| tweet_id := "2"; content := "two"; author := Some "bob";
              url := "https://x.com/bob/status/2" |};
           {| tweet_id := "3"; content := "three"; author := Some "carol";
              url := "https://x.com/carol/status/3" |} ]
  ∧ (tweets_data <$> collect_tweets 2 Sample.recycling_page)
  = Some [ {| tweet_id := "1"; content := "one"; author := Some "alice";
              url := "https://x.com/alice/status/1" |};
           {| tweet_id := "2"; content := "two"; author := Some "bob";
              url := "https://x.com/bob/status/2" |} ]
  ∧ (scroll_attempts <$> collect_tweets 2 Sample.recycling_page) = Some 0%nat
  ∧ (scroll_attempts <$> collect_tweets 10 Sample.recycling_page) = Some 20%nat.
Proof. repeat split; vm_compute; reflexivity. Qed.

End CollectionClaims.

(** ** The gateway to the store *)

Section GatewayFacts.

Import Scraper.

Lemma select_finds (id : string) (rs : list Row) :
  (0 < length (filter (λ r, row_tweet_id r = id) rs))%nat
  ↔ id ∈ row_tweet_id <$> rs.
Proof.
  induction rs as [|r rs IH]; simpl.
  - split; [lia|]. intros Hin. by apply elem_of_nil in Hin.
  - rewrite filter_cons, elem_of_cons. destruct (decide (row_tweet_id r = id)) as [Heq|Hne].
    + simpl. split; [by left|lia].
    + rewrite IH. split; [by right|]. intros [Heq|Hin]; [by subst|done].
Qed.

Lemma is_duplicate_answered id s :
  faults (supabase s) (length (calls (supabase s))) (Select id) = None →
  is_duplicate id s
  = (bool_decide (id ∈ ids (supabase s)),
     {| supabase := received (Select id) (supabase s) (rows (supabase s));
        logged := logged s |}).
Proof.
  intros Hok. unfold is_duplicate, select_eq. rewrite Hok. f_equal.
  apply bool_decide_ext, select_finds.
Qed.

Lemma is_duplicate_failed id s msg :
  faults (supabase s) (length (calls (supabase s))) (Select id) = Some msg →
  is_duplicate id s
  = (false,
     log ERROR (ErrorCheckingDuplicate id msg)
       (received (Select id) (supabase s) (rows (supabase s))) s).
Proof. intros Hdown. unfold is_duplicate, select_eq. by rewrite Hdown. Qed.

(** Whatever the store answers, [is_duplicate] sends one [select] and
    leaves the rows and the schedule of failures as they were. *)
Lemma is_duplicate_store id s :
  supabase (snd (is_duplicate id s))
  = received (Select id) (supabase s) (rows (supabase s)).
Proof.
  destruct (faults (supabase s) (length (calls (supabase s))) (Select id))
    as [msg|] eqn:E.
  - by rewrite (is_duplicate_failed _ _ msg).
  - by rewrite is_duplicate_answered.
Qed.

Lemma precheck_misses_iff id s :
  precheck_misses id s ↔
  faults (supabase s) (length (calls (supabase s))) (Select id) ≠ None
  ∨ id ∉ ids (supabase s).
Proof.
  unfold precheck_misses.
  destruct (faults (supabase s) (length (calls (supabase s))) (Select id))
    as [msg|] eqn:E.
  - rewrite (is_duplicate_failed _ _ msg) by done. simpl. split; [by left|done].
  - rewrite is_duplicate_answered by done. simpl.
    rewrite bool_decide_eq_false. split; [by right|]. by intros [?|?].
Qed.

(** [save_tweet] once the pre-check missed: the outcome of the [insert]. *)
Lemma save_tweet_after_miss id content author url s :
  precheck_misses id s →
  let data := {| row_tweet_id := id; row_content := content;
                 row_author := author; row_tweet_url := url |} in
  let s1 := snd (is_duplicate id s) in
  save_tweet id content author url s
  = match insert data (supabase s1) with
    | (inr _, db) => (true, log INFO (SavedNewTweet id) db s1)
    | (inl e, db) =>
        if names_constraint (str e)
        then (false, log WARNING (AlreadyExists id) db s1)
        else (false, log ERROR (ErrorSaving id (str e)) db s1)
    end.
Proof.
  unfold precheck_misses, save_tweet. intros Hmiss.
  destruct (is_duplicate id s) as [dup s1]. simpl in *. by subst dup.
Qed.

Lemma save_tweet_after_hit id content author url s :
  faults (supabase s) (length (calls (supabase s))) (Select id) = None →
  id ∈ ids (supabase s) →
  save_tweet id content author url s
  = (false,
     {| supabase := received (Select id) (supabase s) (rows (supabase s));
        logged := logged s ++ [(INFO, SkippingDuplicate id)] |}).
Proof.
  intros Hok Hin. unfold save_tweet.
  rewrite is_duplicate_answered by done.
  by rewrite bool_decide_eq_true_2.
Qed.

Lemma insert_rows data db :
  rows (snd (insert data db)) = rows db
  ∨ (fst (insert data db) = inr tt
     ∧ (row_tweet_id data ∉ ids db)
     ∧ rows (snd (insert data db)) = (rows db ++ [data])%list).
Proof.
  unfold insert. destruct (faults db _ _); [by left|].
  destruct (bool_decide (row_tweet_id data ∈ ids db)) eqn:E; [by left|].
  right. by apply bool_decide_eq_false_1 in E.
Qed.

Lemma insert_calls data db :
  calls (snd (insert data db)) = (calls db ++ [Insert data])%list
  ∧ faults (snd (insert data db)) = faults db.
Proof.
  unfold insert. destruct (faults db _ _); [done|].
  by destruct (bool_decide _).
Qed.

(** An [insert] of an identifier the table holds fails. *)
Lemma insert_present data db :
  row_tweet_id data ∈ ids db →
  ∃ e, fst (insert data db) = inl e ∧ rows (snd (insert data db)) = rows db.
Proof.
  intros Hin. unfold insert. destruct (faults db _ _); [by eexists|].
  rewrite bool_decide_eq_true_2 by done. by eexists.
Qed.

(** A failed [insert] leaves the rows as they were. *)
Lemma insert_failed data db e :
  fst (insert data db) = inl e → rows (snd (insert data db)) = rows db.
Proof.
  intros Hfail. destruct (insert_rows data db) as [?|(Hok & _)]; [done|].
  congruence.
Qed.

(** The first save of an identifier the store answers for and does not hold. *)
Lemma save_tweet_fresh id content author url s :
  let db := supabase s in
  let data := {| row_tweet_id := id; row_content := content;
                 row_author := author; row_tweet_url := url |} in
  faults db (length (calls db)) (Select id) = None →
  faults db (length (calls db) + 1) (Insert data) = None →
  id ∉ ids db →
  save_tweet id content author url s
  = (true,
     {| supabase := {| rows := rows db ++ [data];
                       calls := (calls db ++ [Select id]) ++ [Insert data];
                       faults := faults db |};
        logged := logged s ++ [(INFO, SavedNewTweet id)] |}).
Proof.
  intros db data Hsel Hins Hnew. unfold save_tweet.
  rewrite is_duplicate_answered by done.
  rewrite bool_decide_eq_false_2 by done.
  unfold insert, received. cbn [supabase calls faults rows ids].
  rewrite length_app. cbn [length]. fold db. fold data. rewrite Hins.
  by rewrite bool_decide_eq_false_2.
Qed.

Lemma count_id_absent id db : id ∉ ids db → count_id id db = 0%nat.
Proof.
  intros Hnew. unfold count_id.
  destruct (length _) eqn:E; [done|].
  exfalso. apply Hnew, select_finds. lia.
Qed.

(** What one [save_tweet] sends to the store. *)
Lemma save_tweet_store id content author url s :
  let data := {| row_tweet_id := id; row_content := content;
                 row_author := author; row_tweet_url := url |} in
  let s' := snd (save_tweet id content author url s) in
  faults (supabase s') = faults (supabase s)
  ∧ calls (supabase s')
    = (calls (supabase s) ++
        if fst (is_duplicate id s) then [Select id]
        else [Select id; Insert data])%list.
Proof.
  intros data s'. subst s'. unfold save_tweet.
  pose proof (is_duplicate_store id s) as Hdb.
  destruct (is_duplicate id s) as [dup s1]. simpl in Hdb. simpl.
  destruct dup; simpl; [by rewrite Hdb|].
  pose proof (insert_calls data (supabase s1)) as [Hcalls Hfaults].
  fold data.
  destruct (insert data (supabase s1)) as [[e|[]] db]; simpl in *.
  - destruct (names_constraint (str e)); simpl;
      rewrite Hcalls, Hfaults, Hdb; simpl; by rewrite <- app_assoc.
  - rewrite Hcalls, Hfaults, Hdb; simpl; by rewrite <- app_assoc.
Qed.

Lemma save_all_tally tweets a b s :
  let '(a', b', _) := save_all tweets a b s in
  (a' + b' = a + b + length tweets)%nat.
Proof.
  revert a b s. induction tweets as [|t tweets IH]; intros a b s; simpl; [lia|].
  destruct (save_tweet _ _ _ _ s) as [[] s1].
  - specialize (IH (a + 1)%nat b s1).
    destruct (save_all tweets (a + 1) b s1) as [[a' b'] s']. lia.
  - specialize (IH a (b + 1)%nat s1).
    destruct (save_all tweets a (b + 1) s1) as [[a' b'] s']. lia.
Qed.

End GatewayFacts.

Section GatewayClaims.

Import Scraper.

(** C1, as the code has it: on a store that answers its requests and does
    not hold [id] yet, saving the same record twice returns [True] then
    [False], sends one row to the table, and leaves exactly one row with
    that [id]; and on any store that already holds [id], a save returns
    [False] and leaves the rows as they were, sending no [insert] at all
    when the pre-check is answered. *)
Theorem save_tweet_idempotent (id content : string) (author : option string)
    (url : string) (s : State) :
  let data := {| row_tweet_id := id; row_content := content;
                 row_author := author; row_tweet_url := url |} in
  let once := save_tweet id content author url s in
  let twice := save_tweet id content author url (snd once) in
  ((∀ k c, faults (supabase s) k c = None) → id ∉ ids (supabase s) →
     fst once = true ∧ fst twice = false
     ∧ rows (supabase (snd twice)) = (rows (supabase s) ++ [data])%list
     ∧ count_id id (supabase (snd twice)) = 1%nat
     ∧ inserts_of (calls (supabase (snd twice)))
       = (inserts_of (calls (supabase s)) ++ [data])%list)
  ∧ (id ∈ ids (supabase s) →
     fst once = false
     ∧ rows (supabase (snd once)) = rows (supabase s)
     ∧ (faults (supabase s) (length (calls (supabase s))) (Select id) = None →
        calls (supabase (snd once))
        = (calls (supabase s) ++ [Select id])%list)).
Proof.
  intros data once twice. split.
  - intros Hok Hnew. subst once twice.
    rewrite (save_tweet_fresh id content author url s) by auto.
    cbn [fst snd]. rewrite save_tweet_after_hit.
    + cbn [fst snd supabase rows calls]. fold data.
      split; [done|]. split; [done|]. split; [done|]. split.
      * unfold count_id. simpl. rewrite filter_app, length_app.
        fold (count_id id (supabase s)). rewrite count_id_absent by done.
        rewrite filter_cons, decide_True by done. done.
      * unfold inserts_of, received. cbn [calls].
        rewrite !omap_app. simpl. by rewrite !app_nil_r.
    + apply Hok.
    + unfold ids. cbn [supabase rows]. rewrite fmap_app. set_solver.
  - intros Hin. subst once.
    destruct (faults (supabase s) (length (calls (supabase s))) (Select id))
      as [msg|] eqn:Hsel.
    + assert (Hmiss : precheck_misses id s)
        by (apply precheck_misses_iff; left; congruence).
      rewrite (save_tweet_after_miss id content author url s Hmiss).
      cbv zeta. fold data. rewrite is_duplicate_store.
      set (db1 := received (Select id) (supabase s) (rows (supabase s))).
      destruct (insert_present data db1 Hin) as (e & Hfail & Hrows).
      destruct (insert data db1) as [r db]. simpl in Hfail, Hrows. subst r.
      destruct (names_constraint (str e)); simpl; repeat split; done.
    + rewrite save_tweet_after_hit by done. simpl. repeat split; done.
Qed.

Lemma save_tweet_idempotent_witness :
  fst (Sample.save Sample.alice Sample.fresh) = true
  ∧ fst (Sample.save Sample.alice (snd (Sample.save Sample.alice Sample.fresh)))
    = false
  ∧ count_id "12345"
      (supabase (snd (Sample.save Sample.alice
                        (snd (Sample.save Sample.alice Sample.fresh)))))
    = 1%nat
  ∧ fst (Sample.save Sample.alice Sample.stored) = false
  ∧ rows (supabase (snd (Sample.save Sample.alice Sample.stored)))
    = rows (supabase Sample.stored).
Proof.
  pose proof (save_tweet_idempotent "12345" "hello" (Some "alice")
                Sample.alice_url Sample.fresh) as [Hfresh _].
  pose proof (save_tweet_idempotent "12345" "hello" (Some "alice")
                Sample.alice_url Sample.stored) as [_ Hstored].
  destruct Hfresh as (H1 & H2 & _ & H3 & _).
  { intros k c. reflexivity. }
  { apply not_elem_of_nil. }
  destruct Hstored as (H4 & H5 & _).
  { apply (bool_decide_unpack _). vm_compute. exact I. }
  repeat split; assumption.
Defined.

(** C1 as the specification words it fails on a table that already holds
    the identifier: both saves are skipped, so none of the two is a
    [Saved]. *)
Lemma save_tweet_twice_on_stored_id :
  fst (Sample.save Sample.alice Sample.stored) = false
  ∧ fst (Sample.save Sample.alice (snd (Sample.save Sample.alice Sample.stored)))
    = false
  ∧ count_id "12345" (supabase Sample.stored) = 1%nat.
Proof. repeat split; vm_compute; reflexivity. Qed.

(** C4, as the code has it: [save_tweet] returns a Boolean and raises
    nothing.  When the pre-check finds [id] it returns [False] without
    sending an [insert], and logs the skip at level INFO.  When the
    pre-check misses and the [insert] raises an error whose text names the
    constraint (as the text of a uniqueness violation does), it returns
    [False] and logs at level WARNING.  When the [insert] raises any other
    error it returns the same [False] and logs at level ERROR.  In the last
    two cases the rows are left as they were. *)
Theorem save_tweet_outcomes (id content : string) (author : option string)
    (url : string) (s : State) :
  let db := supabase s in
  let data := {| row_tweet_id := id; row_content := content;
                 row_author := author; row_tweet_url := url |} in
  let checked := received (Select id) db (rows db) in
  let missed :=
    faults db (length (calls db)) (Select id) ≠ None ∨ id ∉ ids db in
  let result := save_tweet id content author url s in
  (faults db (length (calls db)) (Select id) = None → id ∈ ids db →
     result = (false,
               {| supabase := checked;
                  logged := logged s ++ [(INFO, SkippingDuplicate id)] |}))
  ∧ (∀ e, missed → fst (insert data checked) = inl e →
       names_constraint (str e) = true →
       fst result = false
       ∧ rows (supabase (snd result)) = rows db
       ∧ last (logged (snd result)) = Some (WARNING, AlreadyExists id))
  ∧ (∀ e, missed → fst (insert data checked) = inl e →
       names_constraint (str e) = false →
       fst result = false
       ∧ rows (supabase (snd result)) = rows db
       ∧ last (logged (snd result)) = Some (ERROR, ErrorSaving id (str e)))
  ∧ (id ∈ ids db → faults db (length (calls db) + 1) (Insert data) = None →
       fst (insert data checked) = inl (Py.StoreError unique_violation))
  ∧ names_constraint unique_violation = true.
Proof.
  intros db data checked missed result.
  split; [|split; [|split; [|split]]].
  - intros Hok Hin. by apply save_tweet_after_hit.
  - intros e Hmiss%precheck_misses_iff Hfail Hname. subst result.
    rewrite (save_tweet_after_miss id content author url s Hmiss).
    cbv zeta. fold data. rewrite is_duplicate_store. fold db. fold checked.
    pose proof (insert_failed data checked e Hfail) as Hrows.
    destruct (insert data checked) as [r db']. simpl in Hfail, Hrows. subst r.
    rewrite Hname. simpl. split; [done|]. split; [done|]. by rewrite last_snoc.
  - intros e Hmiss%precheck_misses_iff Hfail Hname. subst result.
    rewrite (save_tweet_after_miss id content author url s Hmiss).
    cbv zeta. fold data. rewrite is_duplicate_store. fold db. fold checked.
    pose proof (insert_failed data checked e Hfail) as Hrows.
    destruct (insert data checked) as [r db']. simpl in Hfail, Hrows. subst r.
    rewrite Hname. simpl. split; [done|]. split; [done|]. by rewrite last_snoc.
  - intros Hin Hins. unfold insert, checked, received. cbn [calls faults].
    rewrite length_app. cbn [length]. fold data. rewrite Hins.
    by rewrite bool_decide_eq_true_2.
  - reflexivity.
Qed.

Lemma save_tweet_outcomes_witness :
  Sample.save Sample.alice Sample.stored
  = (false,
     {| supabase := received (Select "12345") (supabase Sample.stored)
                      (rows (supabase Sample.stored));
        logged := [(INFO, SkippingDuplicate "12345")] |})
  ∧ (fst (Sample.save Sample.alice Sample.unchecked) = false
     ∧ rows (supabase (snd (Sample.save Sample.alice Sample.unchecked)))
       = rows (supabase Sample.unchecked)
     ∧ last (logged (snd (Sample.save Sample.alice Sample.unchecked)))
       = Some (WARNING, AlreadyExists "12345"))
  ∧ (fst (Sample.save Sample.alice Sample.unwritable) = false
     ∧ rows (supabase (snd (Sample.save Sample.alice Sample.unwritable)))
       = rows (supabase Sample.unwritable)
     ∧ last (logged (snd (Sample.save Sample.alice Sample.unwritable)))
       = Some (ERROR, ErrorSaving "12345" "read timeout")).
Proof.
  pose proof (save_tweet_outcomes "12345" "hello" (Some "alice")
                Sample.alice_url Sample.stored) as (Hhit & _).
  pose proof (save_tweet_outcomes "12345" "hello" (Some "alice")
                Sample.alice_url Sample.unchecked) as (_ & Hwarn & _).
  pose proof (save_tweet_outcomes "12345" "hello" (Some "alice")
                Sample.alice_url Sample.unwritable) as (_ & _ & Herr & _).
  split; [|split].
  - apply Hhit; [reflexivity|].
    apply (bool_decide_unpack _). vm_compute. exact I.
  - apply (Hwarn (Py.StoreError unique_violation)).
    + left. discriminate.
    + reflexivity.
    + reflexivity.
  - apply (Herr (Py.StoreError "read timeout")).
    + right. apply not_elem_of_nil.
    + reflexivity.
    + reflexivity.
Defined.

(** C4 as the specification words it fails: a write that times out
    returns the value a skipped duplicate returns, and the run counts it
    with the skipped duplicates. *)
Lemma failed_write_returns_as_duplicate :
  names_constraint "read timeout" = false
  ∧ fst (Sample.save Sample.alice Sample.unwritable) = false
  ∧ fst (Sample.save Sample.alice Sample.unwritable)
    = fst (Sample.save Sample.alice Sample.stored)
  ∧ rows (supabase (snd (Sample.save Sample.alice Sample.unwritable))) = []
  ∧ fst (save_all [Sample.alice] 0 0 Sample.unwritable) = (0%nat, 1%nat).
Proof. repeat split; vm_compute; reflexivity. Qed.

Lemma save_all_unchecked tweets a b s :
  (∀ k id, faults (supabase s) k (Select id) ≠ None) →
  inserts_of (calls (supabase (snd (save_all tweets a b s))))
  = (inserts_of (calls (supabase s)) ++ (row_of <$> tweets))%list.
Proof.
  revert a b s. induction tweets as [|t tweets IH]; intros a b s Hdown; simpl.
  - by rewrite app_nil_r.
  - pose proof (save_tweet_store (tweet_id t) (content t) (author t) (url t) s)
      as [Hfaults Hcalls].
    cbv zeta in Hfaults, Hcalls.
    assert (Hmiss : fst (is_duplicate (tweet_id t) s) = false).
    { apply precheck_misses_iff. left. apply Hdown. }
    rewrite Hmiss in Hcalls.
    destruct (save_tweet _ _ _ _ s) as [ok s1]. simpl in Hfaults, Hcalls.
    assert (Hdown1 : ∀ k id, faults (supabase s1) k (Select id) ≠ None)
      by (intros k id; rewrite Hfaults; apply Hdown).
    assert (Hsent : inserts_of (calls (supabase s1))
                    = (inserts_of (calls (supabase s)) ++ [row_of t])%list).
    { rewrite Hcalls. unfold inserts_of. by rewrite omap_app. }
    destruct ok; rewrite IH, Hsent by done; by rewrite <- app_assoc.
Qed.

(** C8: when the [select] of the pre-check fails, [is_duplicate] returns
    [False] and raises nothing; so on a store whose pre-checks all fail,
    the saving loop, and the run around it, send one [insert] for every
    collected tweet, in order. *)
Theorem unreachable_check_still_inserts :
  (∀ id s msg,
     faults (supabase s) (length (calls (supabase s))) (Select id) = Some msg →
     fst (is_duplicate id s) = false
     ∧ rows (supabase (snd (is_duplicate id s))) = rows (supabase s))
  ∧ (∀ tweets a b s,
     (∀ k id, faults (supabase s) k (Select id) ≠ None) →
     inserts_of (calls (supabase (snd (save_all tweets a b s))))
     = (inserts_of (calls (supabase s)) ++ (row_of <$> tweets))%list)
  ∧ (∀ max_tweets b s r s',
     (∀ k id, faults (supabase s) k (Select id) ≠ None) →
     scrape_and_save max_tweets b s = Some (inr r, s') →
     inserts_of (calls (supabase s'))
     = (inserts_of (calls (supabase s)) ++ (row_of <$> tweets r))%list).
Proof.
  split; [|split].
  - intros id s msg Hdown. by rewrite (is_duplicate_failed _ _ msg).
  - apply save_all_unchecked.
  - intros max_tweets b s r s' Hdown. unfold scrape_and_save.
    destruct (launch_fails b); [done|].
    destruct (collect_tweets max_tweets (timeline b)) as [st|]; [|done].
    pose proof (save_all_unchecked (tweets_data st) 0 0 s Hdown) as Hsent.
    destruct (save_all (tweets_data st) 0 0 s) as [[a' b'] s1].
    intros [= <- <-]. exact Hsent.
Qed.

Lemma unreachable_check_still_inserts_witness :
  fst (is_duplicate "12345" Sample.unchecked) = false
  ∧ inserts_of (calls (supabase
      (snd (save_all [Sample.alice; Sample.bob] 0 0 Sample.unchecked))))
    = [row_of Sample.alice; row_of Sample.bob]
  ∧ match scrape_and_save 2 (Sample.browser_on Sample.recycling_page)
            Sample.unchecked with
    | Some (inr r, s') =>
        length (tweets r) = 2%nat
        ∧ inserts_of (calls (supabase s')) = row_of <$> tweets r
    | _ => False
    end.
Proof.
  destruct unreachable_check_still_inserts as (Hcheck & Hloop & Hrun).
  split; [|split].
  - apply (Hcheck "12345" Sample.unchecked "connection refused"). reflexivity.
  - apply (Hloop [Sample.alice; Sample.bob] 0%nat 0%nat Sample.unchecked).
    intros k id. discriminate.
  - destruct (scrape_and_save 2 (Sample.browser_on Sample.recycling_page)
                Sample.unchecked) as [[[e|r] s']|] eqn:E.
    + vm_compute in E. discriminate.
    + split.
      * vm_compute in E. injection E as <- _. reflexivity.
      * apply (Hrun 2%Z (Sample.browser_on Sample.recycling_page)
                 Sample.unchecked r s'); [|exact E].
        intros k id. discriminate.
    + vm_compute in E. discriminate.
Defined.

Lemma save_tweet_failed_write id content author url s e :
  faults (supabase s) (length (calls (supabase s))) (Select id) ≠ None
  ∨ id ∉ ids (supabase s) →
  fst (insert {| row_tweet_id := id; row_content := content;
                 row_author := author; row_tweet_url := url |}
         (received (Select id) (supabase s) (rows (supabase s)))) = inl e →
  fst (save_tweet id content author url s) = false.
Proof.
  intros Hmiss%precheck_misses_iff Hfail.
  rewrite (save_tweet_after_miss id content author url s Hmiss).
  cbv zeta. rewrite is_duplicate_store.
  destruct (insert _ _) as [r db']. simpl in Hfail. subst r.
  by destruct (names_constraint (str e)).
Qed.

(** C10: a run whose browser launches completes, and the result of every
    completed run has [total_collected = saved + skipped_duplicates], with
    [total_collected] the number of tweets it lists; a tweet whose write
    fails for a reason that is no duplicate adds one to
    [skipped_duplicates]. *)
Theorem run_result_tally :
  (∀ max_tweets b s,
     launch_fails b = false →
     ∃ r s', scrape_and_save max_tweets b s = Some (inr r, s'))
  ∧ (∀ max_tweets b s r s',
     scrape_and_save max_tweets b s = Some (inr r, s') →
     total_collected r = (saved r + skipped_duplicates r)%nat
     ∧ total_collected r = length (tweets r))
  ∧ (∀ t s e saved_count skipped_count,
     faults (supabase s) (length (calls (supabase s))) (Select (tweet_id t)) ≠ None
     ∨ tweet_id t ∉ ids (supabase s) →
     fst (insert (row_of t)
            (received (Select (tweet_id t)) (supabase s) (rows (supabase s))))
     = inl e →
     names_constraint (str e) = false →
     fst (save_all [t] saved_count skipped_count s)
     = (saved_count, (skipped_count + 1)%nat)).
Proof.
  split; [|split].
  - intros max_tweets b s Hlaunch. unfold scrape_and_save. rewrite Hlaunch.
    destruct (collect_tweets_ends max_tweets (timeline b)) as (st & -> & _).
    destruct (save_all (tweets_data st) 0 0 s) as [[a' b'] s1]. by eexists _, _.
  - intros max_tweets b s r s'. unfold scrape_and_save.
    destruct (launch_fails b); [done|].
    destruct (collect_tweets max_tweets (timeline b)) as [st|]; [|done].
    pose proof (save_all_tally (tweets_data st) 0 0 s) as Htally.
    destruct (save_all (tweets_data st) 0 0 s) as [[a' b'] s1].
    intros [= <- <-]. simpl. split; [lia|done].
  - intros t s e saved_count skipped_count Hmiss Hfail _.
    pose proof (save_tweet_failed_write _ _ _ _ _ _ Hmiss Hfail) as Hfalse.
    simpl. destruct (save_tweet _ _ _ _ s) as [ok s1]. simpl in Hfalse.
    by subst ok.
Qed.

Lemma run_result_tally_witness :
  match scrape_and_save 10 (Sample.browser_on Sample.recycling_page)
          Sample.stored with
  | Some (inr r, _) =>
      total_collected r = 3%nat ∧ saved r = 3%nat ∧ skipped_duplicates r = 0%nat
      ∧ total_collected r = (saved r + skipped_duplicates r)%nat
  | _ => False
  end
  ∧ fst (save_all [Sample.alice] 4 2 Sample.unwritable) = (4%nat, 3%nat).
Proof.
  destruct run_result_tally as (_ & Htally & Hfailed).
  split.
  - destruct (scrape_and_save 10 (Sample.browser_on Sample.recycling_page)
                Sample.stored) as [[[e|r] s']|] eqn:E.
    + vm_compute in E. discriminate.
    + destruct (Htally _ _ _ _ _ E) as [Hsum _].
      vm_compute in E. injection E as <- _.
      split; [reflexivity|]. split; [reflexivity|]. split; [reflexivity|].
      exact Hsum.
    + vm_compute in E. discriminate.
  - apply (Hfailed Sample.alice Sample.unwritable (Py.StoreError "read timeout")).
    + right. apply not_elem_of_nil.
    + reflexivity.
    + reflexivity.
Defined.

End GatewayClaims.

(** ** Rounding of floats *)

Section FloatFacts.

Import SpecFloat FloatOps.

Open Scope Z_scope.

Lemma fexp_eq e : fexp prec emax e = Z.max (e - 53) (-1074).
Proof. reflexivity. Qed.

(** ** Digits *)

Lemma digits2_pos_bounds (m : positive) :
  2 ^ (Zpos (digits2_pos m) - 1) ≤ Zpos m < 2 ^ Zpos (digits2_pos m).
Proof.
  induction m as [m IH|m IH|]; cbn [digits2_pos]; [| |simpl; lia].
  - rewrite Pos2Z.inj_succ. change (Zpos m~1) with (2 * Zpos m + 1).
    replace (Z.succ (Zpos (digits2_pos m)) - 1)
      with (Z.succ (Zpos (digits2_pos m) - 1)) by lia.
    rewrite !Z.pow_succ_r by lia. lia.
  - rewrite Pos2Z.inj_succ. change (Zpos m~0) with (2 * Zpos m).
    replace (Z.succ (Zpos (digits2_pos m)) - 1)
      with (Z.succ (Zpos (digits2_pos m) - 1)) by lia.
    rewrite !Z.pow_succ_r by lia. lia.
Qed.

Lemma digits2_pos_unique (m : positive) (d : Z) :
  2 ^ (d - 1) ≤ Zpos m < 2 ^ d → Zpos (digits2_pos m) = d.
Proof.
  intros [Hlo Hhi]. pose proof (digits2_pos_bounds m) as [Hlo' Hhi'].
  assert (0 < d). { destruct (Z_lt_le_dec 0 d); [done|]. 
    assert (2 ^ d ≤ 2 ^ 0) by (apply Z.pow_le_mono_r; lia). simpl in *. lia. }
  destruct (Z_lt_le_dec (Zpos (digits2_pos m)) d) as [Hlt|Hge].
  - assert (2 ^ Zpos (digits2_pos m) ≤ 2 ^ (d - 1)) by (apply Z.pow_le_mono_r; lia). lia.
  - destruct (Z_lt_le_dec d (Zpos (digits2_pos m))) as [Hlt|Hle]; [|lia].
    assert (2 ^ d ≤ 2 ^ (Zpos (digits2_pos m) - 1)) by (apply Z.pow_le_mono_r; lia). lia.
Qed.

(** ** Shifting right *)

Lemma iter_pos_nat {A} (f : A → A) (p : positive) (x : A) :
  iter_pos f p x = Nat.iter (Pos.to_nat p) f x.
Proof.
  revert x. induction p as [p IH|p IH|]; intros x; cbn [iter_pos].
  - rewrite !IH, Pos2Nat.inj_xI.
    replace (S (2 * Pos.to_nat p))%nat with (Pos.to_nat p + S (Pos.to_nat p))%nat by lia.
    rewrite Nat.iter_add. f_equal. by rewrite Nat.iter_succ_r.
  - rewrite !IH, Pos2Nat.inj_xO.
    replace (2 * Pos.to_nat p)%nat with (Pos.to_nat p + Pos.to_nat p)%nat by lia.
    by rewrite Nat.iter_add.
  - reflexivity.
Qed.

Lemma shr_1_nonneg (m : Z) (r s : bool) :
  0 ≤ m →
  shr_1 {| shr_m := m; shr_r := r; shr_s := s |}
  = {| shr_m := m / 2; shr_r := Z.odd m; shr_s := r || s |}.
Proof.
  intros Hm. destruct m as [|[p|p|]|]; [done| | |done|lia]; cbn [shr_1].
  - assert (H : Zpos p~1 / 2 = Zpos p)
      by (symmetry; apply (Z.div_unique _ _ _ 1); lia).
    by rewrite H.
  - assert (H : Zpos p~0 / 2 = Zpos p)
      by (symmetry; apply (Z.div_unique _ _ _ 0); lia).
    by rewrite H.
Qed.

(** After [k] shifts the mantissa is the quotient by [2^k], and the two
    flags are clear exactly when nothing was shifted out. *)
Lemma shr_iter (m : Z) (k : nat) :
  0 ≤ m →
  ∃ r s, Nat.iter k shr_1 {| shr_m := m; shr_r := false; shr_s := false |}
         = {| shr_m := m / 2 ^ Z.of_nat k; shr_r := r; shr_s := s |}
         ∧ (r || s = false ↔ m mod 2 ^ Z.of_nat k = 0).
Proof.
  intros Hm. induction k as [|k (r & s & Heq & Hflags)].
  - exists false, false. simpl. rewrite Z.div_1_r, Z.mod_1_r. done.
  - rewrite Nat.iter_succ, Heq.
    assert (Hpow : 0 < 2 ^ Z.of_nat k) by (apply Z.pow_pos_nonneg; lia).
    rewrite shr_1_nonneg by (apply Z.div_pos; lia).
    eexists _, _. split.
    + f_equal. rewrite Nat2Z.inj_succ, Z.pow_succ_r by lia.
      rewrite (Z.mul_comm 2), Z.div_div by lia. done.
    + rewrite Nat2Z.inj_succ, Z.pow_succ_r by lia.
      rewrite (Z.mul_comm 2), Z.rem_mul_r by lia.
      pose proof (Z.mod_pos_bound m (2 ^ Z.of_nat k) Hpow).
      rewrite orb_false_iff, Hflags, <- Z.negb_even, negb_false_iff, Zmod_even.
      destruct (Z.even (m / 2 ^ Z.of_nat k)); split; try lia.
Qed.


Lemma shr_nonpos mrs e n : n ≤ 0 → shr mrs e n = (mrs, e).
Proof. destruct n; [done|lia|done]. Qed.

Lemma shr_spec (m e n : Z) :
  0 ≤ m → 0 ≤ n →
  ∃ r s, shr {| shr_m := m; shr_r := false; shr_s := false |} e n
         = ({| shr_m := m / 2 ^ n; shr_r := r; shr_s := s |}, e + n)
         ∧ (r || s = false ↔ m mod 2 ^ n = 0).
Proof.
  intros Hm Hn. destruct n as [|p|p]; [| |lia].
  - exists false, false. simpl. rewrite Z.div_1_r, Z.mod_1_r, Z.add_0_r. done.
  - destruct (shr_iter m (Pos.to_nat p) Hm) as (r & s & Heq & Hflags).
    rewrite positive_nat_Z in Heq, Hflags.
    exists r, s. split; [|done]. cbn [shr]. by rewrite iter_pos_nat, Heq.
Qed.

Lemma round_nearest_even_cases (q : Z) (r s : bool) :
  let q' := round_nearest_even q
              (loc_of_shr_record {| shr_m := q; shr_r := r; shr_s := s |}) in
  q ≤ q' ≤ q + 1 ∧ (r || s = false → q' = q).
Proof.
  destruct r, s; simpl; try destruct (Z.even q); split; (lia || done).
Qed.

(** What [binary_round_aux] returns for an exact positive mantissa that
    needs no shift to the left: with [q] the mantissa cut at the exponent
    of the format, the result has mantissa [q] or [q + 1] there. *)
Lemma binary_round_aux_spec (sx : bool) (m : positive) (e : Z) :
  let e' := fexp prec emax (Zpos (digits2_pos m) + e) in
  let q := Zpos m / 2 ^ (e' - e) in
  e ≤ e' →
  ∃ q', q ≤ q' ≤ q + 1
    ∧ (Zpos m mod 2 ^ (e' - e) = 0 → q' = q)
    ∧ q < 2 ^ 53
    ∧ (e' = -1074 ∨ 2 ^ 52 ≤ q)
    ∧ binary_round_aux prec emax sx (Zpos m) e loc_Exact
      = if q' =? 0 then S754_zero sx
        else if q' =? 2 ^ 53 then
          if e' + 1 <=? 971 then S754_finite sx (2 ^ 52)%positive (e' + 1)
          else S754_infinity sx
        else if e' <=? 971 then S754_finite sx (Z.to_pos q') e'
        else S754_infinity sx.
Proof.
  intros e' q He.
  pose proof (digits2_pos_bounds m) as [Hlo Hhi].
  set (d := Zpos (digits2_pos m)) in *.
  assert (He' : e' = Z.max (d + e - 53) (-1074)) by reflexivity.
  set (n := e' - e) in *.
  assert (Hn : 0 ≤ n) by lia.
  assert (Hpn : 0 < 2 ^ n) by (apply Z.pow_pos_nonneg; lia).
  assert (Hq0 : 0 ≤ q) by (apply Z.div_pos; lia).
  assert (Hq53 : q < 2 ^ 53).
  { apply Z.div_lt_upper_bound; [done|]. rewrite <- Z.pow_add_r by lia.
    eapply Z.lt_le_trans; [exact Hhi|]. apply Z.pow_le_mono_r; lia. }
  assert (Hq52 : e' = -1074 ∨ 2 ^ 52 ≤ q).
  { destruct (Z.eq_dec e' (-1074)) as [|Hne]; [by left|right].
    apply Z.div_le_lower_bound; [done|]. rewrite <- Z.pow_add_r by lia.
    eapply Z.le_trans; [|exact Hlo]. apply Z.pow_le_mono_r; lia. }
  destruct (shr_spec (Zpos m) e n) as (r & s & Hshr & Hflags); [lia|done|].
  destruct (round_nearest_even_cases q r s) as [Hq' Hexact].
  set (q' := round_nearest_even q _) in *.
  exists q'. split; [done|]. split; [by rewrite <- Hflags|].
  split; [done|]. split; [done|].
  unfold binary_round_aux, shr_fexp.
  change (shr_record_of_loc (Zpos m) loc_Exact)
    with {| shr_m := Zpos m; shr_r := false; shr_s := false |}.
  change (Zdigits2 (Zpos m)) with d.
  change (fexp prec emax (d + e) - e) with n.
  rewrite Hshr. cbn [shr_m]. fold q. fold q'.
  replace (e + n) with e' by lia.
  destruct (Z.eqb_spec q' 0) as [Hz|Hnz].
  - rewrite Hz. rewrite shr_nonpos by (simpl; rewrite fexp_eq; lia). done.
  - destruct (Z.eqb_spec q' (2 ^ 53)) as [Hc|Hnc].
    + rewrite Hc.
      change (Zdigits2 (2 ^ 53)) with 54.
      replace (fexp prec emax (54 + e') - e') with 1 by (rewrite fexp_eq; lia).
      simpl. done.
    + destruct q' as [|p|p] eqn:Hp; [done| |lia].
      pose proof (digits2_pos_bounds p) as [Hplo Hphi].
      assert (Zpos (digits2_pos p) ≤ 53).
      { destruct (Z_lt_le_dec 53 (Zpos (digits2_pos p))) as [Hgt|]; [|done].
        assert (2 ^ 53 ≤ 2 ^ (Zpos (digits2_pos p) - 1))
          by (apply Z.pow_le_mono_r; lia). lia. }
      rewrite shr_nonpos by (simpl; rewrite fexp_eq; lia). done.
Qed.


(** ** Values *)

(** The value of a float, scaled by [2^2200] so that it is an integer. *)
Definition pow2 (e : Z) : Z := 2 ^ (e + 2200).

Arguments pow2 : simpl never.

Definition value (x : spec_float) : Z :=
  match x with
  | S754_finite _ m e => Zpos m * pow2 e
  | _ => 0
  end.

(** The floats the interval is computed from: zero and the positive
    finite numbers in canonical form. *)
Definition regular (x : spec_float) : Prop :=
  match x with
  | S754_zero _ => True
  | S754_finite false m e => bounded prec emax m e = true
  | _ => False
  end.

Lemma pow2_pos e : -2200 ≤ e → 0 < pow2 e.
Proof. intros. apply Z.pow_pos_nonneg; lia. Qed.

Lemma pow2_add e n : -2200 ≤ e → 0 ≤ n → pow2 (e + n) = pow2 e * 2 ^ n.
Proof.
  intros. unfold pow2. rewrite <- Z.pow_add_r by lia. f_equal. lia.
Qed.

Lemma pow2_shift e e' : -2200 ≤ e ≤ e' → pow2 e' = pow2 e * 2 ^ (e' - e).
Proof.
  intros. rewrite <- pow2_add by lia. f_equal. lia.
Qed.

Lemma bounded_spec m e :
  bounded prec emax m e = true
  ↔ Z.max (Zpos (digits2_pos m) + e - 53) (-1074) = e ∧ e ≤ 971.
Proof.
  unfold bounded, canonical_mantissa.
  rewrite andb_true_iff, Z.eqb_eq, Z.leb_le, fexp_eq. done.
Qed.

Lemma bounded_facts m e :
  bounded prec emax m e = true →
  -1074 ≤ e ≤ 971 ∧ Zpos m < 2 ^ 53 ∧ (e = -1074 ∨ 2 ^ 52 ≤ Zpos m).
Proof.
  rewrite bounded_spec. intros [Hcan Hmax].
  pose proof (digits2_pos_bounds m) as [Hlo Hhi].
  set (d := Zpos (digits2_pos m)) in *.
  assert (d ≤ 53) by lia.
  assert (2 ^ d ≤ 2 ^ 53) by (apply Z.pow_le_mono_r; lia).
  split; [lia|]. split; [lia|].
  destruct (Z.eq_dec e (-1074)) as [|Hne]; [by left|right].
  replace d with 53 in Hlo by lia. exact Hlo.
Qed.

(** No value of the format lies strictly between two neighbours of the
    grid at exponent [e']. *)
Lemma grid_gap (mF : positive) (eF e' q : Z) :
  bounded prec emax mF eF = true →
  -1074 ≤ e' → 0 ≤ q → (e' = -1074 ∨ 2 ^ 52 ≤ q) →
  (Zpos mF * pow2 eF < (q + 1) * pow2 e' → Zpos mF * pow2 eF ≤ q * pow2 e')
  ∧ (q * pow2 e' < Zpos mF * pow2 eF → (q + 1) * pow2 e' ≤ Zpos mF * pow2 eF).
Proof.
  intros HF He' Hq Hnormal.
  destruct (bounded_facts _ _ HF) as (HeF & Hm53 & Hm52).
  destruct (Z_le_gt_dec e' eF) as [Hle|Hgt].
  - rewrite (pow2_shift e' eF) by lia.
    pose proof (pow2_pos e') as HP. specialize (HP ltac:(lia)).
    assert (0 < 2 ^ (eF - e')) by (apply Z.pow_pos_nonneg; lia).
    set (P := pow2 e') in *. set (k := 2 ^ (eF - e')) in *.
    replace (Zpos mF * (P * k)) with (Zpos mF * k * P) by lia.
    split; intros Hlt.
    + apply Z.mul_lt_mono_pos_r in Hlt; [|done].
      apply Z.mul_le_mono_nonneg_r; lia.
    + apply Z.mul_lt_mono_pos_r in Hlt; [|done].
      apply Z.mul_le_mono_nonneg_r; lia.
  - assert (Hq52 : 2 ^ 52 ≤ q) by (destruct Hnormal; [lia|done]).
    rewrite (pow2_shift eF e') by lia.
    pose proof (pow2_pos eF) as HP. specialize (HP ltac:(lia)).
    assert (2 ^ 1 ≤ 2 ^ (e' - eF)) by (apply Z.pow_le_mono_r; lia).
    set (P := pow2 eF) in *. set (k := 2 ^ (e' - eF)) in *.
    assert (Hbelow : Zpos mF * P < q * (P * k)).
    { apply Z.lt_le_trans with (2 ^ 53 * P).
      - apply Z.mul_lt_mono_pos_r; lia.
      - replace (q * (P * k)) with (q * k * P) by lia.
        apply Z.mul_le_mono_nonneg_r; [lia|].
        change (2 ^ 53) with (2 ^ 52 * 2 ^ 1).
        apply Z.mul_le_mono_nonneg; lia. }
    split; intros Hlt; lia.
Qed.


Lemma pow2_le e1 e2 : -2200 ≤ e1 ≤ e2 → pow2 e1 ≤ pow2 e2.
Proof. intros. apply Z.pow_le_mono_r; lia. Qed.

Lemma value_nonneg x : regular x → 0 ≤ value x.
Proof.
  destruct x as [| | |[] m e]; simpl; try lia. intros H.
  destruct (bounded_facts _ _ H) as (He & _).
  pose proof (pow2_pos e). lia.
Qed.

Lemma value_below_overflow x : regular x → value x < 2 ^ 53 * pow2 971.
Proof.
  pose proof (pow2_pos 971).
  destruct x as [| | |[] m e]; simpl; try lia. intros H'.
  destruct (bounded_facts _ _ H') as (He & Hm & _).
  pose proof (pow2_pos e). pose proof (pow2_le e 971).
  apply Z.lt_le_trans with (2 ^ 53 * pow2 e).
  - apply Z.mul_lt_mono_pos_r; lia.
  - apply Z.mul_le_mono_nonneg_l; lia.
Qed.

(** The result of [binary_round_aux] has the value of the grid point
    chosen, unless that point is beyond the largest float. *)
Lemma binary_round_aux_value (m : positive) (e : Z) :
  let e' := fexp prec emax (Zpos (digits2_pos m) + e) in
  let q := Zpos m / 2 ^ (e' - e) in
  let R := binary_round_aux prec emax false (Zpos m) e loc_Exact in
  -2200 ≤ e → e ≤ e' →
  ∃ q', q ≤ q' ≤ q + 1
    ∧ (Zpos m mod 2 ^ (e' - e) = 0 → q' = q)
    ∧ (e' = -1074 ∨ 2 ^ 52 ≤ q)
    ∧ ((R = S754_infinity false ∧ 2 ^ 53 * pow2 971 ≤ q' * pow2 e')
       ∨ (regular R ∧ value R = q' * pow2 e')).
Proof.
  intros e' q R He He'.
  destruct (binary_round_aux_spec false m e He')
    as (q' & Hq' & Hexact & Hq53 & Hnormal & HR).
  fold e' q R in Hq', Hexact, Hq53, Hnormal, HR.
  assert (Hfexp : -1074 ≤ e') by (unfold e'; rewrite fexp_eq; lia).
  assert (Hq0 : 0 ≤ q).
  { apply Z.div_pos; [lia|]. apply Z.pow_pos_nonneg; lia. }
  pose proof (pow2_pos e') as HP. specialize (HP ltac:(lia)).
  pose proof (pow2_pos 971) as HP971. specialize (HP971 ltac:(lia)).
  exists q'. split; [done|]. split; [done|]. split; [done|].
  rewrite HR. clear HR.
  destruct (Z.eqb_spec q' 0) as [->|Hnz]; [right; simpl; split; [done|lia]|].
  destruct (Z.eqb_spec q' (2 ^ 53)) as [->|Hnc].
  - destruct (Z.leb_spec (e' + 1) 971) as [Hfit|Hover].
    + right. split.
      * simpl. apply bounded_spec.
        change (Zpos (digits2_pos (2 ^ 52))) with 53. lia.
      * simpl. rewrite pow2_add by lia.
        change (Zpos (2 ^ 52)) with (2 ^ 52). change (2 ^ 53) with (2 ^ 52 * 2 ^ 1).
        lia.
    + left. split; [done|]. apply Z.mul_le_mono_nonneg_l; [lia|].
      apply pow2_le. lia.
  - assert (Hpos : 0 < q') by lia.
    assert (Hlt : q' < 2 ^ 53) by lia.
    destruct (Z.leb_spec e' 971) as [Hfit|Hover].
    + right. 
      assert (Hid : Zpos (Z.to_pos q') = q') by (apply Z2Pos.id; lia).
      split; [|simpl; by rewrite Hid].
      simpl. apply bounded_spec. split; [|done].
      pose proof (digits2_pos_bounds (Z.to_pos q')) as [Hlo Hhi].
      rewrite Hid in Hlo, Hhi.
      destruct Hnormal as [Hsub|Hnorm].
      * assert (Zpos (digits2_pos (Z.to_pos q')) ≤ 53); [|lia].
        destruct (Z_lt_le_dec 53 (Zpos (digits2_pos (Z.to_pos q'))))
          as [Hgt|]; [|done].
        assert (2 ^ 53 ≤ 2 ^ (Zpos (digits2_pos (Z.to_pos q')) - 1))
          by (apply Z.pow_le_mono_r; lia). lia.
      * rewrite (digits2_pos_unique (Z.to_pos q') 53); [lia|].
        rewrite Hid. change (2 ^ (53 - 1)) with (2 ^ 52). lia.
    + left. split; [done|].
      assert (Hnorm : 2 ^ 52 ≤ q) by (destruct Hnormal; [lia|done]).
      apply Z.le_trans with (2 ^ 52 * pow2 972).
      * change (pow2 972) with (pow2 (971 + 1)).
        rewrite (pow2_add 971 1) by lia.
        change (2 ^ 53) with (2 ^ 52 * 2 ^ 1). lia.
      * pose proof (pow2_pos 972).
        apply Z.mul_le_mono_nonneg; [lia|lia|lia|]. apply pow2_le. lia.
Qed.

(** Rounding never crosses a number of the format: a regular float below the
    exact value is below the rounded one, and a regular float above the exact
    value is above the rounded one, which then is finite. *)
Lemma binary_round_aux_sandwich (m : positive) (e : Z) (F : spec_float) :
  let R := binary_round_aux prec emax false (Zpos m) e loc_Exact in
  -2200 ≤ e → e ≤ fexp prec emax (Zpos (digits2_pos m) + e) → regular F →
  (R = S754_infinity false ∨ regular R)
  ∧ (value F ≤ Zpos m * pow2 e → R = S754_infinity false ∨ value F ≤ value R)
  ∧ (Zpos m * pow2 e ≤ value F → regular R ∧ value R ≤ value F).
Proof.
  intros R He He' HF.
  destruct (binary_round_aux_value m e He He')
    as (q' & Hq' & Hexact & Hnormal & HR).
  fold R in HR.
  set (e' := fexp prec emax (Zpos (digits2_pos m) + e)) in *.
  set (n := e' - e) in *.
  set (q := Zpos m / 2 ^ n) in *.
  assert (Hfexp : -1074 ≤ e') by (unfold e'; rewrite fexp_eq; lia).
  assert (Hpn : 0 < 2 ^ n) by (apply Z.pow_pos_nonneg; lia).
  assert (Hq0 : 0 ≤ q) by (apply Z.div_pos; lia).
  pose proof (pow2_pos e He) as HPe.
  pose proof (pow2_pos e') as HP. specialize (HP ltac:(lia)).
  pose proof (Z.div_mod (Zpos m) (2 ^ n) ltac:(lia)) as Hdiv. fold q in Hdiv.
  pose proof (Z.mod_pos_bound (Zpos m) (2 ^ n) Hpn) as Hrem.
  set (rem := Zpos m mod 2 ^ n) in *.
  assert (Hx : Zpos m * pow2 e = q * pow2 e' + rem * pow2 e).
  { rewrite (pow2_shift e e') by lia. fold n. rewrite Hdiv at 1. lia. }
  assert (Hrem' : rem * pow2 e < pow2 e').
  { rewrite (pow2_shift e e') by lia. fold n.
    rewrite (Z.mul_comm (pow2 e)). apply Z.mul_lt_mono_pos_r; lia. }
  assert (Hgap : (value F < (q + 1) * pow2 e' → value F ≤ q * pow2 e')
               ∧ (q * pow2 e' < value F → (q + 1) * pow2 e' ≤ value F)).
  { destruct F as [| | |[] mF eF]; try done; simpl.
    - split; [nia|lia].
    - by apply grid_gap. }
  destruct Hgap as [Hbelow Habove].
  pose proof (value_below_overflow F HF) as Hmax.
  assert (Hv : q * pow2 e' ≤ q' * pow2 e' ≤ (q + 1) * pow2 e') by nia.
  split; [|split].
  - destruct HR as [[-> _]|[HR _]]; [by left|by right].
  - intros Hle. destruct HR as [[-> _]|[_ ->]]; [by left|right].
    assert (value F ≤ q * pow2 e') by (apply Hbelow; nia). lia.
  - intros Hge.
    assert (Hvle : q' * pow2 e' ≤ value F).
    { destruct (Z.eq_dec rem 0) as [Hz|Hnz].
      - rewrite (Hexact Hz). rewrite Hz in Hx. lia.
      - assert ((q + 1) * pow2 e' ≤ value F) by (apply Habove; nia). lia. }
    destruct HR as [[_ Hover]|[HR ->]]; [lia|done].
Qed.


(** ** Shifting left, and [binary_round] *)

Lemma iter_xO (m d : positive) : Zpos (Pos.iter xO m d) = Zpos m * 2 ^ Zpos d.
Proof.
  induction d as [|d IH] using Pos.peano_ind.
  - simpl. lia.
  - rewrite Pos.iter_succ, Pos2Z.inj_succ, Z.pow_succ_r by lia.
    change (Zpos (Pos.iter xO m d)~0) with (2 * Zpos (Pos.iter xO m d)).
    rewrite IH. lia.
Qed.

Lemma digits2_pos_shift (m m' : positive) (k : Z) :
  0 ≤ k → Zpos m' = Zpos m * 2 ^ k →
  Zpos (digits2_pos m') = Zpos (digits2_pos m) + k.
Proof.
  intros Hk Heq. apply digits2_pos_unique. rewrite Heq.
  pose proof (digits2_pos_bounds m) as [Hlo Hhi].
  assert (0 < 2 ^ k) by (apply Z.pow_pos_nonneg; lia).
  replace (Zpos (digits2_pos m) + k - 1) with (Zpos (digits2_pos m) - 1 + k) by lia.
  rewrite !Z.pow_add_r by lia. split.
  - apply Z.mul_le_mono_nonneg_r; lia.
  - apply Z.mul_lt_mono_pos_r; lia.
Qed.

Lemma shl_align_spec (m : positive) (e e2 : Z) :
  ∃ mz ez, shl_align m e e2 = (mz, ez)
    ∧ ez = Z.min e e2
    ∧ Zpos mz = Zpos m * 2 ^ (e - ez).
Proof.
  unfold shl_align. destruct (e2 - e) as [|d|d] eqn:Hd.
  - exists m, e. repeat split; [lia|]. rewrite Z.sub_diag. simpl. lia.
  - exists m, e. repeat split; [lia|]. rewrite Z.sub_diag. simpl. lia.
  - exists (Pos.iter xO m d), e2. repeat split; [lia|].
    rewrite iter_xO. f_equal. f_equal. lia.
Qed.

Lemma binary_round_sandwich (m : positive) (e : Z) (F : spec_float) :
  let R := binary_round prec emax false m e in
  -2200 ≤ e → regular F →
  (R = S754_infinity false ∨ regular R)
  ∧ (value F ≤ Zpos m * pow2 e → R = S754_infinity false ∨ value F ≤ value R)
  ∧ (Zpos m * pow2 e ≤ value F → regular R ∧ value R ≤ value F).
Proof.
  intros R He HF. unfold R, binary_round.
  set (e2 := fexp prec emax (Zpos (digits2_pos m) + e)).
  destruct (shl_align_spec m e e2) as (mz & ez & -> & Hez & Hmz).
  assert (He2 : -1074 ≤ e2) by (unfold e2; rewrite fexp_eq; lia).
  assert (Hdig : Zpos (digits2_pos mz) + ez = Zpos (digits2_pos m) + e).
  { rewrite (digits2_pos_shift m mz (e - ez)); [lia|lia|done]. }
  assert (Hval : Zpos mz * pow2 ez = Zpos m * pow2 e).
  { rewrite Hmz, (pow2_shift ez e) by lia. lia. }
  rewrite <- Hval.
  apply binary_round_aux_sandwich; [lia| |done].
  rewrite Hdig. fold e2. lia.
Qed.

(** A number that fits the format is not changed. *)
Lemma binary_round_exact (m : positive) (e : Z) :
  -1074 ≤ e → Zpos m < 2 ^ 53 → Zpos (digits2_pos m) + e ≤ 1024 →
  regular (binary_round prec emax false m e)
  ∧ value (binary_round prec emax false m e) = Zpos m * pow2 e.
Proof.
  intros He Hm Hmax. unfold binary_round.
  set (e2 := fexp prec emax (Zpos (digits2_pos m) + e)).
  pose proof (digits2_pos_bounds m) as [Hlo Hhi].
  assert (Hd : Zpos (digits2_pos m) ≤ 53).
  { destruct (Z_lt_le_dec 53 (Zpos (digits2_pos m))) as [Hgt|]; [|done].
    assert (2 ^ 53 ≤ 2 ^ (Zpos (digits2_pos m) - 1))
      by (apply Z.pow_le_mono_r; lia). lia. }
  assert (He2 : -1074 ≤ e2 ≤ e ∧ e2 ≤ 971) by (unfold e2; rewrite fexp_eq; lia).
  destruct (shl_align_spec m e e2) as (mz & ez & -> & Hez & Hmz).
  rewrite Z.min_r in Hez by lia. subst ez.
  assert (Hdig : Zpos (digits2_pos mz) + e2 = Zpos (digits2_pos m) + e).
  { rewrite (digits2_pos_shift m mz (e - e2)); [lia|lia|done]. }
  assert (Hval : Zpos mz * pow2 e2 = Zpos m * pow2 e).
  { rewrite Hmz, (pow2_shift e2 e) by lia. lia. }
  destruct (binary_round_aux_value mz e2) as (q' & Hq' & Hexact & _ & HR);
    [lia|rewrite Hdig; fold e2; lia|].
  rewrite Hdig in Hexact, Hq', HR. fold e2 in Hexact, Hq', HR.
  rewrite Z.sub_diag in Hexact, Hq'. 
  change (2 ^ 0) with 1 in Hexact, Hq'.
  rewrite Z.mod_1_r in Hexact. rewrite Z.div_1_r in Hexact, Hq'.
  rewrite (Hexact eq_refl) in HR.
  destruct HR as [[_ Hover]|[Hregular Hvalue]].
  - exfalso. pose proof (pow2_pos e2). pose proof (pow2_le e2 971).
    assert (Zpos mz < 2 ^ 53).
    { rewrite Hmz. 
      assert (Zpos mz < 2 ^ Zpos (digits2_pos mz)) by apply digits2_pos_bounds.
      rewrite <- Hmz. eapply Z.lt_le_trans; [done|].
      apply Z.pow_le_mono_r; [lia|]. unfold e2 in Hdig. rewrite fexp_eq in Hdig.
      unfold e2 in He2. rewrite fexp_eq in He2. lia. }
    assert (Zpos mz * pow2 e2 < 2 ^ 53 * pow2 971); [|lia].
    apply Z.lt_le_trans with (2 ^ 53 * pow2 e2).
    + apply Z.mul_lt_mono_pos_r; lia.
    + apply Z.mul_le_mono_nonneg_l; lia.
  - split; [done|]. by rewrite Hvalue.
Qed.


(** ** Comparison *)

Lemma value_exponent_lt (mx my : positive) (ex ey : Z) :
  bounded prec emax mx ex = true → bounded prec emax my ey = true →
  ex < ey → Zpos mx * pow2 ex < Zpos my * pow2 ey.
Proof.
  intros Hx Hy Hlt.
  destruct (bounded_facts _ _ Hx) as (Hex & Hmx & _).
  destruct (bounded_facts _ _ Hy) as (Hey & _ & Hmy).
  assert (Hnorm : 2 ^ 52 ≤ Zpos my) by (destruct Hmy; [lia|done]).
  rewrite (pow2_shift ex ey) by lia.
  pose proof (pow2_pos ex) as HP. specialize (HP ltac:(lia)).
  assert (2 ^ 1 ≤ 2 ^ (ey - ex)) by (apply Z.pow_le_mono_r; lia).
  set (P := pow2 ex) in *. set (k := 2 ^ (ey - ex)) in *.
  apply Z.lt_le_trans with (2 ^ 53 * P).
  - apply Z.mul_lt_mono_pos_r; lia.
  - replace (Zpos my * (P * k)) with (Zpos my * k * P) by lia.
    apply Z.mul_le_mono_nonneg_r; [lia|].
    change (2 ^ 53) with (2 ^ 52 * 2 ^ 1).
    apply Z.mul_le_mono_nonneg; lia.
Qed.

Lemma SFcompare_regular x y :
  regular x → regular y → SFcompare x y = Some (value x ?= value y).
Proof.
  destruct x as [sx| | |[] mx ex]; try done;
    destruct y as [sy| | |[] my ey]; try done; intros Hx Hy; simpl in Hx, Hy.
  - destruct (bounded_facts _ _ Hy) as (Hey & _).
    pose proof (pow2_pos ey). cbn [SFcompare value]. f_equal. symmetry.
    apply Z.compare_lt_iff. lia.
  - destruct (bounded_facts _ _ Hx) as (Hex & _).
    pose proof (pow2_pos ex). cbn [SFcompare value]. f_equal. symmetry.
    apply Z.compare_gt_iff. lia.
  - destruct (bounded_facts _ _ Hx) as (Hex & _).
    pose proof (pow2_pos ex).
    cbn [SFcompare value]. f_equal.
    destruct (Z.compare_spec ex ey) as [->|Hlt|Hgt].
    + change (Pos.compare_cont Eq mx my) with (Zpos mx ?= Zpos my).
      destruct (Z.compare_spec (Zpos mx) (Zpos my)) as [Heq|Hl|Hg]; symmetry.
      * apply Z.compare_eq_iff. by rewrite Heq.
      * apply Z.compare_lt_iff. apply Z.mul_lt_mono_pos_r; lia.
      * apply Z.compare_gt_iff. apply Z.mul_lt_mono_pos_r; lia.
    + symmetry. apply Z.compare_lt_iff. by apply value_exponent_lt.
    + symmetry. apply Z.compare_gt_iff. by apply value_exponent_lt.
Qed.

Lemma SFleb_regular x y :
  regular x → regular y → (SFleb x y = true ↔ value x ≤ value y).
Proof.
  intros Hx Hy. unfold SFleb. rewrite SFcompare_regular by done.
  destruct (Z.compare_spec (value x) (value y)); split; (done || lia).
Qed.

Lemma SFltb_regular x y :
  regular x → regular y → (SFltb x y = true ↔ value x < value y).
Proof.
  intros Hx Hy. unfold SFltb. rewrite SFcompare_regular by done.
  destruct (Z.compare_spec (value x) (value y)); split; (done || lia).
Qed.


(** ** The operations *)

Lemma digits2_pos_mul (mx my : positive) :
  Zpos (digits2_pos mx) + Zpos (digits2_pos my) - 1
  ≤ Zpos (digits2_pos (mx * my)).
Proof.
  pose proof (digits2_pos_bounds mx) as [Hx _].
  pose proof (digits2_pos_bounds my) as [Hy _].
  pose proof (digits2_pos_bounds (mx * my)) as [_ Hxy].
  set (dx := Zpos (digits2_pos mx)) in *.
  set (dy := Zpos (digits2_pos my)) in *.
  set (d := Zpos (digits2_pos (mx * my))) in *.
  assert (0 < dx) by done. assert (0 < dy) by done.
  assert (Hlow : 2 ^ (dx - 1 + (dy - 1)) ≤ Zpos (mx * my)).
  { rewrite Z.pow_add_r, Pos2Z.inj_mul by lia.
    assert (0 < 2 ^ (dx - 1)) by (apply Z.pow_pos_nonneg; lia).
    assert (0 < 2 ^ (dy - 1)) by (apply Z.pow_pos_nonneg; lia).
    apply Z.mul_le_mono_nonneg; lia. }
  assert (Hlt : 2 ^ (dx - 1 + (dy - 1)) < 2 ^ d) by lia.
  apply Z.pow_lt_mono_r_iff in Hlt; lia.
Qed.

Lemma pow2_mul ex ey :
  -2200 ≤ ex → -2200 ≤ ey → -2200 ≤ ex + ey →
  pow2 (ex + ey) * pow2 0 = pow2 ex * pow2 ey.
Proof.
  intros. unfold pow2. rewrite <- !Z.pow_add_r by lia. f_equal. lia.
Qed.

Lemma SFmul_sandwich (x y F : spec_float) :
  let R := SFmul prec emax x y in
  regular x → regular y → regular F →
  (R = S754_infinity false ∨ regular R)
  ∧ (value F * pow2 0 ≤ value x * value y →
     R = S754_infinity false ∨ value F ≤ value R)
  ∧ (value x * value y ≤ value F * pow2 0 → regular R ∧ value R ≤ value F).
Proof.
  intros R Hx Hy HF.
  pose proof (pow2_pos 0) as H0. specialize (H0 ltac:(lia)).
  pose proof (value_nonneg F HF) as HF0.
  assert (Hzero : ∀ s, value x * value y = 0 → R = S754_zero s →
    (R = S754_infinity false ∨ regular R)
    ∧ (value F * pow2 0 ≤ value x * value y →
       R = S754_infinity false ∨ value F ≤ value R)
    ∧ (value x * value y ≤ value F * pow2 0 → regular R ∧ value R ≤ value F)).
  { intros s Hprod ->. rewrite Hprod. simpl.
    split; [by right|]. split; [right; nia|]. done. }
  destruct x as [sx| | |[] mx ex]; try done;
    destruct y as [sy| | |[] my ey]; try done;
    try (by apply (Hzero (xorb sx sy)));
    try (by apply (Hzero (xorb sx false)); [simpl; lia|]);
    try (by apply (Hzero (xorb false sy)); [simpl; lia|]).
  simpl in Hx, Hy.
  destruct (bounded_facts _ _ Hx) as (Hex & _).
  destruct (bounded_facts _ _ Hy) as (Hey & _).
  apply bounded_spec in Hx as [Hcx _], Hy as [Hcy _].
  pose proof (digits2_pos_mul mx my) as Hd.
  assert (Hpre : ex + ey
                 ≤ fexp prec emax (Zpos (digits2_pos (mx * my)) + (ex + ey)))
    by (rewrite fexp_eq; lia).
  destruct (binary_round_aux_sandwich (mx * my) (ex + ey) F)
    as (H1 & H2 & H3); [lia|done|done|].
  assert (Hval : value (S754_finite false mx ex) * value (S754_finite false my ey)
                 = Zpos (mx * my) * pow2 (ex + ey) * pow2 0).
  { cbn [value]. rewrite Pos2Z.inj_mul.
    rewrite <- (Z.mul_assoc _ (pow2 (ex + ey)) (pow2 0)), pow2_mul by lia.
    ring. }
  rewrite Hval. unfold R. cbn [SFmul xorb].
  split; [done|]. split; intros Hle.
  - apply H2. apply Z.mul_le_mono_pos_r in Hle; done.
  - apply H3. apply Z.mul_le_mono_pos_r in Hle; done.
Qed.

Lemma SFadd_sandwich (x y F : spec_float) :
  let R := SFadd prec emax x y in
  regular x → regular y → regular F →
  (R = S754_infinity false ∨ regular R)
  ∧ (value F ≤ value x + value y → R = S754_infinity false ∨ value F ≤ value R)
  ∧ (value x + value y ≤ value F → regular R ∧ value R ≤ value F).
Proof.
  intros R Hx Hy HF.
  destruct x as [sx| | |[] mx ex]; try done;
    destruct y as [sy| | |[] my ey]; try done.
  - assert (HR : regular R ∧ value R = 0) by (unfold R; by destruct sx, sy).
    destruct HR as [HR ->]. simpl. split; [by right|]. split; [by right|done].
  - unfold R. cbn [SFadd]. simpl value. split; [by right|].
    split; [by right|done].
  - unfold R. cbn [SFadd]. simpl value. rewrite Z.add_0_r. split; [by right|].
    split; [by right|done].
  - simpl in Hx, Hy.
    destruct (bounded_facts _ _ Hx) as (Hex & _).
    destruct (bounded_facts _ _ Hy) as (Hey & _).
    unfold R. cbn [SFadd cond_Zopp].
    set (ez := Z.min ex ey).
    destruct (shl_align_spec mx ex ez) as (mx' & ex' & -> & Hex' & Hmx').
    destruct (shl_align_spec my ey ez) as (my' & ey' & -> & Hey' & Hmy').
    cbn [fst]. change (Zpos mx' + Zpos my') with (Zpos (mx' + my')).
    cbn [binary_normalize].
    assert (Hval : Zpos (mx' + my') * pow2 ez
                   = value (S754_finite false mx ex)
                     + value (S754_finite false my ey)).
    { simpl. rewrite Pos2Z.inj_add, Hmx', Hmy'.
      replace ex' with ez by lia. replace ey' with ez by lia.
      rewrite (pow2_shift ez ex), (pow2_shift ez ey) by lia. lia. }
    rewrite <- Hval. apply binary_round_sandwich; [lia|done].
Qed.

(** A difference that fits the format is exact: when [y ≤ x ≤ 2 y]. *)
Lemma SFsub_exact (x y : spec_float) :
  regular x → regular y → value y ≤ value x ≤ 2 * value y →
  regular (SFsub prec emax x y)
  ∧ value (SFsub prec emax x y) = value x - value y.
Proof.
  intros Hx Hy [Hle Hle2].
  destruct x as [sx| | |[] mx ex]; try done;
    destruct y as [sy| | |[] my ey]; try done.
  - by destruct sx, sy.
  - exfalso. simpl in Hy, Hle.
    destruct (bounded_facts _ _ Hy) as (Hey & _). pose proof (pow2_pos ey). lia.
  - exfalso. simpl in Hx, Hle2.
    destruct (bounded_facts _ _ Hx) as (Hex & _). pose proof (pow2_pos ex). lia.
  - simpl in Hx, Hy.
    destruct (bounded_facts _ _ Hx) as (Hex & _).
    destruct (bounded_facts _ _ Hy) as (Hey & Hmy & _).
    assert (Hexp : ey ≤ ex).
    { destruct (Z_le_gt_dec ey ex) as [|Hgt]; [done|].
      pose proof (value_exponent_lt mx my ex ey Hx Hy). simpl in Hle. lia. }
    cbn [SFsub cond_Zopp].
    set (ez := Z.min ex ey).
    destruct (shl_align_spec mx ex ez) as (mx' & ex' & -> & Hex' & Hmx').
    destruct (shl_align_spec my ey ez) as (my' & ey' & -> & Hey' & Hmy').
    cbn [fst].
    assert (Hez : ez = ey) by lia.
    replace ex' with ey in Hmx' by lia. replace ey' with ey in Hmy' by lia.
    rewrite Z.sub_diag in Hmy'. change (2 ^ 0) with 1 in Hmy'.
    rewrite Z.mul_1_r in Hmy'. rewrite Hez.
    pose proof (pow2_pos ey) as HP. specialize (HP ltac:(lia)).
    assert (Hval : (Zpos mx' - Zpos my') * pow2 ey
                   = value (S754_finite false mx ex)
                     - value (S754_finite false my ey)).
    { simpl. rewrite Hmx', Hmy', (pow2_shift ey ex) by lia. lia. }
    rewrite <- Hval. cbn [value] in Hle, Hle2, Hval.
    assert (Hdiff : 0 ≤ Zpos mx' - Zpos my' ≤ Zpos my).
    { split.
      - apply (Z.mul_le_mono_pos_r _ _ (pow2 ey)); [done|]. lia.
      - apply (Z.mul_le_mono_pos_r _ _ (pow2 ey)); [done|]. lia. }
    clear Hval. destruct (Zpos mx' - Zpos my') as [|d|d]; [done| |lia].
    cbn [binary_normalize].
    apply binary_round_exact; [lia|lia|].
    pose proof (digits2_pos_bounds d) as [Hlo _].
    destruct (Z_lt_le_dec 53 (Zpos (digits2_pos d))) as [Hgt|]; [|lia].
    assert (2 ^ 53 ≤ 2 ^ (Zpos (digits2_pos d) - 1))
      by (apply Z.pow_le_mono_r; lia). lia.
Qed.

Lemma binary_normalize_exact (z e : Z) :
  0 ≤ z < 2 ^ 53 → -1074 ≤ e ≤ 971 →
  regular (binary_normalize prec emax z e false)
  ∧ value (binary_normalize prec emax z e false) = z * pow2 e.
Proof.
  intros Hz He. destruct z as [|m|m]; [done| |lia].
  cbn [binary_normalize]. apply binary_round_exact; [lia|lia|].
  pose proof (digits2_pos_bounds m) as [Hlo _].
  destruct (Z_lt_le_dec 53 (Zpos (digits2_pos m))) as [Hgt|]; [|lia].
  assert (2 ^ 53 ≤ 2 ^ (Zpos (digits2_pos m) - 1))
    by (apply Z.pow_le_mono_r; lia). lia.
Qed.

(** ** The interval *)

Lemma of_int_exact (z : Z) :
  0 ≤ z < 2 ^ 53 →
  ∃ b, Float.of_int z = Some b ∧ regular b ∧ value b = z * pow2 0.
Proof.
  intros Hz. destruct (binary_normalize_exact z 0) as [Hb Hvalue]; [done|lia|].
  unfold Float.of_int, Float.of_Z.
  destruct (binary_normalize prec emax z 0 false) as [| | |] eqn:E;
    try done; eauto.
Qed.

(** What [random.random()] returns is regular and below one. *)
Lemma unit_interval_regular (u : Float.float) :
  Float.unit_interval u = true → regular u ∧ value u < pow2 0.
Proof.
  unfold Float.unit_interval, Float.valid, Float.leb, Float.ltb.
  rewrite !andb_true_iff. intros [[Hvalid Hle] Hlt].
  assert (Hu : regular u).
  { destruct u as [| | |[] m e]; try done. destruct s; done. }
  split; [done|].
  assert (Hone : regular Float.one) by reflexivity.
  apply (SFltb_regular u Float.one Hu Hone) in Hlt.
  replace (pow2 0) with (value Float.one); [done|].
  cbn [value Float.one]. rewrite (pow2_shift (-52) 0) by lia.
  change (2 ^ (0 - -52)) with (Zpos 4503599627370496). lia.
Qed.

Lemma scaled_le (k p c1 c2 : Z) :
  0 ≤ k → 0 < p → c1 ≤ c2 → k * p * c1 ≤ k * p * c2.
Proof.
  intros. apply Z.mul_le_mono_nonneg_l; [|done].
  apply Z.mul_nonneg_nonneg; lia.
Qed.

(** The draw of [random.uniform] between the two ends computed for a base
    interval from 0 to 2^50: the difference of the ends is exact, and no
    rounding crosses an end. *)
Lemma uniform_in_band (base : Z) (B u : Float.float) :
  let a := Float.mul B Float.lit_0_8 in
  let b := Float.mul B Float.lit_1_2 in
  let r := Float.uniform a b u in
  0 ≤ base < 2 ^ 50 → regular B → value B = base * pow2 0 →
  regular u → value u < pow2 0 →
  regular a ∧ regular b ∧ regular r
  ∧ value a ≤ value r ≤ value b
  ∧ base * pow2 0 * 3 ≤ value a * 4 ∧ value b * 4 ≤ base * pow2 0 * 5.
Proof.
  intros a b r Hbase HB HvB Hu Hu1.
  destruct (binary_normalize_exact (3 * base) (-2)) as [HF1 HvF1]; [lia|lia|].
  destruct (binary_normalize_exact (5 * base) (-2)) as [HF2 HvF2]; [lia|lia|].
  set (F1 := binary_normalize prec emax (3 * base) (-2) false) in *.
  set (F2 := binary_normalize prec emax (5 * base) (-2) false) in *.
  clearbody F1 F2.
  assert (H08 : regular Float.lit_0_8) by reflexivity.
  assert (H12 : regular Float.lit_1_2) by reflexivity.
  pose proof (pow2_pos (-53)) as HP. specialize (HP ltac:(lia)).
  assert (HP2 : pow2 (-2) = pow2 (-53) * 2 ^ 51)
    by (apply (pow2_shift (-53) (-2)); lia).
  assert (HP0 : pow2 0 = pow2 (-53) * 2 ^ 53)
    by (apply (pow2_shift (-53) 0); lia).
  assert (HP52 : pow2 (-52) = pow2 (-53) * 2 ^ 1)
    by (apply (pow2_shift (-53) (-52)); lia).
  assert (Hv08 : value Float.lit_0_8 = 7205759403792794 * pow2 (-53))
    by reflexivity.
  assert (Hv12 : value Float.lit_1_2 = 5404319552844595 * (pow2 (-53) * 2 ^ 1))
    by (rewrite <- HP52; reflexivity).
  rewrite HP2 in HvF1, HvF2. rewrite HP0 in HvB, Hu1. rewrite HP0.
  set (P := pow2 (-53)) in *. clearbody P.
  (* the lower end *)
  destruct (SFmul_sandwich B Float.lit_0_8 F1 HB H08 HF1) as (_ & Ha1 & _).
  destruct (SFmul_sandwich B Float.lit_0_8 B HB H08 HB) as (_ & _ & Ha2).
  change (SFmul prec emax B Float.lit_0_8) with a in Ha1, Ha2.
  unfold r. clearbody a.
  rewrite HvB, Hv08, HvF1, HP0 in *.
  destruct Ha2 as [Ha HaB].
  { replace (base * (P * 2 ^ 53) * (7205759403792794 * P))
      with (base * P * (P * 2 ^ 53 * 7205759403792794)) by ring.
    replace (base * (P * 2 ^ 53) * (P * 2 ^ 53))
      with (base * P * (P * 2 ^ 53 * 2 ^ 53)) by ring.
    apply scaled_le; [lia|lia|]. apply Z.mul_le_mono_nonneg_l; lia. }
  destruct Ha1 as [Hinf|HaF1]; [|by rewrite Hinf in Ha|].
  { replace (3 * base * (P * 2 ^ 51) * (P * 2 ^ 53))
      with (base * P * (P * 2 ^ 53 * (3 * 2 ^ 51))) by ring.
    replace (base * (P * 2 ^ 53) * (7205759403792794 * P))
      with (base * P * (P * 2 ^ 53 * 7205759403792794)) by ring.
    apply scaled_le; [lia|lia|]. apply Z.mul_le_mono_nonneg_l; lia. }
  (* the upper end *)
  destruct (SFmul_sandwich B Float.lit_1_2 F2 HB H12 HF2) as (_ & _ & Hb1).
  destruct (SFmul_sandwich B Float.lit_1_2 B HB H12 HB) as (_ & Hb2 & _).
  change (SFmul prec emax B Float.lit_1_2) with b in Hb1, Hb2.
  clearbody b.
  rewrite HvB, Hv12, HvF2, ?HP0 in *.
  destruct Hb1 as [Hb HbF2].
  { replace (base * (P * 2 ^ 53) * (5404319552844595 * (P * 2 ^ 1)))
      with (base * P * (P * 2 ^ 53 * (5404319552844595 * 2 ^ 1))) by ring.
    replace (5 * base * (P * 2 ^ 51) * (P * 2 ^ 53))
      with (base * P * (P * 2 ^ 53 * (5 * 2 ^ 51))) by ring.
    apply scaled_le; [lia|lia|]. apply Z.mul_le_mono_nonneg_l; lia. }
  destruct Hb2 as [Hinf|HbB]; [|by rewrite Hinf in Hb|].
  { replace (base * (P * 2 ^ 53) * (P * 2 ^ 53))
      with (base * P * (P * 2 ^ 53 * 2 ^ 53)) by ring.
    replace (base * (P * 2 ^ 53) * (5404319552844595 * (P * 2 ^ 1)))
      with (base * P * (P * 2 ^ 53 * (5404319552844595 * 2 ^ 1))) by ring.
    apply scaled_le; [lia|lia|]. apply Z.mul_le_mono_nonneg_l; lia. }
  (* the width *)
  assert (HK : 0 ≤ base * P) by (apply Z.mul_nonneg_nonneg; lia).
  destruct (SFsub_exact b a Hb Ha) as [Hd Hvd]; [lia|].
  unfold Float.uniform, Float.add, Float.mul, Float.sub.
  set (d := SFsub prec emax b a) in *. clearbody d.
  pose proof (value_nonneg u Hu) as Hu0.
  pose proof (value_nonneg d Hd) as Hd0.
  destruct (SFmul_sandwich d u d Hd Hu Hd) as (_ & _ & Hp).
  rewrite HP0 in Hp. destruct Hp as [Hp Hpd].
  { apply Z.mul_le_mono_nonneg_l; lia. }
  set (p := SFmul prec emax d u) in *. clearbody p.
  pose proof (value_nonneg p Hp) as Hp0.
  destruct (SFadd_sandwich a p a Ha Hp Ha) as (_ & Hr1 & _).
  destruct (SFadd_sandwich a p b Ha Hp Hb) as (_ & _ & Hr2).
  destruct Hr2 as [Hr Hrb]; [lia|].
  destruct Hr1 as [Hinf|Hra]; [lia|by rewrite Hinf in Hr|].
  repeat split; [done..|lia|lia].
Qed.

(** ** What the pause asks of the interval *)

Lemma binary_round_sign (sx : bool) (m : positive) (e : Z) :
  binary_round prec emax sx m e = S754_zero sx
  ∨ binary_round prec emax sx m e = S754_infinity sx
  ∨ ∃ m' e', binary_round prec emax sx m e = S754_finite sx m' e'.
Proof.
  unfold binary_round.
  set (e2 := fexp prec emax (Zpos (digits2_pos m) + e)).
  destruct (shl_align_spec m e e2) as (mz & ez & -> & Hez & Hmz).
  assert (Hdig : Zpos (digits2_pos mz) + ez = Zpos (digits2_pos m) + e).
  { rewrite (digits2_pos_shift m mz (e - ez)); [lia|lia|done]. }
  destruct (binary_round_aux_spec sx mz ez) as (q' & _ & _ & _ & _ & ->).
  { rewrite Hdig. fold e2. lia. }
  destruct (q' =? 0); [by left|].
  destruct (q' =? 2 ^ 53).
  - destruct (_ <=? 971); [right; right; eauto|by right; left].
  - destruct (_ <=? 971); [right; right; eauto|by right; left].
Qed.

(** A timestamp that is at most 0 is at most every regular float. *)
Lemma of_Z_nonpos_leb (z : Z) (t : Float.float) :
  z ≤ 0 → regular t → Float.leb (Float.of_Z z) t = true.
Proof.
  intros Hz Ht. unfold Float.of_Z. destruct z as [|m|m]; [| lia |].
  - by destruct t as [| | |[] mt et].
  - cbn [binary_normalize].
    destruct (binary_round_sign true m 0) as [->|[->|(m' & e' & ->)]];
      by destruct t as [| | |[] mt et].
Qed.

Lemma of_Z_exact (z : Z) :
  0 ≤ z < 2 ^ 53 →
  regular (Float.of_Z z) ∧ value (Float.of_Z z) = z * pow2 0.
Proof. intros. by apply binary_normalize_exact. Qed.

(** [datetime.fromtimestamp] accepts a time of the calendar with room for
    the interval. *)
Lemma fromtimestamp_accepts_regular (c : Scheduler.Clock) (now : Z)
    (r : Float.float) :
  Scheduler.earliest c ≤ 0 → 0 ≤ now →
  now + 2 ^ 32 < Scheduler.latest c → Scheduler.latest c < 2 ^ 53 →
  regular r → value r ≤ 2 ^ 32 * pow2 0 →
  Scheduler.fromtimestamp_accepts c (Float.add (Float.of_Z now) r) = true.
Proof.
  intros Hearly Hnow Hroom Hlate Hr Hvr.
  destruct (of_Z_exact now) as [Hn Hvn]; [lia|].
  destruct (of_Z_exact (now + 2 ^ 32)) as [HF HvF]; [lia|].
  destruct (of_Z_exact (Scheduler.latest c)) as [HL HvL]; [lia|].
  pose proof (pow2_pos 0) as HP. specialize (HP ltac:(lia)).
  destruct (SFadd_sandwich (Float.of_Z now) r (Float.of_Z (now + 2 ^ 32))
              Hn Hr HF) as (_ & _ & Ht).
  destruct Ht as [Ht Hvt]; [rewrite Hvn, HvF; lia|].
  unfold Scheduler.fromtimestamp_accepts. apply andb_true_iff. split.
  - by apply of_Z_nonpos_leb.
  - apply SFltb_regular; [done..|]. rewrite HvL.
    eapply Z.le_lt_trans; [exact Hvt|]. rewrite HvF.
    apply Z.mul_lt_mono_pos_r; lia.
Qed.

(** [time.sleep] accepts a regular interval of at most 2^32 seconds. *)
Lemma sleep_accepts_regular (r : Float.float) :
  regular r → value r ≤ 2 ^ 32 * pow2 0 → Float.sleep_accepts r = true.
Proof.
  intros Hr Hvr. unfold Float.sleep_accepts. apply andb_true_iff. split.
  - apply SFleb_regular; [done..|]. by apply value_nonneg.
  - pose proof (pow2_pos 0) as HP. specialize (HP ltac:(lia)).
    pose proof (value_nonneg r Hr) as Hr0.
    assert (Hns : regular Float.nanoseconds) by reflexivity.
    set (two_62 := S754_finite false 4503599627370496 10).
    assert (H62 : regular two_62) by reflexivity.
    assert (Hvns : value Float.nanoseconds = 1000000000 * pow2 0).
    { cbn [value Float.nanoseconds]. rewrite (pow2_shift (-23) 0) by lia.
      change (2 ^ (0 - -23)) with 8388608. lia. }
    assert (Hv62 : value two_62 = 2 ^ 62 * pow2 0).
    { cbn [value two_62]. rewrite (pow2_shift 0 10) by lia.
      change (2 ^ (10 - 0)) with 1024. lia. }
    assert (Hv63 : value Float.two_63 = 2 ^ 63 * pow2 0).
    { cbn [value Float.two_63]. rewrite (pow2_shift 0 11) by lia.
      change (2 ^ (11 - 0)) with 2048. lia. }
    destruct (SFmul_sandwich r Float.nanoseconds two_62 Hr Hns H62)
      as (_ & _ & Hp).
    destruct Hp as [Hp Hvp].
    { rewrite Hvns, Hv62.
      replace (value r * (1000000000 * pow2 0))
        with (value r * 1000000000 * pow2 0) by ring.
      apply Z.mul_le_mono_nonneg_r; [lia|].
      apply Z.le_trans with (2 ^ 32 * pow2 0 * 1000000000); [lia|].
      replace (2 ^ 32 * pow2 0 * 1000000000)
        with (2 ^ 32 * 1000000000 * pow2 0) by ring.
      apply Z.mul_le_mono_nonneg_r; lia. }
    apply SFltb_regular; [done|reflexivity|].
    rewrite Hv63. eapply Z.le_lt_trans; [exact Hvp|]. rewrite Hv62.
    apply Z.mul_lt_mono_pos_r; lia.
Qed.

(** For a base interval from 0 to 2^31 seconds, the interval is drawn, is
    regular and is at most 2^32 seconds. *)
Lemma get_random_interval_regular (s : Scheduler.ScraperScheduler)
    (u : Float.float) :
  0 ≤ Scheduler.base_interval s < 2 ^ 31 →
  Float.unit_interval u = true →
  ∃ r, Scheduler.get_random_interval s u = Some r
       ∧ regular r ∧ value r ≤ 2 ^ 32 * pow2 0.
Proof.
  intros Hbase Hu.
  destruct (unit_interval_regular u Hu) as [Hru Hu1].
  destruct (of_int_exact (Scheduler.base_interval s)) as (B & HB & HrB & HvB);
    [lia|].
  destruct (uniform_in_band (Scheduler.base_interval s) B u)
    as (_ & _ & Hr & [_ Hhi] & _ & Hb); [lia|done..|].
  unfold Scheduler.get_random_interval, Scheduler.min_interval,
    Scheduler.max_interval, Float.int_mul.
  rewrite HB. cbn [mbind option_bind].
  eexists. split; [done|]. split; [done|].
  pose proof (pow2_pos 0) as HP. specialize (HP ltac:(lia)).
  assert (Scheduler.base_interval s * pow2 0 ≤ 2 ^ 31 * pow2 0)
    by (apply Z.mul_le_mono_nonneg_r; lia).
  lia.
Qed.

(** ** Negative numbers *)








End FloatFacts.

(** ** The interval of the scheduler *)

Section IntervalClaims.

Import Scheduler.




(** Nor does the band hold near the largest float: for a base interval of
    2^1018 minutes the upper end is infinite, and the number 0 of
    [random()] makes the value drawn a NaN, which is within no band. *)
Example huge_base_interval_draws_nan :
  max_interval (init (2 ^ 1018) 10) = Some (SpecFloat.S754_infinity false)
  ∧ get_random_interval (init (2 ^ 1018) 10) Float.zero
    = Some SpecFloat.S754_nan
  ∧ Float.unit_interval Float.zero = true.
Proof. vm_compute. done. Qed.

End IntervalClaims.

(** ** The scheduler *)

Section SchedulerFacts.

Import Scheduler.

(** The scheduler once one more run has been counted. *)
Definition counted (s : ScraperScheduler) : ScraperScheduler :=
  {| base_interval := base_interval s;
     max_tweets := max_tweets s;
     run_count := run_count s + 1 |}.

Lemma max_runs_reached_zero s : max_runs_reached (Some 0%Z) s = false.
Proof. reflexivity. Qed.

Lemma run_once_count w s :
  run_count (snd (fst (run_once w s))) = (run_count s + 1)%nat.
Proof. unfold run_once. by destruct (orchestrator w _). Qed.

Lemma run_once_counted w s :
  run_once w s
  = (match orchestrator w (run_count s + 1) with
     | Returns _ => Some true
     | Raises _ => Some false
     | KeyboardInterrupt => None
     end, counted s, orchestrator w (run_count s + 1)).
Proof. unfold run_once, counted. simpl. by destruct (orchestrator w _). Qed.

(** The pause reads the base interval only, which no run changes. *)
Lemma pause_counted w s k : pause w (counted s) k = pause w s k.
Proof. reflexivity. Qed.

(** A moment at which nothing stands in the way of the pause after run
    [k]: the number drawn is at least 0 and below 1, and the clock, not
    before 1970, has 2^32 seconds left in a calendar that starts in 1970 or
    before and ends before second 2^53. *)
Definition ordinary (c : Clock) (k : nat) : Prop :=
  Float.unit_interval (random c k) = true
  ∧ (earliest c ≤ 0)%Z
  ∧ (0 ≤ now c k)%Z
  ∧ (now c k + 2 ^ 32 < latest c)%Z
  ∧ (latest c < 2 ^ 53)%Z.

(** With a base interval from 0 to 2^31 seconds, the pause of an ordinary
    moment is slept through unless Ctrl+C arrives. *)
Lemma pause_ordinary w s k :
  (0 ≤ base_interval s < 2 ^ 31)%Z →
  ordinary (clock w) k →
  pause w s k = if sleep_interrupted w k then Cut else Slept.
Proof.
  intros Hbase (Hu & Hearly & Hnow & Hroom & Hlate). unfold pause.
  destruct (get_random_interval_regular s (random (clock w) k) Hbase Hu)
    as (r & -> & Hr & Hvr).
  rewrite fromtimestamp_accepts_regular by done.
  by rewrite sleep_accepts_regular.
Qed.

(** A base interval below 2^1024 seconds in size can be logged in
    minutes. *)
Lemma banner_logged (base : Z) :
  (Z.abs base < 2 ^ 1024)%Z → Float.true_divide_overflows base 60 = false.
Proof.
  intros Hbase. apply bool_decide_eq_false_2.
  assert (2 ^ 1024 ≤ 60 * (2 ^ 1024 - 2 ^ 970))%Z by done. lia.
Qed.

Lemma banner_logged_small (base : Z) :
  (Z.abs base < 2 ^ 50)%Z → Float.true_divide_overflows base 60 = false.
Proof.
  intros Hbase. apply banner_logged.
  assert (2 ^ 50 ≤ 2 ^ 1024)%Z by done. lia.
Qed.

(** A pass whose run is not cut and whose pause is slept through. *)
Lemma start_loop_pass fuel max_runs w s seen :
  max_runs_reached max_runs s = false →
  orchestrator w (run_count s + 1) ≠ KeyboardInterrupt →
  pause w s (run_count s + 1) = Slept →
  start_loop (S fuel) max_runs w s seen
  = start_loop fuel max_runs w (counted s)
      (seen ++ [orchestrator w (run_count s + 1)]).
Proof.
  intros Hreached Hrun Hpause. cbn [start_loop].
  rewrite Hreached, run_once_counted.
  destruct (orchestrator w (run_count s + 1)) as [r|e|]; [| |done];
    cbv iota beta; cbn [run_count counted]; by rewrite pause_counted, Hpause.
Qed.

Lemma start_loop_zero fuel w s seen :
  (∀ k, (run_count s < k ≤ run_count s + fuel)%nat →
        orchestrator w k ≠ KeyboardInterrupt) →
  (∀ k, (run_count s < k ≤ run_count s + fuel)%nat → pause w s k = Slept) →
  status (start_loop fuel (Some 0%Z) w s seen) = Running
  ∧ length (invocations (start_loop fuel (Some 0%Z) w s seen))
    = (length seen + fuel)%nat
  ∧ run_count (scheduler (start_loop fuel (Some 0%Z) w s seen))
    = (run_count s + fuel)%nat.
Proof.
  revert s seen. induction fuel as [|fuel IH]; intros s seen Hrun Hpause.
  - simpl. repeat split; lia.
  - rewrite start_loop_pass;
      [|apply max_runs_reached_zero|apply Hrun; lia|apply Hpause; lia].
    destruct (IH (counted s) (seen ++ [orchestrator w (run_count s + 1)])%list)
      as (H1 & H2 & H3).
    + intros k Hk. apply Hrun. simpl in Hk. lia.
    + intros k Hk. rewrite pause_counted. apply Hpause. simpl in Hk. lia.
    + rewrite H1, H2, H3, length_app. simpl. repeat split; lia.
Qed.

Lemma uninterrupted_runs results c k :
  orchestrator (uninterrupted results c) k ≠ KeyboardInterrupt.
Proof. simpl. by destruct (results k). Qed.

(** C6 fails on the code at [max_runs = 0]: the value is set, and the loop
    never leaves through its [break].  With a base interval from 0 to 2^31
    seconds, in a world without Ctrl+C and at ordinary moments, the
    scheduler of [fuel] passes has invoked the orchestrator [fuel] times
    and is still running. *)
Theorem start_zero_max_runs_never_stops (fuel : nat)
    (results : nat → Py.result Scraper.RunResult) (c : Clock)
    (s : ScraperScheduler) :
  (0 ≤ base_interval s < 2 ^ 31)%Z →
  (∀ k, (run_count s < k ≤ run_count s + fuel)%nat → ordinary c k) →
  status (start fuel (Some 0%Z) (uninterrupted results c) s) = Running
  ∧ length (invocations (start fuel (Some 0%Z) (uninterrupted results c) s))
    = fuel
  ∧ run_count (scheduler (start fuel (Some 0%Z) (uninterrupted results c) s))
    = (run_count s + fuel)%nat.
Proof.
  intros Hbase Hordinary. unfold start. rewrite banner_logged_small by lia.
  apply (start_loop_zero fuel (uninterrupted results c) s []).
  - intros k _. apply uninterrupted_runs.
  - intros k Hk. rewrite pause_ordinary; [done|done|]. by apply Hordinary.
Qed.

Lemma start_zero_max_runs_never_stops_witness :
  status (start 5 (Some 0%Z) Sample.failing_runs Sample.default_scheduler)
  = Running
  ∧ length (invocations
      (start 5 (Some 0%Z) Sample.failing_runs Sample.default_scheduler)) = 5%nat.
Proof.
  destruct (start_zero_max_runs_never_stops 5 (λ _, inl Py.BrowserError)
              Sample.utc_clock Sample.default_scheduler) as (H1 & H2 & _).
  - simpl. lia.
  - intros k Hk. simpl in Hk. split; [|simpl; lia].
    change (random Sample.utc_clock k) with (Sample.random_numbers k).
    unfold Sample.random_numbers. by destruct (k mod 3) as [|[|]].
  - split; [exact H1|exact H2].
Defined.

Lemma start_loop_bounded (m : Z) fuel w s seen :
  (0 < m)%Z → (Z.of_nat (run_count s) ≤ m)%Z →
  let t := start_loop fuel (Some m) w s seen in
  (Z.of_nat (length (invocations t)) + Z.of_nat (run_count s)
   ≤ Z.of_nat (length seen) + m)%Z
  ∧ (Z.of_nat (run_count (scheduler t)) ≤ m)%Z.
Proof.
  intros Hpos. revert s seen.
  induction fuel as [|fuel IH]; intros s seen Hle; cbn [start_loop].
  - destruct (max_runs_reached (Some m) s); simpl; lia.
  - destruct (max_runs_reached (Some m) s) eqn:Hreached; [simpl; lia|].
    assert (Hlt : (Z.of_nat (run_count s) < m)%Z).
    { unfold max_runs_reached, truthy in Hreached.
      rewrite (proj2 (Z.eqb_neq m 0)) in Hreached by lia.
      simpl in Hreached. apply bool_decide_eq_false_1 in Hreached. lia. }
    rewrite run_once_counted.
    destruct (orchestrator w _) as [r|e|]; cbv iota beta;
      [destruct (pause w _ _) as [| |site]..|];
      try (simpl; rewrite length_app; simpl; lia);
      match goal with |- context [start_loop fuel _ _ ?s1 ?seen1] =>
        destruct (IH s1 seen1) as (H1 & H2) end; [simpl; lia| |simpl; lia|];
      rewrite length_app in H1; simpl in H1; simpl; lia.
Qed.

(** For a positive [max_runs] the scheduler started with [run_count = 0]
    invokes the orchestrator at most [max_runs] times, in every world and
    however long it is observed. *)
Theorem start_positive_max_runs_bounded (m : Z) (fuel : nat) (w : World)
    (base_interval_minutes max_tweets : Z) :
  (0 < m)%Z →
  (Z.of_nat (length (invocations
     (start fuel (Some m) w (init base_interval_minutes max_tweets)))) ≤ m)%Z.
Proof.
  intros Hpos. unfold start.
  destruct (Float.true_divide_overflows _ _); [simpl; lia|].
  destruct (start_loop_bounded m fuel w (init base_interval_minutes max_tweets)
              [] Hpos) as [H _]; simpl; [lia|].
  simpl in H. lia.
Qed.

Lemma start_positive_max_runs_bounded_witness :
  (Z.of_nat (length (invocations
     (start 50 (Some 3%Z) Sample.failing_runs Sample.default_scheduler))) ≤ 3)%Z
  ∧ status (start 50 (Some 3%Z) Sample.failing_runs Sample.default_scheduler)
    = Stopped.
Proof.
  split.
  - apply (start_positive_max_runs_bounded 3 50 Sample.failing_runs 10 10). lia.
  - vm_compute. reflexivity.
Defined.

End SchedulerFacts.

(** * Further properties of the code *)

(** ** The identifier as a token of the address *)

(** The characters of [s] before the first [c]. *)
Fixpoint up_to (c : Ascii.ascii) (s : string) : string :=
  match s with
  | EmptyString => EmptyString
  | String x s' => if Ascii.ascii_dec c x then EmptyString else String x (up_to c s')
  end.

(** No occurrence of [sep] in [a +:+ suffix] starts within [a]. *)
Fixpoint starts_clear (sep a suffix : string) : bool :=
  match a with
  | EmptyString => true
  | String x a' =>
      negb (String.prefix sep (a +:+ suffix)) && starts_clear sep a' suffix
  end.

Section TokenFacts.

Import Py Scraper.

Lemma prefix_empty s : String.prefix "" s = true.
Proof. by destruct s. Qed.

Lemma contains_char_cons (d x : Ascii.ascii) s :
  contains (String d "") (String x s)
  = if Ascii.ascii_dec d x then true else contains (String d "") s.
Proof.
  rewrite contains_unfold. cbn [String.prefix].
  destruct (Ascii.ascii_dec d x); [by rewrite prefix_empty|done].
Qed.

Lemma first_piece_up_to c s :
  first_piece (split (String c "") s) = up_to c s.
Proof.
  unfold split. induction s as [|x s IH]; [done|].
  cbn [split_from String.prefix up_to].
  destruct (Ascii.ascii_dec c x); [by rewrite prefix_empty|].
  pose proof (split_from_not_nil (String c "") 0 s) as Hne.
  destruct (split_from (String c "") 0 s) as [|piece pieces]; [done|].
  unfold first_piece in *. simpl in *. by rewrite IH.
Qed.

Lemma up_to_clear c s : contains (String c "") (up_to c s) = false.
Proof.
  induction s as [|x s IH]; [done|]. cbn [up_to].
  destruct (Ascii.ascii_dec c x) as [|Hne]; [done|].
  rewrite contains_char_cons. by destruct (Ascii.ascii_dec c x).
Qed.

Lemma up_to_keeps_clear c d s :
  contains (String d "") s = false → contains (String d "") (up_to c s) = false.
Proof.
  induction s as [|x s IH]; [done|]. cbn [up_to].
  rewrite contains_char_cons.
  destruct (Ascii.ascii_dec d x); [done|]. intros Hs.
  destruct (Ascii.ascii_dec c x); [done|].
  rewrite contains_char_cons. destruct (Ascii.ascii_dec d x); [done|]. auto.
Qed.

Lemma up_to_app_clear c a b :
  contains (String c "") a = false → up_to c (a +:+ b) = a +:+ up_to c b.
Proof.
  induction a as [|x a IH]; [done|]. intros Ha.
  rewrite contains_char_cons in Ha.
  change (String x a +:+ b) with (String x (a +:+ b)).
  change (String x a +:+ up_to c b) with (String x (a +:+ up_to c b)).
  cbn [up_to]. destruct (Ascii.ascii_dec c x); [done|]. by rewrite IH.
Qed.

(** X2: the identifier [extract_tweet_id_from_url] returns is one token: it
    holds no slash and no question mark. *)
Theorem tweet_id_is_a_token (url id : string) :
  extract_tweet_id_from_url url = Some id →
  contains "/" id = false ∧ contains "?" id = false.
Proof.
  unfold extract_tweet_id_from_url.
  destruct (contains "/status/" url); [|done]. intros [= <-].
  rewrite !first_piece_up_to. split.
  - apply up_to_clear.
  - apply up_to_keeps_clear, up_to_clear.
Qed.

Lemma tweet_id_is_a_token_witness :
  extract_tweet_id_from_url "https://x.com/alice/status/12345/photo/1?s=20"
  = Some "12345"
  ∧ contains "/" "12345" = false ∧ contains "?" "12345" = false.
Proof.
  split; [reflexivity|].
  apply (tweet_id_is_a_token "https://x.com/alice/status/12345/photo/1?s=20").
  reflexivity.
Defined.

End TokenFacts.

Section RoundTripFacts.

Import Py Scraper.

Lemma split_skip sep x r :
  split_from sep (String.length x) (x +:+ r) = split_from sep 0 r.
Proof. induction x as [|c x IH]; [done|]. exact IH. Qed.

(** [split] cuts at the first occurrence of the separator. *)
Lemma split_at_first c0 sep' a r :
  starts_clear (String c0 sep') a (String c0 sep' +:+ r) = true →
  split (String c0 sep') (a +:+ String c0 sep' +:+ r)
  = a :: split (String c0 sep') r.
Proof.
  unfold split. induction a as [|x a IH]; intros Hclear.
  - change ("" +:+ String c0 sep' +:+ r) with (String c0 (sep' +:+ r)).
    cbn [split_from].
    change (String c0 (sep' +:+ r)) with (String c0 sep' +:+ r) at 1.
    rewrite prefix_app. f_equal.
    replace (String.length (String c0 sep') - 1)%nat with (String.length sep')
      by (simpl; lia).
    apply split_skip.
  - cbn [starts_clear] in Hclear.
    apply andb_true_iff in Hclear as [Hhere%negb_true_iff Hclear].
    change (String x a +:+ String c0 sep' +:+ r)
      with (String x (a +:+ String c0 sep' +:+ r)) in *.
    cbn [split_from]. rewrite Hhere, IH by done. done.
Qed.

Lemma split_none sep s : contains sep s = false → split sep s = [s].
Proof.
  unfold split. induction s as [|x s IH]; [done|].
  rewrite contains_unfold. intros [Hhere Hrest]%orb_false_elim.
  cbn [split_from]. by rewrite Hhere, IH.
Qed.

Lemma append_empty s : s +:+ "" = s.
Proof.
  induction s as [|x s IH]; [done|].
  change (String x s +:+ "") with (String x (s +:+ "")). by f_equal.
Qed.

(** An occurrence of the marker that starts within [a] ends within
    [a +:+ "/"]: the marker has one slash at each end and none between. *)
Lemma append_cons x a t : String x a +:+ t = String x (a +:+ t).
Proof. reflexivity. Qed.

Ltac compare_next_character :=
  rewrite !append_cons; cbn [String.prefix];
  match goal with
  | |- context [Ascii.ascii_dec ?c ?y] =>
      destruct (Ascii.ascii_dec c y) as [<-|]; [|reflexivity]
  end.

Lemma prefix_status_boundary x a r :
  String.prefix "/status/" (String x a +:+ "/status/" +:+ r)
  = String.prefix "/status/" (String x a +:+ "/").
Proof.
  compare_next_character.
  do 7 (destruct a as [|? a]; [reflexivity|]; compare_next_character).
  by rewrite !prefix_empty.
Qed.

Lemma starts_clear_status a r :
  contains "/status/" (a +:+ "/") = false →
  starts_clear "/status/" a ("/status/" +:+ r) = true.
Proof.
  induction a as [|x a IH]; [done|].
  change (String x a +:+ "/") with (String x (a +:+ "/")) at 1.
  rewrite contains_unfold.
  change (String x (a +:+ "/")) with (String x a +:+ "/").
  intros [Hhere Hrest]%orb_false_elim.
  cbn [starts_clear]. rewrite prefix_status_boundary, Hhere. auto.
Qed.

Lemma contains_status_after_token id tail :
  contains "/" id = false → contains "/status/" tail = false →
  contains "/status/" (id +:+ tail) = false.
Proof.
  induction id as [|x id IH]; [done|]. intros Hid Htail.
  rewrite contains_char_cons in Hid.
  change (String x id +:+ tail) with (String x (id +:+ tail)).
  rewrite contains_unfold. cbn [String.prefix].
  destruct (Ascii.ascii_dec "/" x); [done|]. by apply IH.
Qed.

(** X3: round trip: [extract_tweet_id_from_url] gives back the token [id] put
    after the marker [/status/], when the address before the marker holds
    no earlier marker (not even one that ends on the slash of this one),
    what follows the token holds none either, and the token ends at the end
    of the address, at a slash or at a question mark. *)
Theorem tweet_id_round_trip (base id tail : string) :
  contains "/status/" (base +:+ "/") = false →
  contains "/" id = false → contains "?" id = false →
  contains "/status/" tail = false →
  tail = "" ∨ String.prefix "/" tail = true ∨ String.prefix "?" tail = true →
  extract_tweet_id_from_url (base +:+ "/status/" +:+ id +:+ tail) = Some id.
Proof.
  intros Hbase Hslash Hquery Htail Hend.
  unfold extract_tweet_id_from_url. rewrite contains_app.
  rewrite (split_at_first "/" "status/") by by apply starts_clear_status.
  rewrite (split_none "/status/" (id +:+ tail))
    by by apply contains_status_after_token.
  change (last_piece [base; id +:+ tail]) with (id +:+ tail).
  rewrite !first_piece_up_to.
  rewrite (up_to_app_clear "?") by done.
  rewrite (up_to_app_clear "/") by done.
  replace (up_to "/" (up_to "?" tail)) with "".
  - by rewrite append_empty.
  - destruct Hend as [->|[Hend|Hend]]; [done| |];
      (destruct tail as [|x tail]; [done|]); cbn [String.prefix] in Hend.
    + destruct (Ascii.ascii_dec "/" x) as [<-|]; [reflexivity|done].
    + destruct (Ascii.ascii_dec "?" x) as [<-|]; [reflexivity|done].
Qed.

Lemma tweet_id_round_trip_witness :
  extract_tweet_id_from_url
    ("https://x.com/alice" +:+ "/status/" +:+ "12345" +:+ "/photo/1?s=20")
  = Some "12345".
Proof.
  apply (tweet_id_round_trip "https://x.com/alice" "12345" "/photo/1?s=20");
    try reflexivity.
  right. left. reflexivity.
Defined.

(** Where the round trip stops: after the handle [status] the marker is
    found one segment early, and the identifier returned is the word
    [status]. *)
Example tweet_id_of_handle_status :
  contains "/status/" ("https://x.com/status" +:+ "/") = true
  ∧ extract_tweet_id_from_url "https://x.com/status/status/12345" = Some "status".
Proof. split; reflexivity. Qed.

End RoundTripFacts.

(** ** What the collection loop returns *)

(** One pass of the [while] loop of [collect_tweets]: the [for] loop over
    the articles on screen, then the scroll when more tweets are wanted. *)
Definition pass (max_tweets : Z) (page : Scraper.Page) (st : Scraper.Loop)
  : Scraper.Loop :=
  let st1 :=
    Scraper.for_elements max_tweets st
      (Scraper.rendered page (Scraper.scroll_attempts st)) in
  if Scraper.wants_more max_tweets st1
  then Scraper.scroll (Scraper.draws page (Scraper.scroll_attempts st1)) st1
  else st1.

(** The record [t] is what the loop body makes of the article [el]. *)
Definition from_element (t : Scraper.Tweet) (el : Scraper.Element) : Prop :=
  ∃ href,
    Scraper.tweet_link el = Some href
    ∧ Scraper.url t = Scraper.absolute_url href
    ∧ Scraper.inner_text el = inr (Scraper.content t)
    ∧ Scraper.extract_tweet_id_from_url (Scraper.url t) = Some (Scraper.tweet_id t)
    ∧ Scraper.tweet_id t ≠ ""
    ∧ Scraper.author t = Scraper.extract_author_from_url (Scraper.url t).

(** The article [el] links to a tweet whose identifier is [id]. *)
Definition shows (el : Scraper.Element) (id : string) : Prop :=
  ∃ href,
    Scraper.tweet_link el = Some href
    ∧ Scraper.extract_tweet_id_from_url (Scraper.absolute_url href) = Some id
    ∧ id ≠ "".

(** The bounds of the two kinds of scroll. *)
Definition within_bands (a : Scraper.PageAction) : Prop :=
  match a with
  | Scraper.ScrollToSmooth dy => (200 ≤ dy ≤ 1000)%Z
  | Scraper.ScrollBy dy => (-150 ≤ dy ≤ -50)%Z
  end.

Definition is_scroll_back (a : Scraper.PageAction) : bool :=
  negb (Scraper.is_smooth_scroll a).

Section LoopFacts.

Import Scraper.

Variable max_tweets : Z.
Variable page : Page.

Lemma while_collecting_unfold fuel st :
  while_collecting (S fuel) max_tweets page st
  = if keeps_collecting max_tweets st
    then while_collecting fuel max_tweets page (pass max_tweets page st)
    else Some st.
Proof. reflexivity. Qed.

(** A property kept by every pass holds when the loop ends. *)
Lemma while_collecting_keeps (P : Loop → Prop) :
  (∀ st, keeps_collecting max_tweets st = true → P st →
         P (pass max_tweets page st)) →
  ∀ fuel st st',
    P st → while_collecting fuel max_tweets page st = Some st' → P st'.
Proof.
  intros Hpass. induction fuel as [|fuel IH]; intros st st' HP.
  - simpl. destruct (keeps_collecting max_tweets st); [done|]. by intros [= <-].
  - rewrite while_collecting_unfold.
    destruct (keeps_collecting max_tweets st) eqn:Hkeep.
    + apply IH. by apply Hpass.
    + by intros [= <-].
Qed.

Lemma falsy_false v :
  falsy v = false → ∃ id, v = Some id ∧ id ≠ "".
Proof. destruct v as [[|c id]|]; try done. intros _. by eexists. Qed.

Lemma absolute_url_http href : Py.startswith "http" (absolute_url href) = true.
Proof.
  unfold absolute_url. destruct (Py.startswith "http" href) eqn:E; [done|].
  reflexivity.
Qed.

(** What the body of the [for] loop does: nothing; or it marks the
    identifier of an article whose text cannot be read; or it records the
    article. *)
Lemma process_element_cases st el :
  process_element st el = st
  ∨ (∃ id e, shows el id ∧ (id ∉ processed_tweet_ids st)
             ∧ inner_text el = inl e
             ∧ tweets_data (process_element st el) = tweets_data st
             ∧ processed_tweet_ids (process_element st el)
               = {[id]} ∪ processed_tweet_ids st)
  ∨ (∃ t, from_element t el
          ∧ (tweet_id t ∉ processed_tweet_ids st)
          ∧ tweets_data (process_element st el) = (tweets_data st ++ [t])%list
          ∧ processed_tweet_ids (process_element st el)
            = {[tweet_id t]} ∪ processed_tweet_ids st).
Proof.
  unfold process_element.
  destruct (tweet_link el) as [href|] eqn:Hlink; [|by left].
  destruct (falsy _) eqn:Hfalsy; [by left|].
  apply falsy_false in Hfalsy as (id & Hid & Hne). rewrite Hid.
  change (default "" (Some id)) with id.
  destruct (bool_decide (id ∈ processed_tweet_ids st)) eqn:Hseen; [by left|].
  apply bool_decide_eq_false_1 in Hseen.
  destruct (inner_text el) as [e|text] eqn:Htext.
  - right. left. exists id, e. split; [by exists href|]. by repeat split.
  - right. right.
    exists {| tweet_id := id; content := text;
              author := extract_author_from_url (absolute_url href);
              url := absolute_url href |}.
    split; [|by repeat split].
    exists href. by repeat split.
Qed.

Lemma process_element_shows st el id :
  shows el id → id ∈ processed_tweet_ids (process_element st el).
Proof.
  intros (href & Hlink & Hid & Hne). unfold process_element.
  rewrite Hlink, Hid. destruct id as [|c id]; [done|]. cbn [falsy].
  change (default "" (Some (String c id))) with (String c id).
  destruct (bool_decide _) eqn:Hseen.
  - by apply bool_decide_eq_true_1 in Hseen.
  - destruct (inner_text el); simpl; set_solver.
Qed.

Lemma process_element_grows st el :
  processed_tweet_ids st ⊆ processed_tweet_ids (process_element st el).
Proof.
  destruct (process_element_cases st el)
    as [->|[(id & e & _ & _ & _ & _ & ->)|(t & _ & _ & _ & ->)]]; set_solver.
Qed.

Lemma for_elements_grows st els :
  processed_tweet_ids st ⊆ processed_tweet_ids (for_elements max_tweets st els).
Proof.
  revert st. induction els as [|el els IH]; intros st; simpl; [done|].
  destruct (wants_more max_tweets st); [|done].
  etrans; [apply (process_element_grows st el)|apply IH].
Qed.

Lemma for_elements_new st els t :
  t ∈ tweets_data (for_elements max_tweets st els) →
  t ∈ tweets_data st ∨ ∃ el, el ∈ els ∧ from_element t el.
Proof.
  revert st. induction els as [|el els IH]; intros st; simpl; [by left|].
  destruct (wants_more max_tweets st); [|by left].
  intros [Ht|(el' & Hel' & Hfrom)]%IH.
  - destruct (process_element_cases st el)
      as [Hsame|[(id & e & _ & _ & _ & Hsame & _)|(t' & Hfrom & _ & Hnew & _)]].
    + left. by rewrite Hsame in Ht.
    + left. by rewrite Hsame in Ht.
    + rewrite Hnew in Ht.
      apply elem_of_app in Ht as [Ht| ->%list_elem_of_singleton]; [by left|].
      right. exists el. split; [left|done].
  - right. exists el'. split; [by right|done].
Qed.

Lemma for_elements_shows st els el id :
  wants_more max_tweets (for_elements max_tweets st els) = true →
  el ∈ els → shows el id →
  id ∈ processed_tweet_ids (for_elements max_tweets st els).
Proof.
  revert st. induction els as [|el' els IH]; intros st Hmore Hel Hshows.
  - by apply elem_of_nil in Hel.
  - simpl in *. destruct (wants_more max_tweets st) eqn:Hst; [|congruence].
    apply elem_of_cons in Hel as [->|Hel].
    + apply for_elements_grows. by apply process_element_shows.
    + by apply IH.
Qed.

Lemma pass_tweets st :
  tweets_data (pass max_tweets page st)
  = tweets_data (for_elements max_tweets st (rendered page (scroll_attempts st)))
  ∧ processed_tweet_ids (pass max_tweets page st)
    = processed_tweet_ids
        (for_elements max_tweets st (rendered page (scroll_attempts st))).
Proof. unfold pass. by destruct (wants_more _ _). Qed.

(** Every record in the list came from an article of a page the loop
    looked at. *)
Definition rendered_records (st : Loop) : Prop :=
  ∀ t, t ∈ tweets_data st →
       ∃ k el, (k < max_scroll_attempts)%nat
               ∧ el ∈ rendered page k ∧ from_element t el.

Lemma pass_rendered_records st :
  keeps_collecting max_tweets st = true →
  rendered_records st → rendered_records (pass max_tweets page st).
Proof.
  intros [_ Hlt%bool_decide_eq_true_1]%andb_true_iff Hst t.
  rewrite (proj1 (pass_tweets st)).
  intros [Ht|(el & Hel & Hfrom)]%for_elements_new; [by apply Hst|].
  by exists (scroll_attempts st), el.
Qed.

(** The loop ends, and what every pass keeps holds at its end. *)
Lemma while_collecting_ends_with (P : Loop → Prop) :
  (∀ st, keeps_collecting max_tweets st = true → P st →
         P (pass max_tweets page st)) →
  ∀ fuel st,
    loop_inv max_tweets st → P st →
    (max_scroll_attempts - scroll_attempts st ≤ fuel)%nat →
    ∃ st', while_collecting fuel max_tweets page st = Some st'
           ∧ loop_inv max_tweets st'
           ∧ keeps_collecting max_tweets st' = false
           ∧ P st'.
Proof.
  intros Hpass fuel st Hinv HP Hfuel.
  destruct (while_collecting_ends max_tweets page fuel st Hinv Hfuel)
    as (st' & Hrun & Hinv' & Hexit).
  exists st'. split; [done|]. split; [done|]. split; [done|].
  exact (while_collecting_keeps P Hpass fuel st st' HP Hrun).
Qed.

Lemma collect_tweets_rendered_records :
  ∃ st, collect_tweets max_tweets page = Some st
        ∧ loop_inv max_tweets st
        ∧ keeps_collecting max_tweets st = false
        ∧ rendered_records st.
Proof.
  apply (while_collecting_ends_with rendered_records pass_rendered_records).
  - apply start_of_loop_inv.
  - intros t Ht. by apply elem_of_nil in Ht.
  - apply Nat.le_sub_l.
Qed.

End LoopFacts.

Section LoopExtras.

Import Scraper.

(** X4: the fields of every record [collect_tweets] returns agree: the
    identifier is the non-empty one extracted from the recorded address, the
    author is the one extracted from it, and the address is absolute. *)
Theorem collected_records_are_consistent (max_tweets : Z) (page : Page) :
  ∃ st, collect_tweets max_tweets page = Some st
        ∧ ∀ t, t ∈ tweets_data st →
               tweet_id t ≠ ""
               ∧ extract_tweet_id_from_url (url t) = Some (tweet_id t)
               ∧ author t = extract_author_from_url (url t)
               ∧ Py.startswith "http" (url t) = true.
Proof.
  destruct (collect_tweets_rendered_records max_tweets page)
    as (st & Hrun & _ & _ & Hfrom).
  exists st. split; [done|]. intros t Ht.
  destruct (Hfrom t Ht) as (k & el & _ & _ & href & _ & Hurl & _ & Hid & Hne & Hauthor).
  repeat split; try done. rewrite Hurl. apply absolute_url_http.
Qed.

(** X5: every record [collect_tweets] returns was on screen: one of the
    articles rendered after at most 19 scrolls links to its address and has
    its content as text. *)
Theorem collected_records_were_rendered (max_tweets : Z) (page : Page) :
  ∃ st, collect_tweets max_tweets page = Some st
        ∧ ∀ t, t ∈ tweets_data st →
               ∃ k el href,
                 (k < 20)%nat ∧ el ∈ rendered page k
                 ∧ tweet_link el = Some href
                 ∧ url t = absolute_url href
                 ∧ inner_text el = inr (content t).
Proof.
  destruct (collect_tweets_rendered_records max_tweets page)
    as (st & Hrun & _ & _ & Hfrom).
  exists st. split; [done|]. intros t Ht.
  destruct (Hfrom t Ht) as (k & el & Hk & Hel & href & Hlink & Hurl & Htext & _).
  by exists k, el, href.
Qed.

(** X6: [collect_tweets] stops for one of two reasons only: the list is full
    (it holds [max_tweets] records, none when [max_tweets] is negative), or
    all 20 scroll cycles were made. *)
Theorem collect_stops_full_or_exhausted (max_tweets : Z) (page : Page) :
  ∃ st, collect_tweets max_tweets page = Some st
        ∧ (Z.of_nat (length (tweets_data st)) = Z.max 0 max_tweets
           ∨ (scroll_attempts st = 20%nat ∧ scroll_cycles st = 20%nat)).
Proof.
  destruct (collect_tweets_ends max_tweets page) as (st & Hrun & Hinv & Hexit).
  exists st. split; [done|]. destruct Hinv as [_ _ Hcount Hcyc Hatt].
  apply andb_false_iff in Hexit as [Hfull|Hspent].
  - left. apply bool_decide_eq_false_1 in Hfull. lia.
  - right. apply bool_decide_eq_false_1 in Hspent.
    unfold max_scroll_attempts in *. lia.
Qed.

End LoopExtras.

(** ** What the collection loop leaves out, and how it scrolls *)

Section CoverageFacts.

Import Scraper.

Variable max_tweets : Z.
Variable page : Page.

(** Every identifier shown on a page the loop has scrolled past is in the
    set of processed identifiers. *)
Definition pages_processed (st : Loop) : Prop :=
  ∀ k el id,
    (k < scroll_attempts st)%nat → el ∈ rendered page k → shows el id →
    id ∈ processed_tweet_ids st.

Lemma pass_pages_processed st :
  keeps_collecting max_tweets st = true →
  pages_processed st → pages_processed (pass max_tweets page st).
Proof.
  intros _ Hst k el id Hk Hel Hshows. unfold pass in *.
  set (st1 := for_elements max_tweets st (rendered page (scroll_attempts st))) in *.
  assert (Hatt : scroll_attempts st1 = scroll_attempts st)
    by apply for_elements_attempts.
  assert (Hgrows : processed_tweet_ids st ⊆ processed_tweet_ids st1)
    by apply for_elements_grows.
  destruct (wants_more max_tweets st1) eqn:Hmore.
  - simpl in *. rewrite Hatt in Hk.
    destruct (decide (k = scroll_attempts st)) as [->|Hne].
    + by apply (for_elements_shows max_tweets st _ el).
    + apply Hgrows, (Hst k el); [lia|done..].
  - rewrite Hatt in Hk. by apply Hgrows, (Hst k el).
Qed.

(** Every processed identifier is the identifier of a record. *)
Definition all_recorded (st : Loop) : Prop :=
  ∀ id, id ∈ processed_tweet_ids st → id ∈ tweet_id <$> tweets_data st.

Lemma process_element_all_recorded st el text :
  inner_text el = inr text →
  all_recorded st → all_recorded (process_element st el).
Proof.
  intros Htext Hst id.
  destruct (process_element_cases st el)
    as [->|[(id' & e & _ & _ & Hfail & _)|(t & _ & _ & -> & ->)]];
    [apply Hst|congruence|].
  rewrite fmap_app, elem_of_app. simpl.
  intros [->%elem_of_singleton|Hid]%elem_of_union; [right; left|left; auto].
Qed.

Lemma for_elements_all_recorded st els :
  (∀ el, el ∈ els → ∃ text, inner_text el = inr text) →
  all_recorded st → all_recorded (for_elements max_tweets st els).
Proof.
  revert st. induction els as [|el els IH]; intros st Hread Hst; simpl; [done|].
  destruct (wants_more max_tweets st); [|done].
  apply IH; [intros el' Hel'; apply Hread; by right|].
  destruct (Hread el) as [text Htext]; [left|].
  by apply (process_element_all_recorded st el text).
Qed.

Lemma pass_all_recorded st :
  (∀ k el, el ∈ rendered page k → ∃ text, inner_text el = inr text) →
  keeps_collecting max_tweets st = true →
  all_recorded st → all_recorded (pass max_tweets page st).
Proof.
  intros Hread _ Hst id. destruct (pass_tweets max_tweets page st) as [-> ->].
  apply for_elements_all_recorded; [apply Hread|done].
Qed.

(** The scrolls sent so far keep to their bands, and no more scrolls back
    were sent than scrolls down. *)
Definition scrolls_in_bands (st : Loop) : Prop :=
  Forall within_bands (actions st)
  ∧ (length (List.filter is_scroll_back (actions st)) ≤ scroll_cycles st)%nat.

Lemma randint_in_range lo hi entropy :
  (lo ≤ hi)%Z → (lo ≤ randint lo hi entropy ≤ hi)%Z.
Proof.
  intros Hle. unfold randint.
  pose proof (Z.mod_pos_bound (Z.of_nat entropy) (hi - lo + 1)). lia.
Qed.

Lemma scroll_amount_in_band d : (200 ≤ scroll_amount d ≤ 1000)%Z.
Proof.
  unfold scroll_amount. destruct (scroll_pattern d).
  - pose proof (randint_in_range 200 400 (scroll_entropy d)). lia.
  - pose proof (randint_in_range 400 700 (scroll_entropy d)). lia.
  - pose proof (randint_in_range 700 1000 (scroll_entropy d)). lia.
Qed.

Lemma pass_scrolls_in_bands st :
  keeps_collecting max_tweets st = true →
  scrolls_in_bands st → scrolls_in_bands (pass max_tweets page st).
Proof.
  intros _ [Hbands Hback]. unfold pass, scrolls_in_bands, scroll_cycles in *.
  set (st1 := for_elements max_tweets st (rendered page (scroll_attempts st))).
  assert (Hact : actions st1 = actions st) by apply for_elements_attempts.
  destruct (wants_more max_tweets st1); [|by rewrite Hact].
  simpl. rewrite Hact. split.
  - apply Forall_app. split; [done|]. apply Forall_cons. split.
    + apply scroll_amount_in_band.
    + destruct (scrolls_back _); [|done]. apply Forall_cons. split; [|done].
      simpl. pose proof (randint_in_range 50 150 (back_entropy
        (draws page (scroll_attempts st1)))). lia.
  - rewrite !List.filter_app, !length_app. simpl.
    destruct (scrolls_back _); simpl; lia.
Qed.

End CoverageFacts.

Module Cases.

Import Scraper.

(** A page whose first article cannot be read before the first scroll and
    can be read afterwards. *)
Definition flaky_page : Page :=
  {| rendered := λ k,
       match k with
       | 0 => [ {| tweet_link := Some "/alice/status/1";
                   inner_text := inl Py.BrowserError |};
                Sample.article "/bob/status/2" "two" ]
       | _ => [ Sample.article "/alice/status/1" "one";
                Sample.article "/bob/status/2" "two" ]
       end;
     draws := draws Sample.empty_page |}.

End Cases.

Section CoverageExtras.

Import Scraper.

Lemma collect_tweets_eq max_tweets page :
  collect_tweets max_tweets page
  = while_collecting max_scroll_attempts max_tweets page start_of_loop.
Proof. reflexivity. Qed.

(** X7: when every article on screen can be read, [collect_tweets] misses
    nothing: if it returns fewer than [max_tweets] records, then every
    identifier shown by an article of one of the 20 pages it looked at is
    the identifier of a returned record. *)
Theorem collect_misses_nothing (max_tweets : Z) (page : Page) :
  (∀ k el, el ∈ rendered page k → ∃ text, inner_text el = inr text) →
  ∃ st, collect_tweets max_tweets page = Some st
        ∧ ((Z.of_nat (length (tweets_data st)) < max_tweets)%Z →
           ∀ k el id,
             (k < 20)%nat → el ∈ rendered page k → shows el id →
             id ∈ tweet_id <$> tweets_data st).
Proof.
  intros Hread.
  destruct (while_collecting_ends_with max_tweets page
              (λ st, pages_processed page st ∧ all_recorded st))
    with (fuel := max_scroll_attempts) (st := start_of_loop)
    as (st & Hrun & Hinv & Hexit & Hpages & Hall).
  - intros st Hkeep [Hpages Hall]. split.
    + by apply pass_pages_processed.
    + by apply pass_all_recorded.
  - apply start_of_loop_inv.
  - split.
    + intros k el id Hk. simpl in Hk. lia.
    + intros id Hid. by apply not_elem_of_empty in Hid.
  - apply Nat.le_sub_l.
  - exists st. split; [by rewrite collect_tweets_eq|].
    intros Hshort k el id Hk Hel Hshows. apply Hall, (Hpages k el); [|done..].
    apply andb_false_iff in Hexit as [Hfull|Hspent].
    + apply bool_decide_eq_false_1 in Hfull. lia.
    + apply bool_decide_eq_false_1 in Hspent.
      unfold max_scroll_attempts in Hspent. lia.
Qed.

(** X8: every scroll [collect_tweets] sends keeps to its band: a smooth scroll
    moves down by 200 to 1000 pixels, a scroll back moves up by 50 to 150,
    and there are no more scrolls back than scroll cycles. *)
Theorem scrolls_stay_in_bands (max_tweets : Z) (page : Page) :
  ∃ st, collect_tweets max_tweets page = Some st
        ∧ Forall within_bands (actions st)
        ∧ (length (List.filter is_scroll_back (actions st)) ≤ scroll_cycles st)%nat.
Proof.
  destruct (while_collecting_ends_with max_tweets page scrolls_in_bands
              (pass_scrolls_in_bands max_tweets page))
    with (fuel := max_scroll_attempts) (st := start_of_loop)
    as (st & Hrun & _ & _ & Hbands & Hback).
  - apply start_of_loop_inv.
  - split; [apply Forall_nil_2|simpl; lia].
  - apply Nat.le_sub_l.
  - exists st. split; [by rewrite collect_tweets_eq|done].
Qed.

Lemma collect_misses_nothing_witness :
  ∃ st, collect_tweets 10 Sample.recycling_page = Some st
        ∧ "3" ∈ tweet_id <$> tweets_data st.
Proof.
  destruct (collect_misses_nothing 10 Sample.recycling_page)
    as (st & Hrun & Hall).
  { intros k el Hel. destruct k as [|[|k]]; simpl in Hel;
      repeat (apply elem_of_cons in Hel as [->|Hel]; [by eexists|]);
      by apply elem_of_nil in Hel. }
  exists st. split; [exact Hrun|].
  apply (Hall) with (k := 1%nat) (el := Sample.article "/carol/status/3" "three").
  - vm_compute in Hrun. injection Hrun as <-. simpl. lia.
  - lia.
  - simpl. right. left.
  - exists "/carol/status/3". split; [reflexivity|]. split; [reflexivity|].
    discriminate.
Defined.

(** The identifier [id] was processed and no record has it. *)
Definition dropped (id : string) (st : Loop) : Prop :=
  id ∈ processed_tweet_ids st ∧ id ∉ tweet_id <$> tweets_data st.

Lemma process_element_dropped id st el :
  dropped id st → dropped id (process_element st el).
Proof.
  intros [Hin Hout].
  destruct (process_element_cases st el)
    as [->|[(id' & e & _ & _ & _ & Htweets & Hset)|(t & _ & Hnew & Htweets & Hset)]];
    [done| |]; split.
  - rewrite Hset. by apply elem_of_union_r.
  - by rewrite Htweets.
  - rewrite Hset. by apply elem_of_union_r.
  - rewrite Htweets, fmap_app, elem_of_app. simpl.
    intros [?|Heq%list_elem_of_singleton]; [done|]. congruence.
Qed.

Lemma for_elements_dropped max_tweets id st els :
  dropped id st → dropped id (for_elements max_tweets st els).
Proof.
  revert st. induction els as [|el els IH]; intros st Hst; simpl; [done|].
  destruct (wants_more max_tweets st); [|done].
  by apply IH, process_element_dropped.
Qed.

Lemma pass_dropped max_tweets page id st :
  dropped id st → dropped id (pass max_tweets page st).
Proof.
  intros Hst. unfold dropped.
  destruct (pass_tweets max_tweets page st) as [-> ->].
  by apply for_elements_dropped.
Qed.

(** X9: an article that cannot be read costs its tweet for the whole session:
    when the first article on screen shows an identifier and reading its
    text raises, [collect_tweets] returns no record with that identifier,
    whatever the later pages show. *)
Theorem unreadable_first_article_is_dropped (max_tweets : Z) (page : Page)
    (el : Element) (rest : list Element) (id : string) (e : Py.exn) :
  (0 < max_tweets)%Z →
  rendered page 0 = el :: rest →
  shows el id → inner_text el = inl e →
  ∃ st, collect_tweets max_tweets page = Some st
        ∧ id ∉ tweet_id <$> tweets_data st.
Proof.
  intros Hpos Hpage (href & Hlink & Hid & Hne) Htext.
  destruct (collect_tweets_ends max_tweets page) as (st & Hrun & _).
  exists st. split; [done|].
  rewrite collect_tweets_eq in Hrun.
  change max_scroll_attempts with (S 19) in Hrun.
  rewrite while_collecting_unfold in Hrun.
  assert (Hmore : wants_more max_tweets start_of_loop = true).
  { unfold wants_more. apply bool_decide_eq_true_2. simpl. lia. }
  assert (Hkeep : keeps_collecting max_tweets start_of_loop = true).
  { unfold keeps_collecting. by rewrite Hmore. }
  rewrite Hkeep in Hrun.
  assert (Hfirst : dropped id (pass max_tweets page start_of_loop)).
  { unfold dropped. destruct (pass_tweets max_tweets page start_of_loop) as [-> ->].
    change (scroll_attempts start_of_loop) with 0%nat. rewrite Hpage.
    cbn [for_elements]. rewrite Hmore.
    apply for_elements_dropped. unfold process_element.
    rewrite Hlink, Hid. destruct id as [|c id]; [done|]. cbn [falsy].
    change (default "" (Some (String c id))) with (String c id).
    rewrite bool_decide_eq_false_2 by apply not_elem_of_empty.
    rewrite Htext. split; simpl;
      [by apply elem_of_union_l, elem_of_singleton|apply not_elem_of_nil]. }
  apply (while_collecting_keeps max_tweets page (dropped id)
           (λ st' _ H, pass_dropped max_tweets page id st' H)
           _ _ _ Hfirst Hrun).
Qed.

Lemma unreadable_first_article_is_dropped_witness :
  ∃ st, collect_tweets 10 Cases.flaky_page = Some st
        ∧ "1" ∉ tweet_id <$> tweets_data st.
Proof.
  apply (unreadable_first_article_is_dropped 10 Cases.flaky_page
           {| tweet_link := Some "/alice/status/1";
              inner_text := inl Py.BrowserError |}
           [Sample.article "/bob/status/2" "two"] "1" Py.BrowserError).
  - lia.
  - reflexivity.
  - exists "/alice/status/1". split; [reflexivity|]. split; [reflexivity|].
    discriminate.
  - reflexivity.
Defined.

(** The flaky page, run: the tweet of the unreadable article is missing
    although the article is readable on every later page. *)
Example collect_flaky_page :
  (map tweet_id <$> (tweets_data <$> collect_tweets 10 Cases.flaky_page))
  = Some ["2"].
Proof. vm_compute. reflexivity. Qed.

End CoverageExtras.

(** ** What a run writes to the store *)

(** The store answers every request. *)
Definition answers (s : Scraper.State) : Prop :=
  ∀ k c, Scraper.faults (Scraper.supabase s) k c = None.

Section StoreFacts.

Import Scraper.

Lemma insert_ok data db u :
  fst (insert data db) = inr u →
  (row_tweet_id data ∉ ids db)
  ∧ rows (snd (insert data db)) = (rows db ++ [data])%list.
Proof.
  unfold insert. destruct (faults db _ _); [done|].
  destruct (bool_decide (row_tweet_id data ∈ ids db)) eqn:E; [done|].
  intros _. split; [by apply bool_decide_eq_false_1 in E|done].
Qed.

(** One [save_tweet], under any failure of the store: it returns [False]
    and leaves the rows as they were, or it returns [True] and has added
    the one row, whose identifier was not in the table. *)
Lemma save_tweet_rows id content author url s :
  let data := {| row_tweet_id := id; row_content := content;
                 row_author := author; row_tweet_url := url |} in
  let r := save_tweet id content author url s in
  (fst r = false ∧ rows (supabase (snd r)) = rows (supabase s))
  ∨ (fst r = true ∧ (id ∉ ids (supabase s))
     ∧ rows (supabase (snd r)) = (rows (supabase s) ++ [data])%list).
Proof.
  intros data r. subst r. unfold save_tweet.
  pose proof (is_duplicate_store id s) as Hdb.
  destruct (is_duplicate id s) as [dup s1]. simpl in Hdb.
  destruct dup; [left; simpl; by rewrite Hdb|].
  fold data.
  pose proof (insert_failed data (supabase s1)) as Hfailed.
  pose proof (insert_ok data (supabase s1)) as Hok.
  destruct (insert data (supabase s1)) as [[e|u] db]; simpl in *.
  - left. specialize (Hfailed e eq_refl). rewrite Hdb in Hfailed.
    by destruct (names_constraint (str e)).
  - right. destruct (Hok u eq_refl) as [Hnew Hrows]. rewrite Hdb in Hnew, Hrows.
    by repeat split.
Qed.

Lemma save_all_rows tweets a b s :
  ∃ added,
    rows (supabase (snd (save_all tweets a b s)))
    = (rows (supabase s) ++ added)%list
    ∧ fst (fst (save_all tweets a b s)) = (a + length added)%nat
    ∧ (∀ row, row ∈ added → ∃ t, t ∈ tweets ∧ row = row_of t)
    ∧ (NoDup (ids (supabase s)) →
       NoDup (ids (supabase (snd (save_all tweets a b s))))).
Proof.
  revert a b s. induction tweets as [|t tweets IH]; intros a b s.
  - exists []. simpl. rewrite app_nil_r. repeat split; [lia| |done].
    intros row Hrow. by apply elem_of_nil in Hrow.
  - simpl.
    pose proof (save_tweet_rows (tweet_id t) (content t) (author t) (url t) s)
      as Hone. cbv zeta in Hone.
    destruct (save_tweet _ _ _ _ s) as [ok s1]. simpl in Hone.
    destruct Hone as [[-> Hrows]|(-> & Hnew & Hrows)].
    + destruct (IH a (b + 1)%nat s1) as (added & Hr & Hc & Hfrom & Huniq).
      exists added. rewrite Hr, Hrows.
      split; [reflexivity|]. split; [exact Hc|]. split.
      * intros row Hrow. destruct (Hfrom row Hrow) as (t' & Ht' & ->).
        exists t'. split; [by right|done].
      * intros Hnodup. apply Huniq. unfold ids. by rewrite Hrows.
    + destruct (IH (a + 1)%nat b s1) as (added & Hr & Hc & Hfrom & Huniq).
      exists (row_of t :: added). rewrite Hr, Hrows, <- app_assoc.
      split; [reflexivity|]. split; [rewrite Hc; simpl; lia|]. split.
      * intros row [->|Hrow]%elem_of_cons; [exists t; split; [left|done]|].
        destruct (Hfrom row Hrow) as (t' & Ht' & ->).
        exists t'. split; [by right|done].
      * intros Hnodup. apply Huniq. unfold ids. rewrite Hrows, fmap_app.
        apply NoDup_app. split; [done|]. split; [|apply NoDup_singleton].
        intros x Hx ->%list_elem_of_singleton. by apply Hnew.
Qed.

(** The collected tweets whose identifier the table does not hold. *)
Definition new_tweets (s : State) (tweets : list Tweet) : list Tweet :=
  filter (λ t, tweet_id t ∉ ids (supabase s)) tweets.

Lemma new_tweets_same_ids s s' tweets :
  (∀ t, t ∈ tweets →
        tweet_id t ∈ ids (supabase s') ↔ tweet_id t ∈ ids (supabase s)) →
  new_tweets s' tweets = new_tweets s tweets.
Proof.
  unfold new_tweets. induction tweets as [|t tweets IH]; intros Hsame; [done|].
  rewrite !filter_cons.
  rewrite IH by (intros t' Ht'; apply Hsame; by right).
  destruct (decide (tweet_id t ∉ ids (supabase s')));
    destruct (decide (tweet_id t ∉ ids (supabase s))); try done;
    exfalso; pose proof (Hsame t (list_elem_of_here _ _)); tauto.
Qed.

Lemma new_tweets_none s tweets :
  (∀ t, t ∈ tweets → tweet_id t ∈ ids (supabase s)) →
  new_tweets s tweets = [].
Proof.
  unfold new_tweets. induction tweets as [|t tweets IH]; intros Hall; [done|].
  rewrite filter_cons, decide_False.
  - apply IH. intros t' Ht'. apply Hall. by right.
  - intros Hnew. apply Hnew, Hall. left.
Qed.

Lemma new_tweets_cons_old s t tweets :
  tweet_id t ∈ ids (supabase s) →
  new_tweets s (t :: tweets) = new_tweets s tweets.
Proof.
  intros Hin. unfold new_tweets. rewrite filter_cons, decide_False; tauto.
Qed.

Lemma new_tweets_cons_new s t tweets :
  tweet_id t ∉ ids (supabase s) →
  new_tweets s (t :: tweets) = t :: new_tweets s tweets.
Proof. intros Hnew. unfold new_tweets. by rewrite filter_cons, decide_True. Qed.

(** The saving loop on a store that answers: the new tweets are saved, in
    order, and the others are skipped. *)
Lemma save_all_answers tweets a b s :
  answers s → NoDup (tweet_id <$> tweets) →
  rows (supabase (snd (save_all tweets a b s)))
  = (rows (supabase s) ++ (row_of <$> new_tweets s tweets))%list
  ∧ fst (save_all tweets a b s)
    = ((a + length (new_tweets s tweets))%nat,
       (b + (length tweets - length (new_tweets s tweets)))%nat)
  ∧ answers (snd (save_all tweets a b s)).
Proof.
  revert a b s. induction tweets as [|t tweets IH]; intros a b s Hans Hnodup.
  - simpl. rewrite app_nil_r. repeat split; [f_equal; lia|done].
  - apply NoDup_cons in Hnodup as [Hfirst Hnodup]. simpl.
    pose proof (length_filter (λ t, tweet_id t ∉ ids (supabase s)) tweets) as Hlen.
    fold (new_tweets s tweets) in Hlen.
    destruct (decide (tweet_id t ∈ ids (supabase s))) as [Hin|Hnew].
    + rewrite save_tweet_after_hit by auto.
      set (s1 := {| supabase := _; logged := _ |}).
      destruct (IH a (b + 1)%nat s1) as (Hrows & Hcount & Hans'); [done..|].
      assert (Hsame : new_tweets s1 tweets = new_tweets s tweets) by done.
      rewrite Hsame in *. rewrite new_tweets_cons_old by done.
      rewrite Hrows, Hcount. repeat split; [f_equal; lia|done].
    + rewrite save_tweet_fresh by auto.
      set (s1 := {| supabase := _; logged := _ |}).
      destruct (IH (a + 1)%nat b s1) as (Hrows & Hcount & Hans'); [done..|].
      assert (Hsame : new_tweets s1 tweets = new_tweets s tweets).
      { apply new_tweets_same_ids. intros t' Ht'. unfold ids. simpl.
        rewrite fmap_app, elem_of_app. simpl. split; [|by left].
        intros [?|Heq%list_elem_of_singleton]; [done|].
        exfalso. apply Hfirst. rewrite <- Heq. by apply list_elem_of_fmap_2. }
      rewrite Hsame in *. rewrite new_tweets_cons_new by done.
      rewrite Hrows, Hcount. simpl. rewrite <- app_assoc.
      repeat split; [f_equal; lia|done].
Qed.

End StoreFacts.

Section StoreExtras.

Import Scraper.

(** X11: whatever the store does, a completed run only appends: the rows of the
    table afterwards are the rows before followed by the rows added, each
    added row is the row of a collected tweet, and [saved] is their
    number. *)
Theorem saved_counts_rows_added (max_tweets : Z) (b : Browser) (s s' : State)
    (r : RunResult) :
  scrape_and_save max_tweets b s = Some (inr r, s') →
  ∃ added,
    rows (supabase s') = (rows (supabase s) ++ added)%list
    ∧ saved r = length added
    ∧ ∀ row, row ∈ added → ∃ t, t ∈ tweets r ∧ row = row_of t.
Proof.
  unfold scrape_and_save.
  destruct (launch_fails b); [done|].
  destruct (collect_tweets max_tweets (timeline b)) as [st|]; [|done].
  destruct (save_all_rows (tweets_data st) 0 0 s) as (added & Hrows & Hcount & Hfrom & _).
  destruct (save_all (tweets_data st) 0 0 s) as [[a' b'] s1].
  intros [= <- <-]. exists added. simpl in *. by repeat split.
Qed.

Lemma saved_counts_rows_added_witness :
  match scrape_and_save 10 (Sample.browser_on Sample.recycling_page)
          Sample.stored with
  | Some (inr r, s') =>
      ∃ added, rows (supabase s') = (rows (supabase Sample.stored) ++ added)%list
               ∧ saved r = length added
  | _ => False
  end.
Proof.
  destruct (scrape_and_save 10 (Sample.browser_on Sample.recycling_page)
              Sample.stored) as [[[e|r] s']|] eqn:E.
  - vm_compute in E. discriminate.
  - destruct (saved_counts_rows_added _ _ _ _ _ E) as (added & Hrows & Hcount & _).
    exists added. split; [exact Hrows|exact Hcount].
  - vm_compute in E. discriminate.
Defined.

(** The run on a store that answers, in full. *)
Lemma scrape_and_save_answers max_tweets b s r s' :
  answers s →
  scrape_and_save max_tweets b s = Some (inr r, s') →
  rows (supabase s')
  = (rows (supabase s) ++ (row_of <$> new_tweets s (tweets r)))%list
  ∧ saved r = length (new_tweets s (tweets r))
  ∧ skipped_duplicates r
    = (length (tweets r) - length (new_tweets s (tweets r)))%nat
  ∧ NoDup (tweet_id <$> tweets r)
  ∧ answers s'.
Proof.
  intros Hans Hrun. unfold scrape_and_save in Hrun.
  destruct (launch_fails b); [done|].
  destruct (collect_tweets_ends max_tweets (timeline b)) as (st & Hcollect & Hinv & _).
  rewrite Hcollect in Hrun.
  destruct (save_all_answers (tweets_data st) 0 0 s Hans (inv_distinct _ _ Hinv))
    as (Hrows & Hcount & Hans').
  destruct (save_all (tweets_data st) 0 0 s) as [[a' b'] s1].
  injection Hrun as <- <-. simpl in *. injection Hcount as -> ->.
  repeat split; try done. apply Hinv.
Qed.

(** X12: on a store that answers, a completed run saves exactly the collected
    tweets whose identifier the table did not hold, in the order collected,
    and skips the others. *)
Theorem run_saves_exactly_the_new_tweets (max_tweets : Z) (b : Browser)
    (s s' : State) (r : RunResult) :
  answers s →
  scrape_and_save max_tweets b s = Some (inr r, s') →
  rows (supabase s')
  = (rows (supabase s) ++ (row_of <$> new_tweets s (tweets r)))%list
  ∧ saved r = length (new_tweets s (tweets r))
  ∧ skipped_duplicates r = (length (tweets r) - saved r)%nat.
Proof.
  intros Hans Hrun.
  destruct (scrape_and_save_answers _ _ _ _ _ Hans Hrun)
    as (Hrows & Hsaved & Hskipped & _).
  rewrite Hsaved. by repeat split.
Qed.

Lemma run_saves_exactly_the_new_tweets_witness :
  match scrape_and_save 10 (Sample.browser_on Sample.recycling_page)
          Sample.fresh with
  | Some (inr r, s') =>
      saved r = 3%nat ∧ skipped_duplicates r = 0%nat
      ∧ rows (supabase s') = row_of <$> tweets r
  | _ => False
  end.
Proof.
  destruct (scrape_and_save 10 (Sample.browser_on Sample.recycling_page)
              Sample.fresh) as [[[e|r] s']|] eqn:E.
  - vm_compute in E. discriminate.
  - destruct (run_saves_exactly_the_new_tweets 10
                (Sample.browser_on Sample.recycling_page) Sample.fresh s' r)
      as (Hrows & Hsaved & Hskipped); [intros k c; reflexivity|exact E|].
    vm_compute in E. injection E as <- <-.
    split; [reflexivity|]. split; reflexivity.
  - vm_compute in E. discriminate.
Defined.

(** X13: idempotence across runs: on a store that answers, a run that sees the
    same page as the run before it collects the same tweets, saves none of
    them, counts them all as skipped, and leaves the table as it was. *)
Theorem second_run_saves_nothing (max_tweets : Z) (b : Browser)
    (s s1 : State) (r1 : RunResult) :
  answers s →
  scrape_and_save max_tweets b s = Some (inr r1, s1) →
  ∃ r2 s2,
    scrape_and_save max_tweets b s1 = Some (inr r2, s2)
    ∧ tweets r2 = tweets r1
    ∧ saved r2 = 0%nat
    ∧ skipped_duplicates r2 = total_collected r2
    ∧ rows (supabase s2) = rows (supabase s1).
Proof.
  intros Hans Hrun.
  destruct (scrape_and_save_answers _ _ _ _ _ Hans Hrun)
    as (Hrows & _ & _ & _ & Hans1).
  assert (Hsecond : ∃ r2 s2,
            scrape_and_save max_tweets b s1 = Some (inr r2, s2)
            ∧ tweets r2 = tweets r1
            ∧ total_collected r2 = length (tweets r2)).
  { unfold scrape_and_save in *.
    destruct (launch_fails b); [done|].
    destruct (collect_tweets max_tweets (timeline b)) as [st|]; [|done].
    destruct (save_all (tweets_data st) 0 0 s) as [[a' b'] s'].
    injection Hrun as <- _.
    destruct (save_all (tweets_data st) 0 0 s1) as [[a2 b2] s2].
    by eexists _, _. }
  destruct Hsecond as (r2 & s2 & Hrun2 & Htweets & Htotal).
  exists r2, s2. split; [done|]. split; [done|].
  destruct (scrape_and_save_answers _ _ _ _ _ Hans1 Hrun2)
    as (Hrows2 & Hsaved2 & Hskipped2 & _).
  assert (Hnone : new_tweets s1 (tweets r2) = []).
  { apply new_tweets_none. intros t Ht. rewrite Htweets in Ht.
    unfold ids. rewrite Hrows, fmap_app, elem_of_app.
    destruct (decide (tweet_id t ∈ ids (supabase s))) as [Hin|Hnew]; [by left|].
    right. rewrite <- list_fmap_compose.
    apply (list_elem_of_fmap_2 (row_tweet_id ∘ row_of)).
    unfold new_tweets. by apply list_elem_of_filter. }
  rewrite Hnone in *. simpl in *. rewrite app_nil_r in Hrows2.
  repeat split; [done| |done]. rewrite Hskipped2, Htotal. lia.
Qed.

Lemma second_run_saves_nothing_witness :
  match scrape_and_save 10 (Sample.browser_on Sample.recycling_page)
          Sample.fresh with
  | Some (inr r1, s1) =>
      saved r1 = 3%nat
      ∧ ∃ r2 s2,
          scrape_and_save 10 (Sample.browser_on Sample.recycling_page) s1
          = Some (inr r2, s2)
          ∧ saved r2 = 0%nat ∧ skipped_duplicates r2 = total_collected r2
  | _ => False
  end.
Proof.
  destruct (scrape_and_save 10 (Sample.browser_on Sample.recycling_page)
              Sample.fresh) as [[[e|r1] s1]|] eqn:E.
  - vm_compute in E. discriminate.
  - destruct (second_run_saves_nothing 10
                (Sample.browser_on Sample.recycling_page) Sample.fresh s1 r1)
      as (r2 & s2 & Hrun2 & _ & Hsaved & Hskipped & _);
      [intros k c; reflexivity|exact E|].
    split.
    + vm_compute in E. injection E as <- _. reflexivity.
    + exists r2, s2. split; [exact Hrun2|]. split; [exact Hsaved|exact Hskipped].
  - vm_compute in E. discriminate.
Defined.

End StoreExtras.

(** ** Statistics: [get_stats] *)

Module Stats.

Import Scraper.

(** The dictionary [get_stats] returns. *)
Record Stats : Type := mkStats {
  total_tweets : nat;
  unique_authors : nat
}.

(** Modelled from the spec: the two read-only requests of [get_stats],
    [select('id', count='exact')] and [select('author')], which the store
    client answers from the rows of the table.  Each field is the text of
    the error the request raises, [None] when it is answered. *)
Record Reads : Type := mkReads {
  count_fault : option string;
  authors_fault : option string
}.

(** [tweet.get('author')] is truthy: the author is neither null nor
    empty. *)
Definition named (a : option string) : option string :=
  match a with
  | None | Some "" => None
  | Some name => Some name
  end.

(** [get_stats]; the error line it logs is left out.  An exception of
    either request gives the dictionary of zeros. *)
Definition get_stats (q : Reads) (s : State) : Stats :=
  match count_fault q with
  | Some _ => {| total_tweets := 0; unique_authors := 0 |}
  | None =>
      let total := length (rows (supabase s)) in
      match authors_fault q with
      | Some _ => {| total_tweets := 0; unique_authors := 0 |}
      | None =>
          let authors : gset string :=
            list_to_set (omap named (row_author <$> rows (supabase s))) in
          {| total_tweets := total; unique_authors := size authors |}
      end
  end.

(** Both requests are answered. *)
Definition answered : Reads := {| count_fault := None; authors_fault := None |}.

End Stats.

Section StatsFacts.

Import Scraper Stats.





(** X15: the two lines [run_once] logs agree: when both requests of [get_stats]
    are answered, the total reported after a completed run is the total
    before it plus the number of tweets the run reports as saved, whatever
    failed in between. *)
Theorem total_grows_by_saved (max_tweets : Z) (b : Browser) (s s' : State)
    (r : RunResult) :
  scrape_and_save max_tweets b s = Some (inr r, s') →
  total_tweets (get_stats answered s')
  = (total_tweets (get_stats answered s) + saved r)%nat.
Proof.
  unfold scrape_and_save.
  destruct (launch_fails b); [done|].
  destruct (collect_tweets max_tweets (timeline b)) as [st|]; [|done].
  destruct (save_all_rows (tweets_data st) 0 0 s) as (added & Hrows & Hcount & _).
  destruct (save_all (tweets_data st) 0 0 s) as [[a' b'] s1].
  intros [= <- <-]. simpl in *. rewrite Hrows, length_app, Hcount. lia.
Qed.

Lemma total_grows_by_saved_witness :
  match scrape_and_save 10 (Sample.browser_on Sample.recycling_page)
          Sample.stored with
  | Some (inr r, s') =>
      total_tweets (get_stats answered s') = (1 + saved r)%nat
  | _ => False
  end.
Proof.
  destruct (scrape_and_save 10 (Sample.browser_on Sample.recycling_page)
              Sample.stored) as [[[e|r] s']|] eqn:E.
  - vm_compute in E. discriminate.
  - exact (total_grows_by_saved _ _ _ _ _ E).
  - vm_compute in E. discriminate.
Defined.

End StatsFacts.

(** ** More on the scheduler *)

Section SchedulerExtras.

Import Scheduler.







Lemma start_loop_unlimited fuel w s seen :
  status (start_loop fuel None w s seen) ≠ Stopped.
Proof.
  revert s seen. induction fuel as [|fuel IH]; intros s seen; [done|].
  cbn [start_loop]. change (max_runs_reached None s) with false.
  rewrite run_once_counted. cbv iota beta.
  destruct (orchestrator w _) as [r|e|]; [| |done];
    (destruct (pause w _ _) as [| |site]; [apply IH|done..]).
Qed.

(** X19: with [max_runs] unset the loop is never left through its [break]: the
    scheduler is still running, was stopped by Ctrl+C, or was left by an
    exception raised outside [run_once]. *)
Theorem start_unlimited_never_breaks (fuel : nat) (w : World)
    (s : ScraperScheduler) :
  status (start fuel None w s) = Running
  ∨ status (start fuel None w s) = Interrupted
  ∨ ∃ site, status (start fuel None w s) = Raised site.
Proof.
  unfold start. destruct (Float.true_divide_overflows _ _); [by eauto|].
  pose proof (start_loop_unlimited fuel w s []) as H.
  destruct (status (start_loop fuel None w s [])); [done|by eauto..].
Qed.




End SchedulerExtras.

(** ** More on the author and on links as the page gives them *)

Section AuthorFacts.

Import Py Scraper.

Lemma split_char_pieces c s piece :
  piece ∈ split (String c "") s → contains (String c "") piece = false.
Proof.
  unfold split. revert piece. induction s as [|x s IH]; intros piece.
  - simpl. by intros ->%list_elem_of_singleton.
  - cbn [split_from String.prefix].
    destruct (Ascii.ascii_dec c x) as [<-|Hne].
    + rewrite prefix_empty. intros [->|Hin]%elem_of_cons; [done|]. by apply IH.
    + pose proof (split_from_not_nil (String c "") 0 s) as Hnil.
      destruct (split_from (String c "") 0 s) as [|first pieces]; [done|].
      intros [->|Hin]%elem_of_cons.
      * rewrite contains_char_cons. destruct (Ascii.ascii_dec c x); [done|].
        apply IH. left.
      * apply IH. by right.
Qed.

(** X20: the author [extract_author_from_url] returns is one segment of the
    address: it holds no slash. *)
Theorem author_is_a_segment (url a : string) :
  extract_author_from_url url = Some a → contains "/" a = false.
Proof.
  unfold extract_author_from_url, author_of_url.
  destruct (contains "/status/" url); [|done]. cbv zeta.
  destruct (if bool_decide ("x.com" ∈ split "/" url)
            then index "x.com" (split "/" url)
            else index "twitter.com" (split "/" url)) as [e|i]; [done|].
  simpl. unfold getitem.
  destruct (split "/" url !! (i + 1)%nat) as [piece|] eqn:Hget; [|done].
  simpl. intros [= <-].
  apply (split_char_pieces "/" url). by eapply list_elem_of_lookup_2.
Qed.

Lemma author_is_a_segment_witness :
  extract_author_from_url Sample.web_url = Some "i"
  ∧ contains "/" "i" = false.
Proof.
  split; [reflexivity|].
  apply (author_is_a_segment Sample.web_url "i"). reflexivity.
Defined.

End AuthorFacts.

Section LinkFacts.

Import Py Scraper.

Lemma handle_before_marker h :
  contains "/" h = false →
  String.prefix "status/" (h +:+ "/") = true → h = "status".
Proof.
  intros Hno Hpre.
  do 6 (destruct h as [|? h]; [by vm_compute in Hpre|];
        rewrite append_cons in Hpre; cbn [String.prefix] in Hpre;
        match type of Hpre with
        | context [Ascii.ascii_dec ?c ?y] =>
            destruct (Ascii.ascii_dec c y) as [<-|]; [|discriminate Hpre]
        end).
  destruct h as [|x h]; [reflexivity|].
  rewrite append_cons in Hpre; cbn [String.prefix] in Hpre.
  destruct (Ascii.ascii_dec "/" x) as [<-|]; [|discriminate Hpre].
  rewrite !contains_char_cons in Hno. vm_compute in Hno. discriminate Hno.
Qed.

Lemma no_marker_before_handle h :
  contains "/" h = false → h ≠ "status" →
  contains "/status/" ("https://x.com/" +:+ h +:+ "/") = false.
Proof.
  intros Hno Hne. simpl.
  change ("" +:+ h +:+ "/") with (h +:+ "/").
  apply orb_false_intro.
  - destruct (String.prefix "status/" (h +:+ "/")) eqn:Hpre; [|done].
    by apply handle_before_marker in Hpre.
  - by apply contains_status_after_token.
Qed.

(** The identifier after the marker, as [tweet_id_round_trip] states it,
    for the address of a relative link. *)
Lemma tweet_id_after_marker base id tail :
  contains "/status/" (base +:+ "/") = false →
  contains "/" id = false → contains "?" id = false →
  contains "/status/" tail = false →
  tail = "" ∨ String.prefix "/" tail = true ∨ String.prefix "?" tail = true →
  extract_tweet_id_from_url (base +:+ "/status/" +:+ id +:+ tail) = Some id.
Proof.
  intros Hbase Hslash Hquery Htail Hend.
  unfold extract_tweet_id_from_url. rewrite contains_app.
  rewrite (split_at_first "/" "status/") by by apply starts_clear_status.
  rewrite (split_none "/status/" (id +:+ tail))
    by by apply contains_status_after_token.
  change (last_piece [base; id +:+ tail]) with (id +:+ tail).
  rewrite !first_piece_up_to.
  rewrite (up_to_app_clear "?") by done.
  rewrite (up_to_app_clear "/") by done.
  replace (up_to "/" (up_to "?" tail)) with "".
  - by rewrite append_empty.
  - destruct Hend as [->|[Hend|Hend]]; [done| |];
      (destruct tail as [|x tail]; [done|]); cbn [String.prefix] in Hend.
    + destruct (Ascii.ascii_dec "/" x) as [<-|]; [reflexivity|done].
    + destruct (Ascii.ascii_dec "?" x) as [<-|]; [reflexivity|done].
Qed.

(** X21: the link of an article as x.com writes it, relative and of the shape
    [/<handle>/status/<id><tail>], is recorded with that identifier, that
    handle as author and the address completed with [https://x.com], when
    the handle is not the word [status], the identifier is a non-empty
    token not yet processed, and the tail is empty or starts at a slash or
    a question mark and holds no further marker. *)
Theorem relative_status_link_is_recorded (st : Loop) (el : Element)
    (handle id tail text : string) :
  contains "/" handle = false → handle ≠ "status" →
  contains "/" id = false → contains "?" id = false → id ≠ "" →
  contains "/status/" tail = false →
  tail = "" ∨ String.prefix "/" tail = true ∨ String.prefix "?" tail = true →
  tweet_link el = Some ("/" +:+ handle +:+ "/status/" +:+ id +:+ tail) →
  inner_text el = inr text →
  id ∉ processed_tweet_ids st →
  tweets_data (process_element st el)
  = (tweets_data st ++
      [ {| tweet_id := id; content := text; author := Some handle;
           url := "https://x.com/" +:+ handle +:+ "/status/" +:+ id +:+ tail |} ])%list.
Proof.
  intros Hhandle Hne Hslash Hquery Hid Htail Hend Hlink Htext Hnew.
  unfold process_element. rewrite Hlink.
  change (absolute_url ("/" +:+ handle +:+ "/status/" +:+ id +:+ tail))
    with ("https://x.com/" +:+ handle +:+ "/status/" +:+ id +:+ tail).
  assert (Hfound :
    extract_tweet_id_from_url
      ("https://x.com/" +:+ handle +:+ "/status/" +:+ id +:+ tail) = Some id).
  { change ("https://x.com/" +:+ handle +:+ "/status/" +:+ id +:+ tail)
      with (("https://x.com/" +:+ handle) +:+ "/status/" +:+ id +:+ tail).
    apply tweet_id_after_marker; try done.
    change (("https://x.com/" +:+ handle) +:+ "/")
      with ("https://x.com/" +:+ handle +:+ "/").
    by apply no_marker_before_handle. }
  rewrite Hfound. destruct id as [|c id]; [done|]. cbn [falsy].
  change (default "" (Some (String c id))) with (String c id).
  rewrite bool_decide_eq_false_2 by done.
  rewrite Htext. cbn [tweets_data]. by rewrite author_canonical.
Qed.

Lemma relative_status_link_is_recorded_witness :
  tweets_data (process_element start_of_loop
                 (Sample.article "/alice/status/12345?s=20" "hello"))
  = [ {| tweet_id := "12345"; content := "hello"; author := Some "alice";
         url := "https://x.com/alice/status/12345?s=20" |} ].
Proof.
  apply (relative_status_link_is_recorded start_of_loop
           (Sample.article "/alice/status/12345?s=20" "hello")
           "alice" "12345" "?s=20" "hello").
  - reflexivity.
  - discriminate.
  - reflexivity.
  - reflexivity.
  - discriminate.
  - reflexivity.
  - right. right. reflexivity.
  - reflexivity.
  - reflexivity.
  - apply not_elem_of_empty.
Defined.

End LinkFacts.

(** ** A first page that fills the quota *)

(** The article [el] shows [id] and its text can be read. *)
Definition shows_readable (el : Scraper.Element) (id : string) : Prop :=
  shows el id ∧ ∃ text, Scraper.inner_text el = inr text.

Section QuotaFacts.

Import Scraper.

Variable max_tweets : Z.

Lemma for_elements_full st els :
  wants_more max_tweets st = false → for_elements max_tweets st els = st.
Proof. intros Hfull. destruct els; simpl; [done|by rewrite Hfull]. Qed.

Lemma for_elements_app st els rest :
  for_elements max_tweets st (els ++ rest)%list
  = for_elements max_tweets (for_elements max_tweets st els) rest.
Proof.
  revert st. induction els as [|el els IH]; intros st; [done|].
  simpl. destruct (wants_more max_tweets st) eqn:Hmore; [apply IH|].
  by rewrite for_elements_full.
Qed.

Lemma process_element_fresh st el id :
  shows_readable el id → id ∉ processed_tweet_ids st →
  ∃ t, tweet_id t = id
       ∧ tweets_data (process_element st el) = (tweets_data st ++ [t])%list
       ∧ processed_tweet_ids (process_element st el)
         = {[id]} ∪ processed_tweet_ids st.
Proof.
  intros [(href & Hlink & Hid & Hne) [text Htext]] Hnew.
  unfold process_element. rewrite Hlink, Hid.
  destruct id as [|c id]; [done|]. cbn [falsy].
  change (default "" (Some (String c id))) with (String c id).
  rewrite bool_decide_eq_false_2 by done. rewrite Htext.
  exists {| tweet_id := String c id; content := text;
            author := extract_author_from_url (absolute_url href);
            url := absolute_url href |}.
  split; [reflexivity|]. split; reflexivity.
Qed.

Lemma for_elements_fresh els ids st :
  Forall2 shows_readable els ids → NoDup ids →
  (∀ id, id ∈ ids → id ∉ processed_tweet_ids st) →
  (Z.of_nat (length (tweets_data st) + length els) ≤ max_tweets)%Z →
  tweet_id <$> tweets_data (for_elements max_tweets st els)
  = ((tweet_id <$> tweets_data st) ++ ids)%list.
Proof.
  intros Hall. revert st.
  induction Hall as [|el id els ids Hel Hall IH]; intros st Hnodup Hnew Hroom.
  - simpl. by rewrite app_nil_r.
  - apply NoDup_cons in Hnodup as [Hfirst Hnodup]. simpl in *.
    assert (Hmore : wants_more max_tweets st = true).
    { unfold wants_more. apply bool_decide_eq_true_2. lia. }
    rewrite Hmore.
    destruct (process_element_fresh st el id Hel) as (t & Ht & Htweets & Hset).
    { apply Hnew. left. }
    rewrite IH; [| done | |].
    + rewrite Htweets, fmap_app. simpl. rewrite Ht. by rewrite <- app_assoc.
    + intros id' Hid'. rewrite Hset.
      intros [->%elem_of_singleton|Hin]%elem_of_union; [done|].
      by apply (Hnew id'); [right|].
    + rewrite Htweets, length_app. simpl. lia.
Qed.

End QuotaFacts.

Section QuotaExtras.

Import Scraper.

(** X22: no needless scroll, and the order of the page is kept: when the first
    [n] articles on screen (with [n = max_tweets] positive) can be read and
    show pairwise distinct identifiers, [collect_tweets] returns exactly
    their records, in the order of the page, and sends no scroll at all. *)
Theorem first_page_fills_without_scrolling (n : nat) (page : Page)
    (els rest : list Element) (ids : list string) :
  (0 < n)%nat →
  rendered page 0 = (els ++ rest)%list → length els = n →
  Forall2 shows_readable els ids → NoDup ids →
  ∃ st, collect_tweets (Z.of_nat n) page = Some st
        ∧ tweet_id <$> tweets_data st = ids
        ∧ actions st = []
        ∧ scroll_cycles st = 0%nat.
Proof.
  intros Hpos Hpage Hlen Hall Hnodup.
  set (max_tweets := Z.of_nat n).
  set (st := for_elements max_tweets start_of_loop els).
  assert (Hids : tweet_id <$> tweets_data st = ids).
  { unfold st.
    rewrite (for_elements_fresh max_tweets els ids start_of_loop Hall Hnodup).
    - reflexivity.
    - intros id _. apply not_elem_of_empty.
    - simpl. unfold max_tweets. lia. }
  assert (Hact : actions st = []) by apply for_elements_attempts.
  assert (Hfull : wants_more max_tweets st = false).
  { unfold wants_more. apply bool_decide_eq_false_2.
    rewrite <- (length_fmap tweet_id), Hids.
    rewrite <- (Forall2_length _ _ _ Hall). unfold max_tweets. lia. }
  exists st. split; [|split; [done|split; [done|]]].
  - rewrite collect_tweets_eq.
    change max_scroll_attempts with (S 19).
    rewrite while_collecting_unfold.
    assert (Hkeep : keeps_collecting max_tweets start_of_loop = true).
    { unfold keeps_collecting, wants_more.
      rewrite bool_decide_eq_true_2 by (simpl; unfold max_tweets; lia). done. }
    rewrite Hkeep. unfold pass.
    change (scroll_attempts start_of_loop) with 0%nat.
    rewrite Hpage, for_elements_app. fold st.
    rewrite (for_elements_full max_tweets st rest Hfull), Hfull.
    apply while_collecting_exit. unfold keeps_collecting. by rewrite Hfull.
  - unfold scroll_cycles. by rewrite Hact.
Qed.

Lemma first_page_fills_without_scrolling_witness :
  ∃ st, collect_tweets 2 Sample.recycling_page = Some st
        ∧ tweet_id <$> tweets_data st = ["1"; "2"]
        ∧ actions st = []
        ∧ scroll_cycles st = 0%nat.
Proof.
  apply (first_page_fills_without_scrolling 2 Sample.recycling_page
           [Sample.article "/alice/status/1" "one";
            Sample.article "/bob/status/2" "two"]
           [Sample.article "/alice/status/1" "one"]
           ["1"; "2"]).
  - lia.
  - reflexivity.
  - reflexivity.
  - repeat constructor.
    + exists "/alice/status/1". by repeat split.
    + by eexists.
    + exists "/bob/status/2". by repeat split.
    + by eexists.
  - apply (bool_decide_unpack _). vm_compute. exact I.
Defined.

End QuotaExtras.
